(** * A limit order book with price-time priority

    Shallow embedding of [orderbook_v0.2.cpp]: the [Order] class, the
    [OrderBook] class with its four cross-referenced containers
    ([bids_], [asks_], [orders_], [data_]), the matching loop and the
    public operations.

    Representation choices.
    - [Price] (int32_t), [Quantity] (uint32_t) and [OrderId] (uint64_t) are
      integers in [Z]; the two unsigned counters of [LevelData] that the code
      can drive below zero (uint32_t [count], uint64_t [quantity]) wrap
      around explicitly.
    - A [std::map] is a key-ordered association list together with the
      comparator of the map ([std::less] or [std::greater]); [begin] is its
      head and [rbegin] its last entry.
    - [orders_] (a [std::unordered_map]) is a [gmap].
    - An [Order] is one heap object shared by a queue node and by the
      [OrderEntry] of the id-lookup.  The model keeps the object in the queue;
      the entry records the fields of the object that never change while it
      is in the book (type, side, price) and stands for the list iterator by
      naming the node that holds the order of that identifier.
    - Exceptions ([std::logic_error] of [Order::Fill], [std::out_of_range]
      of [map::at], [std::length_error] and [std::bad_alloc] of
      [vector::reserve]) are results of the error type [outcome].
    - The [timestamp] of an order is never read and is left out. *)

From stdpp Require Import gmap list sorting.

Local Open Scope Z_scope.

(** ** Scalar types and enumerations *)

Abbreviation Price := Z (only parsing).
Abbreviation Quantity := Z (only parsing).
Abbreviation OrderId := Z (only parsing).

Definition UINT32_MOD : Z := 2 ^ 32.
Definition UINT64_MOD : Z := 2 ^ 64.

Inductive Side := Buy | Sell.

Inductive OrderType :=
| GoodTillCancel
| FillAndKill
| FillOrKill
| GoodForDay
| Market.

#[global] Instance Side_eq_dec : EqDecision Side.
Proof. solve_decision. Defined.

#[global] Instance OrderType_eq_dec : EqDecision OrderType.
Proof. solve_decision. Defined.

(** ** Failures

    [logic_error] is thrown by [Order::Fill], [out_of_range] by [map::at],
    [length_error] and [bad_alloc] by [vector::reserve].
    [invalid_iterator] stands for erasing through an iterator whose node is
    no longer in the list.  [loop_bound] is returned when a loop of the
    model has used up its iteration bound; the bounds are chosen so that it
    never happens (see [match_level_bound] and [match_loop_bound]). *)

Inductive failure :=
| logic_error (id : OrderId)
| out_of_range
| length_error
| bad_alloc
| invalid_iterator
| loop_bound.

Inductive outcome (A : Type) :=
| Ok (a : A)
| Throw (e : failure).

Arguments Ok {A} a.
Arguments Throw {A} e.

Definition bind {A B} (x : outcome A) (f : A → outcome B) : outcome B :=
  match x with
  | Ok a => f a
  | Throw e => Throw e
  end.

Notation "'try' x := e 'in' k" := (bind e (fun x => k))
  (at level 10, x pattern, e at level 100, k at level 200).

(** ** Order *)

Record Order := mkOrder {
  GetOrderType : OrderType;
  GetOrderId : OrderId;
  GetSide : Side;
  GetPrice : Price;
  GetInitialQuantity : Quantity;
  GetRemainingQuantity : Quantity
}.

(** The constructor: the remaining quantity starts at the initial one. *)
Definition new_Order (t : OrderType) (id : OrderId) (s : Side) (p : Price)
    (q : Quantity) : Order :=
  mkOrder t id s p q q.

Definition IsFilled (o : Order) : bool := GetRemainingQuantity o =? 0.

Definition set_remaining (q : Quantity) (o : Order) : Order :=
  mkOrder (GetOrderType o) (GetOrderId o) (GetSide o) (GetPrice o)
          (GetInitialQuantity o) q.

Definition Fill (q : Quantity) (o : Order) : outcome Order :=
  if GetRemainingQuantity o <? q then Throw (logic_error (GetOrderId o))
  else Ok (set_remaining (GetRemainingQuantity o - q) o).

Definition ToGoodTillCancel (worstPrice : Price) (o : Order) : Order :=
  match GetOrderType o with
  | Market =>
      mkOrder GoodTillCancel (GetOrderId o) (GetSide o) worstPrice
              (GetInitialQuantity o) (GetRemainingQuantity o)
  | _ => o
  end.

(** ** OrderModify, Trade, LevelData *)

Module OrderModify.
Record t := mk {
  orderId : OrderId;
  side : Side;
  price : Price;
  quantity : Quantity
}.
Definition ToOrderPointer (m : t) (type : OrderType) : Order :=
  new_Order type (orderId m) (side m) (price m) (quantity m).
End OrderModify.

Module TradeInfo.
Record t := mk {
  orderId : OrderId;
  price : Price;
  quantity : Quantity
}.
End TradeInfo.

Record Trade := mkTrade {
  bid : TradeInfo.t;
  ask : TradeInfo.t
}.

Module LevelData.
Record t := mk {
  count : Z;
  quantity : Z
}.
Definition zero : t := mk 0 0.
End LevelData.

(** ** Ordered maps ([std::map] with a comparator) *)

Section StdMap.
Context {V : Type}.
(** [cmp k k'] holds when [k] is ordered before [k']: [Z.ltb] for
    [std::less], [Z.gtb] for [std::greater]. *)
Variable cmp : Price → Price → bool.

Fixpoint map_find (k : Price) (m : list (Price * V)) : option V :=
  match m with
  | [] => None
  | (k', v) :: m' => if k =? k' then Some v else map_find k m'
  end.

(** Assignment through [operator[]] or through a reference to the mapped
    value: replaces the value of an existing key, or inserts the key at its
    place in the order. *)
Fixpoint map_put (k : Price) (v : V) (m : list (Price * V)) : list (Price * V) :=
  match m with
  | [] => [(k, v)]
  | (k', v') :: m' =>
      if k =? k' then (k, v) :: m'
      else if cmp k k' then (k, v) :: (k', v') :: m'
      else (k', v') :: map_put k v m'
  end.

Fixpoint map_erase (k : Price) (m : list (Price * V)) : list (Price * V) :=
  match m with
  | [] => []
  | (k', v) :: m' =>
      if k =? k' then map_erase k m' else (k', v) :: map_erase k m'
  end.

Definition map_begin (m : list (Price * V)) : option (Price * V) := head m.
Definition map_rbegin (m : list (Price * V)) : option (Price * V) := last m.

End StdMap.

Definition less : Price → Price → bool := Z.ltb.
Definition greater : Price → Price → bool := Z.gtb.

(** ** OrderBook *)

Abbreviation OrderPointers := (list Order) (only parsing).

(** [entry_type], [entry_side] and [entry_price] are what [order->GetOrderType()],
    [order->GetSide()] and [order->GetPrice()] return through the entry's
    pointer; the iterator [it] is the node of that order in the queue
    selected by side and price. *)
Record OrderEntry := mkEntry {
  entry_type : OrderType;
  entry_side : Side;
  entry_price : Price
}.

Record OrderBook := mkBook {
  bids_ : list (Price * OrderPointers);
  asks_ : list (Price * OrderPointers);
  orders_ : gmap Z OrderEntry;
  data_ : list (Price * LevelData.t)
}.

Definition empty_book : OrderBook := mkBook [] [] ∅ [].

Definition set_bids (v : list (Price * OrderPointers)) (b : OrderBook) :=
  mkBook v (asks_ b) (orders_ b) (data_ b).
Definition set_asks (v : list (Price * OrderPointers)) (b : OrderBook) :=
  mkBook (bids_ b) v (orders_ b) (data_ b).
Definition set_orders (v : gmap Z OrderEntry) (b : OrderBook) :=
  mkBook (bids_ b) (asks_ b) v (data_ b).
Definition set_data (v : list (Price * LevelData.t)) (b : OrderBook) :=
  mkBook (bids_ b) (asks_ b) (orders_ b) v.

(** *** Bookkeeping hooks of the level aggregate *)

Definition OnOrderAdded (order : Order) (data : list (Price * LevelData.t))
    : list (Price * LevelData.t) :=
  let ld := default LevelData.zero (map_find (GetPrice order) data) in
  map_put greater (GetPrice order)
    (LevelData.mk ((LevelData.count ld + 1) mod UINT32_MOD)
       ((LevelData.quantity ld + GetInitialQuantity order) mod UINT64_MOD))
    data.

(** Writes a decremented aggregate back, erasing it when its count is zero. *)
Definition store_level (p : Price) (ld : LevelData.t)
    (data : list (Price * LevelData.t)) : list (Price * LevelData.t) :=
  if LevelData.count ld =? 0 then map_erase p data
  else map_put greater p ld data.

Definition OnOrderCancelled (order : Order) (data : list (Price * LevelData.t))
    : list (Price * LevelData.t) :=
  match map_find (GetPrice order) data with
  | None => data
  | Some ld =>
      store_level (GetPrice order)
        (LevelData.mk ((LevelData.count ld - 1) mod UINT32_MOD)
           ((LevelData.quantity ld - GetRemainingQuantity order) mod UINT64_MOD))
        data
  end.

Definition OnOrderMatched (price : Price) (qty : Quantity) (full : bool)
    (data : list (Price * LevelData.t)) : list (Price * LevelData.t) :=
  match map_find price data with
  | None => data
  | Some ld =>
      store_level price
        (LevelData.mk
           (if full then (LevelData.count ld - 1) mod UINT32_MOD
            else LevelData.count ld)
           ((LevelData.quantity ld - qty) mod UINT64_MOD))
        data
  end.

(** *** Matching helpers *)

Definition CanMatch (side : Side) (price : Price) (b : OrderBook) : bool :=
  match side with
  | Buy =>
      match map_begin (asks_ b) with
      | None => false
      | Some (bestAsk, _) => price >=? bestAsk
      end
  | Sell =>
      match map_begin (bids_ b) with
      | None => false
      | Some (bestBid, _) => price <=? bestBid
      end
  end.

(** The walk of [CanFullyFill] over one side; [beyond p] is the test that
    ends it ([p > price] on the asks, [p < price] on the bids). *)
Fixpoint fill_walk (beyond : Price → bool) (data : list (Price * LevelData.t))
    (levels : list (Price * OrderPointers)) (remaining : Z) : bool :=
  match levels with
  | [] => false
  | (p, _) :: rest =>
      if beyond p then false
      else
        let avail :=
          match map_find p data with
          | Some ld => LevelData.quantity ld
          | None => 0
          end in
        if avail >=? remaining then true
        else
          let remaining' :=
            if avail >? 0 then remaining - Z.min avail remaining
            else remaining in
          if remaining' =? 0 then true
          else fill_walk beyond data rest remaining'
  end.

Definition CanFullyFill (side : Side) (price : Price) (qty : Quantity)
    (b : OrderBook) : bool :=
  if negb (CanMatch side price b) then false
  else
    match side with
    | Buy => fill_walk (fun p => p >? price) (data_ b) (asks_ b) qty
    | Sell => fill_walk (fun p => p <? price) (data_ b) (bids_ b) qty
    end.

(** *** CancelOrderInternal *)

(** [c.erase(it)]: takes the node of the order [id] out of the queue. *)
Fixpoint list_erase (id : OrderId) (c : OrderPointers)
    : option (Order * OrderPointers) :=
  match c with
  | [] => None
  | o :: c' =>
      if GetOrderId o =? id then Some (o, c')
      else
        match list_erase id c' with
        | Some (x, c'') => Some (x, o :: c'')
        | None => None
        end
  end.

(** Removes a node from the bucket at [price] of one side, and the bucket
    with it when it becomes empty. *)
Definition erase_from_side (cmp : Price → Price → bool) (id : OrderId)
    (price : Price) (m : list (Price * OrderPointers))
    : outcome (Order * list (Price * OrderPointers)) :=
  match map_find price m with
  | None => Throw out_of_range
  | Some c =>
      match list_erase id c with
      | None => Throw invalid_iterator
      | Some (order, c') =>
          Ok (order,
              if bool_decide (c' = []) then map_erase price m
              else map_put cmp price c' m)
      end
  end.

Definition CancelOrderInternal (id : OrderId) (b : OrderBook) : outcome OrderBook :=
  match orders_ b !! id with
  | None => Ok b
  | Some entry =>
      let orders := delete id (orders_ b) in
      match entry_side entry with
      | Sell =>
          try (order, asks) :=
            erase_from_side less id (entry_price entry) (asks_ b) in
          Ok (mkBook (bids_ b) asks orders (OnOrderCancelled order (data_ b)))
      | Buy =>
          try (order, bids) :=
            erase_from_side greater id (entry_price entry) (bids_ b) in
          Ok (mkBook bids (asks_ b) orders (OnOrderCancelled order (data_ b)))
      end
  end.

(** *** MatchOrders *)

Record LevelState := mkLevel {
  lv_bids : OrderPointers;
  lv_asks : OrderPointers;
  lv_orders : gmap Z OrderEntry;
  lv_data : list (Price * LevelData.t);
  lv_trades : list Trade
}.

(** The inner [while] loop, over the two queues at the best prices. *)
Fixpoint match_level (fuel : nat) (bidPrice askPrice : Price) (s : LevelState)
    : outcome LevelState :=
  match lv_bids s, lv_asks s with
  | bid :: bids', ask :: asks' =>
      match fuel with
      | O => Throw loop_bound
      | S fuel' =>
          let qty := Z.min (GetRemainingQuantity bid) (GetRemainingQuantity ask) in
          try bid1 := Fill qty bid in
          try ask1 := Fill qty ask in
          let trades :=
            lv_trades s ++
            [mkTrade (TradeInfo.mk (GetOrderId bid1) askPrice qty)
                     (TradeInfo.mk (GetOrderId ask1) askPrice qty)] in
          let data :=
            OnOrderMatched askPrice qty (IsFilled ask1)
              (OnOrderMatched bidPrice qty (IsFilled bid1) (lv_data s)) in
          let orders1 :=
            if IsFilled bid1 then delete (GetOrderId bid1) (lv_orders s)
            else lv_orders s in
          let bids1 := if IsFilled bid1 then bids' else bid1 :: bids' in
          let orders2 :=
            if IsFilled ask1 then delete (GetOrderId ask1) orders1
            else orders1 in
          let asks1 := if IsFilled ask1 then asks' else ask1 :: asks' in
          match_level fuel' bidPrice askPrice
            (mkLevel bids1 asks1 orders2 data trades)
      end
  | _, _ => Ok s
  end.

Definition match_level_bound (bids asks : OrderPointers) : nat :=
  (length bids + length asks)%nat.

(** The outer [while] loop.  The two queues are references into the maps:
    what the inner loop leaves in them is written back to the heads.

    [bidPrice] and [askPrice] are references too, to the keys stored in the
    head nodes.  In [bids_.erase(bidPrice); data_.erase(bidPrice);] the
    first call destroys the node that holds the key and the second one
    reads the key through the reference (the same for the asks): a read of
    freed storage, which the language leaves undefined.  The model gives
    that read the value the key had, which is what the program compiled as
    its header says ([g++ -O2], no instrumentation) does; a build that
    checks such reads stops there instead, and is not what is modelled. *)
Fixpoint match_loop (fuel : nat) (b : OrderBook) (trades : list Trade)
    : outcome (list Trade * OrderBook) :=
  match bids_ b, asks_ b with
  | (bidPrice, bids) :: bids_rest, (askPrice, asks) :: asks_rest =>
      if bidPrice <? askPrice then Ok (trades, b)
      else
        match fuel with
        | O => Throw loop_bound
        | S fuel' =>
            try s :=
              match_level (match_level_bound bids asks) bidPrice askPrice
                (mkLevel bids asks (orders_ b) (data_ b) trades) in
            let bids1 := (bidPrice, lv_bids s) :: bids_rest in
            let asks1 := (askPrice, lv_asks s) :: asks_rest in
            let bids_empty := bool_decide (lv_bids s = []) in
            let bids2 := if bids_empty then map_erase bidPrice bids1 else bids1 in
            let data1 :=
              if bids_empty then map_erase bidPrice (lv_data s) else lv_data s in
            let asks_empty := bool_decide (lv_asks s = []) in
            let asks2 := if asks_empty then map_erase askPrice asks1 else asks1 in
            let data2 := if asks_empty then map_erase askPrice data1 else data1 in
            match_loop fuel' (mkBook bids2 asks2 (lv_orders s) data2)
              (lv_trades s)
        end
  | _, _ => Ok (trades, b)
  end.

Definition match_loop_bound (b : OrderBook) : nat :=
  (length (bids_ b) + length (asks_ b))%nat.

(** The order type at the front of the best level of one side. *)
Definition front_FillAndKill (m : list (Price * OrderPointers)) : option OrderId :=
  match m with
  | (_, o :: _) :: _ =>
      if bool_decide (GetOrderType o = FillAndKill) then Some (GetOrderId o)
      else None
  | _ => None
  end.

Definition MatchOrders (b : OrderBook) : outcome (list Trade * OrderBook) :=
  try (trades, b1) := match_loop (match_loop_bound b) b [] in
  try b2 :=
    match front_FillAndKill (bids_ b1) with
    | Some id => CancelOrderInternal id b1
    | None => Ok b1
    end in
  try b3 :=
    match front_FillAndKill (asks_ b2) with
    | Some id => CancelOrderInternal id b2
    | None => Ok b2
    end in
  Ok (trades, b3).

(** *** Public operations (each body runs with [mutex_] held) *)

(** The conversion step of [AddOrder]: [None] when a market order finds no
    liquidity on the other side. *)
Definition convert_market (order : Order) (b : OrderBook) : option Order :=
  if bool_decide (GetOrderType order = Market) then
    match GetSide order with
    | Buy =>
        match map_rbegin (asks_ b) with
        | Some (worst, _) => Some (ToGoodTillCancel worst order)
        | None => None
        end
    | Sell =>
        match map_rbegin (bids_ b) with
        | Some (worst, _) => Some (ToGoodTillCancel worst order)
        | None => None
        end
    end
  else Some order.

(** [lvl.push_back(order)] on [bids_[price]] or [asks_[price]]. *)
Definition push_back (cmp : Price → Price → bool) (order : Order)
    (m : list (Price * OrderPointers)) : list (Price * OrderPointers) :=
  map_put cmp (GetPrice order)
    (default [] (map_find (GetPrice order) m) ++ [order]) m.

(** [orders_.insert]: keeps an entry that is already there. *)
Definition orders_insert (id : OrderId) (e : OrderEntry)
    (orders : gmap Z OrderEntry) : gmap Z OrderEntry :=
  match orders !! id with
  | Some _ => orders
  | None => <[id := e]> orders
  end.

Definition insert_order (order : Order) (b : OrderBook) : OrderBook :=
  let entry := mkEntry (GetOrderType order) (GetSide order) (GetPrice order) in
  match GetSide order with
  | Buy =>
      mkBook (push_back greater order (bids_ b)) (asks_ b)
        (orders_insert (GetOrderId order) entry (orders_ b))
        (OnOrderAdded order (data_ b))
  | Sell =>
      mkBook (bids_ b) (push_back less order (asks_ b))
        (orders_insert (GetOrderId order) entry (orders_ b))
        (OnOrderAdded order (data_ b))
  end.

Definition AddOrder (order : Order) (b : OrderBook)
    : outcome (list Trade * OrderBook) :=
  if bool_decide (is_Some (orders_ b !! GetOrderId order)) then Ok ([], b)
  else
    match convert_market order b with
    | None => Ok ([], b)
    | Some order =>
        if bool_decide (GetOrderType order = FillAndKill)
           && negb (CanMatch (GetSide order) (GetPrice order) b)
        then Ok ([], b)
        else if bool_decide (GetOrderType order = FillOrKill)
                && negb (CanFullyFill (GetSide order) (GetPrice order)
                           (GetInitialQuantity order) b)
        then Ok ([], b)
        else MatchOrders (insert_order order b)
    end.

Definition CancelOrder (id : OrderId) (b : OrderBook) : outcome OrderBook :=
  CancelOrderInternal id b.

(** Run by one caller: the lookup, [CancelOrder] and [AddOrder] follow each
    other (what other callers can do in between is the subject of the
    section on locking). *)
Definition ModifyOrder (modify : OrderModify.t) (b : OrderBook)
    : outcome (list Trade * OrderBook) :=
  match orders_ b !! OrderModify.orderId modify with
  | None => Ok ([], b)
  | Some entry =>
      let typeToKeep := entry_type entry in
      try b1 := CancelOrder (OrderModify.orderId modify) b in
      AddOrder (OrderModify.ToOrderPointer modify typeToKeep) b1
  end.

(** [uint64_t qty=0; for(auto& o:lvl) qty+=o->GetRemainingQuantity();] *)
Definition level_quantity (lvl : OrderPointers) : Z :=
  fold_left (fun qty o => (qty + GetRemainingQuantity o) mod UINT64_MOD) lvl 0.

(** [depth] is a [size_t]; [out.size()>=depth] ends the loop. *)
Fixpoint levels_loop (depth : N) (levels : list (Price * OrderPointers))
    (out : list (Price * Z)) : list (Price * Z) :=
  match levels with
  | [] => out
  | (p, lvl) :: rest =>
      if (depth <=? N.of_nat (length out))%N then out
      else levels_loop depth rest (out ++ [(p, level_quantity lvl)])
  end.

(** [out.reserve(depth)] on the empty vector [out] of
    [std::pair<Price,uint64_t>] (16 bytes each: a 4-byte price, padding, an
    8-byte quantity).  With the library of [g++] on a 64-bit target,
    [max_size()] is [PTRDIFF_MAX / sizeof(value_type)].  [reserve] throws
    [std::length_error] for a request beyond [max_size()]; it allocates
    nothing when the request does not exceed the capacity, which is zero;
    otherwise it asks the allocator for storage for [depth] elements and
    [std::bad_alloc] comes out when the allocator refuses.  Whether it does
    depends on the memory the process can get: [alloc n] tells whether
    storage for [n] elements is granted. *)
Definition PTRDIFF_MAX : N := 2 ^ 63 - 1.

Definition sizeof_level : N := 16.

Definition max_size : N := PTRDIFF_MAX / sizeof_level.

Definition Allocator : Type := N → bool.

Definition reserve (alloc : Allocator) (n : N) : outcome unit :=
  if (max_size <? n)%N then Throw length_error
  else if (n =? 0)%N then Ok tt
  else if alloc n then Ok tt
  else Throw bad_alloc.

(** Once [reserve] has returned, [emplace_back] stays within the capacity
    ([out.size() < depth] when it is called) and allocates nothing. *)
Definition GetBidLevels (alloc : Allocator) (depth : N) (b : OrderBook)
    : outcome (list (Price * Z)) :=
  try _ := reserve alloc depth in
  Ok (levels_loop depth (bids_ b) []).

Definition GetAskLevels (alloc : Allocator) (depth : N) (b : OrderBook)
    : outcome (list (Price * Z)) :=
  try _ := reserve alloc depth in
  Ok (levels_loop depth (asks_ b) []).

Definition Size (b : OrderBook) : nat := size (orders_ b).

(** *** The expiration sweep (the body of [PruneGoodForDayOrders] after a
    cutoff wake) *)

Definition GoodForDay_ids (orders : gmap Z OrderEntry) : list OrderId :=
  omap (fun '(id, entry) =>
          if bool_decide (entry_type entry = GoodForDay) then Some id else None)
       (map_to_list orders).

Fixpoint cancel_all (ids : list OrderId) (b : OrderBook) : outcome OrderBook :=
  match ids with
  | [] => Ok b
  | id :: ids' => try b1 := CancelOrderInternal id b in cancel_all ids' b1
  end.

Definition PruneSweep (b : OrderBook) : outcome OrderBook :=
  cancel_all (GoodForDay_ids (orders_ b)) b.

(** The side an order of side [s] is matched against. *)
Definition opposite (s : Side) (b : OrderBook) : list (Price * OrderPointers) :=
  match s with
  | Buy => asks_ b
  | Sell => bids_ b
  end.

(** The side on which an order of side [s] waits. *)
Definition own_side (s : Side) (b : OrderBook) : list (Price * OrderPointers) :=
  match s with
  | Buy => bids_ b
  | Sell => asks_ b
  end.

(** ** Request sequences

    What a caller (or the sweeper) can ask of the book, and the book that a
    sequence of requests leaves. *)

Inductive Request :=
| ReqAdd (o : Order)
| ReqCancel (id : OrderId)
| ReqModify (m : OrderModify.t)
| ReqPrune.

Definition step (r : Request) (b : OrderBook) : outcome (list Trade * OrderBook) :=
  match r with
  | ReqAdd o => AddOrder o b
  | ReqCancel id => try b' := CancelOrder id b in Ok ([], b')
  | ReqModify m => ModifyOrder m b
  | ReqPrune => try b' := PruneSweep b in Ok ([], b')
  end.

Fixpoint run (rs : list Request) (b : OrderBook) : outcome OrderBook :=
  match rs with
  | [] => Ok b
  | r :: rs' => try (_, b1) := step r b in run rs' b1
  end.

(** An [Order] object keeps [0 <= remaining <= initial], within the range
    of [Quantity]: the constructor makes the two equal and [Fill] only lowers
    the remaining quantity. *)
Definition valid_order (o : Order) : Prop :=
  0 ≤ GetRemainingQuantity o ≤ GetInitialQuantity o ∧
  GetInitialQuantity o < UINT32_MOD.

Definition valid_request (r : Request) : Prop :=
  match r with
  | ReqAdd o => valid_order o
  | ReqModify m => 0 ≤ OrderModify.quantity m < UINT32_MOD
  | _ => True
  end.

Definition reachable (b : OrderBook) : Prop :=
  ∃ rs, Forall valid_request rs ∧ run rs empty_book = Ok b.

(** The book that a sequence of requests leaves of the empty book (the
    empty book again if a request fails). *)
Definition book_after (rs : list Request) : OrderBook :=
  match run rs empty_book with
  | Ok b => b
  | Throw _ => empty_book
  end.

(** ** Locking

    Every public member function takes [mutex_] with a [std::scoped_lock]
    that lives to the end of the enclosing block.  A call is modelled by the
    critical sections it runs one after the other: a critical section is a
    function of the book, run as a whole while the lock is held; between two
    sections of one call the lock is free and sections of other calls may
    run. *)

#[local] Set Warnings "-register-all".

Inductive Result :=
| RTrades (trades : list Trade)
| RLevels (levels : list (Price * Z))
| RSize (n : nat)
| RVoid
| RThrown (e : failure).

(** A call in progress: finished with its result, or about to take the
    lock for a critical section, which leaves a book and the rest of the
    call. *)
Inductive Call :=
| Done (r : Result)
| Locked (section : OrderBook → outcome (OrderBook * Call)).

Definition call_AddOrder (order : Order) : Call :=
  Locked (fun b =>
    try (trades, b') := AddOrder order b in Ok (b', Done (RTrades trades))).

Definition call_CancelOrder (id : OrderId) : Call :=
  Locked (fun b => try b' := CancelOrderInternal id b in Ok (b', Done RVoid)).

(** [ModifyOrder] takes the lock in a block of its own for the lookup, and
    then calls [CancelOrder] and [AddOrder], which take it again. *)
Definition call_ModifyOrder (modify : OrderModify.t) : Call :=
  Locked (fun b =>
    match orders_ b !! OrderModify.orderId modify with
    | None => Ok (b, Done (RTrades []))
    | Some entry =>
        let typeToKeep := entry_type entry in
        Ok (b,
            Locked (fun b1 =>
              try b2 := CancelOrderInternal (OrderModify.orderId modify) b1 in
              Ok (b2,
                  call_AddOrder (OrderModify.ToOrderPointer modify typeToKeep))))
    end).

(** The snapshots do not change the book; an exception of [reserve] goes to
    the caller and the lock is released as the [scoped_lock] goes out of
    scope. *)
Definition call_GetBidLevels (alloc : Allocator) (depth : N) : Call :=
  Locked (fun b =>
    match GetBidLevels alloc depth b with
    | Ok levels => Ok (b, Done (RLevels levels))
    | Throw e => Ok (b, Done (RThrown e))
    end).

Definition call_GetAskLevels (alloc : Allocator) (depth : N) : Call :=
  Locked (fun b =>
    match GetAskLevels alloc depth b with
    | Ok levels => Ok (b, Done (RLevels levels))
    | Throw e => Ok (b, Done (RThrown e))
    end).

Definition call_Size : Call :=
  Locked (fun b => Ok (b, Done (RSize (Size b)))).

(** One sweep of the expiration thread, between two waits. *)
Definition call_PruneSweep : Call :=
  Locked (fun b => try b' := PruneSweep b in Ok (b', Done RVoid)).

Inductive Operation :=
| OpAddOrder (order : Order)
| OpCancelOrder (id : OrderId)
| OpModifyOrder (modify : OrderModify.t)
| OpGetBidLevels (alloc : Allocator) (depth : N)
| OpGetAskLevels (alloc : Allocator) (depth : N)
| OpSize
| OpPruneSweep.

Definition call_of (op : Operation) : Call :=
  match op with
  | OpAddOrder order => call_AddOrder order
  | OpCancelOrder id => call_CancelOrder id
  | OpModifyOrder modify => call_ModifyOrder modify
  | OpGetBidLevels alloc depth => call_GetBidLevels alloc depth
  | OpGetAskLevels alloc depth => call_GetAskLevels alloc depth
  | OpSize => call_Size
  | OpPruneSweep => call_PruneSweep
  end.

Definition valid_operation (op : Operation) : Prop :=
  match op with
  | OpAddOrder order => valid_order order
  | OpModifyOrder modify => 0 ≤ OrderModify.quantity modify < UINT32_MOD
  | _ => True
  end.

(** A call run with no other caller in between. *)
Fixpoint run_call (c : Call) (b : OrderBook) : outcome (OrderBook * Result) :=
  match c with
  | Done r => Ok (b, r)
  | Locked section =>
      match section b with
      | Ok (b', c') => run_call c' b'
      | Throw e => Throw e
      end
  end.

(** Calls run one after the other, each one as a whole. *)
Fixpoint run_calls (calls : list Call) (b : OrderBook)
    : outcome (OrderBook * list Result) :=
  match calls with
  | [] => Ok (b, [])
  | c :: calls' =>
      try (b1, r) := run_call c b in
      try (b', rs) := run_calls calls' b1 in
      Ok (b', r :: rs)
  end.

(** The number of critical sections of a call run with no other caller in
    between. *)
Fixpoint sections_run (c : Call) (b : OrderBook) : nat :=
  match c with
  | Done _ => 0
  | Locked section =>
      match section b with
      | Ok (b', c') => S (sections_run c' b')
      | Throw _ => 1
      end
  end.

(** Concurrent callers: the book and the calls in progress.  The lock
    serialises the critical sections; a schedule names, one after the
    other, the call whose next section gets the lock. *)
Definition run_section (i : nat) (st : OrderBook * list Call)
    : outcome (OrderBook * list Call) :=
  match st.2 !! i with
  | Some (Locked section) =>
      try (b', c) := section st.1 in Ok (b', <[i := c]> st.2)
  | _ => Ok st
  end.

Fixpoint interleave (schedule : list nat) (st : OrderBook * list Call)
    : outcome (OrderBook * list Call) :=
  match schedule with
  | [] => Ok st
  | i :: rest => try st' := run_section i st in interleave rest st'
  end.

Definition results (calls : list Call) : list (option Result) :=
  (fun c => match c with Done r => Some r | Locked _ => None end) <$> calls.

(** A call all of whose critical sections, run on a book reached by
    complete requests, end without failure in such a book. *)
Inductive sound_call : Call → Prop :=
| sound_Done r : sound_call (Done r)
| sound_Locked section :
    (∀ b, reachable b →
       ∃ b' c', section b = Ok (b', c') ∧ reachable b' ∧ sound_call c') →
    sound_call (Locked section).

(** ** Invariants of the book *)

(** The comparators of the two sides. *)
Inductive comparator : (Price → Price → bool) → Prop :=
| comparator_less : comparator less
| comparator_greater : comparator greater.

Definition sorted_keys {V} (cmp : Price → Price → bool) (m : list (Price * V)) : Prop :=
  StronglySorted (fun k k' => cmp k k' = true) (m.*1).

(** The orders of one side in priority order: level by level, and in each
    level from the front of the queue. *)
Definition flat (m : list (Price * OrderPointers)) : list Order := mjoin (m.*2).

Definition ids (l : list Order) : list OrderId := GetOrderId <$> l.

Definition book_orders (b : OrderBook) : list Order :=
  flat (bids_ b) ++ flat (asks_ b).

(** Every bucket of a side is non-empty and holds orders of that side at
    the price of the bucket. *)
Definition side_ok (s : Side) (m : list (Price * OrderPointers)) : Prop :=
  ∀ p q, (p, q) ∈ m →
    q ≠ [] ∧ ∀ o, o ∈ q → GetSide o = s ∧ GetPrice o = p.

Definition entry_of (o : Order) : OrderEntry :=
  mkEntry (GetOrderType o) (GetSide o) (GetPrice o).

(** The id-lookup holds exactly the orders of the queues. *)
Definition index_ok (b : OrderBook) : Prop :=
  ∀ id e, orders_ b !! id = Some e ↔
    ∃ o, o ∈ book_orders b ∧ GetOrderId o = id ∧ e = entry_of o.

Definition uncrossed (b : OrderBook) : Prop :=
  ∀ pb pa, pb ∈ (bids_ b).*1 → pa ∈ (asks_ b).*1 → pb < pa.

Record wf (b : OrderBook) : Prop := mk_wf {
  wf_bids_sorted : sorted_keys greater (bids_ b);
  wf_asks_sorted : sorted_keys less (asks_ b);
  wf_bids_ok : side_ok Buy (bids_ b);
  wf_asks_ok : side_ok Sell (asks_ b);
  wf_nodup : NoDup (ids (book_orders b));
  wf_index : index_ok b;
  wf_quantities : Forall valid_order (book_orders b)
}.

Definition no_FillAndKill (l : list Order) : Prop :=
  Forall (fun o => GetOrderType o ≠ FillAndKill) l.

Record Inv (b : OrderBook) : Prop := mk_Inv {
  inv_wf : wf b;
  inv_uncrossed : uncrossed b;
  inv_no_FillAndKill : no_FillAndKill (book_orders b)
}.

(** ** What matching leaves of a queue

    [residue k l l']: of the queue [l], matching has taken the first [k]
    orders out, and the order now at the front may be filled in part. *)
Inductive residue : nat → list Order → list Order → Prop :=
| residue_keep l : residue 0 l l
| residue_fill o q l :
    0 ≤ q ≤ GetRemainingQuantity o →
    residue 0 (o :: l) (set_remaining q o :: l)
| residue_pop k o l l' : residue k l l' → residue (S k) (o :: l) l'.

(** Two states of one order: everything but the remaining quantity agrees. *)
Definition same_order (o o' : Order) : Prop :=
  set_remaining 0 o = set_remaining 0 o'.

(** [orders'] is [orders] with the identifiers of [X] erased. *)
Definition without (X : list OrderId) (orders orders' : gmap Z OrderEntry) : Prop :=
  ∀ id, orders' !! id = if bool_decide (id ∈ X) then None else orders !! id.

(** A trade of the inner loop at ask price [ap]: both legs carry [ap] and
    the same quantity, and its two orders stand among the first [kb + 1]
    bids and the first [ka + 1] asks of the queues the loop started with. *)
Definition level_trade (ap : Price) (kb ka : nat) (bids asks : OrderPointers)
    (t : Trade) : Prop :=
  TradeInfo.price (bid t) = ap ∧ TradeInfo.price (ask t) = ap ∧
  TradeInfo.quantity (bid t) = TradeInfo.quantity (ask t) ∧
  ∃ i j, (i ≤ kb)%nat ∧ (j ≤ ka)%nat ∧
    ids bids !! i = Some (TradeInfo.orderId (bid t)) ∧
    ids asks !! j = Some (TradeInfo.orderId (ask t)).

(** [map_residue k m m']: what matching leaves of one side [m]: whole
    levels are gone from its front, the level now at the front may have
    lost orders from the front of its queue, [k] orders are gone in all. *)
Inductive map_residue :
  nat → list (Price * OrderPointers) → list (Price * OrderPointers) → Prop :=
| map_residue_keep m : map_residue 0 m m
| map_residue_head k p q q' m :
    residue k q q' → q' ≠ [] → map_residue k ((p, q) :: m) ((p, q') :: m)
| map_residue_pop k p q m m' :
    map_residue k m m' → map_residue (length q + k) ((p, q) :: m) m'.

(** A trade of [MatchOrders], told in terms of the orders of the book it
    started from ([bids] and [asks] in priority order): the bid [bo] and
    the ask [ao] stand among the first [kb + 1] bids and [ka + 1] asks,
    they cross, and both legs carry the price of the ask. *)
Definition loop_trade (kb ka : nat) (bids asks : list Order) (t : Trade) : Prop :=
  TradeInfo.quantity (bid t) = TradeInfo.quantity (ask t) ∧
  ∃ i j bo ao, (i ≤ kb)%nat ∧ (j ≤ ka)%nat ∧
    bids !! i = Some bo ∧ asks !! j = Some ao ∧
    TradeInfo.orderId (bid t) = GetOrderId bo ∧
    TradeInfo.orderId (ask t) = GetOrderId ao ∧
    TradeInfo.price (bid t) = GetPrice ao ∧
    TradeInfo.price (ask t) = GetPrice ao ∧
    GetPrice ao ≤ GetPrice bo.

(** The test that ends the outer loop. *)
Definition loop_exit (b : OrderBook) : Prop :=
  match bids_ b, asks_ b with
  | (bidPrice, _) :: _, (askPrice, _) :: _ => bidPrice < askPrice
  | _, _ => True
  end.

(** What one run of [MatchOrders] on the book [b] does: [b1] is the book
    after the loop, in which the first [kb] bids and [ka] asks of [b] are
    gone, and [b'] the book after the pass over the fronts. *)
Record matched (b : OrderBook) (trades : list Trade) (b' b1 : OrderBook)
    (kb ka : nat) : Prop := mk_matched {
  matched_wf : wf b';
  matched_uncrossed : uncrossed b';
  matched_wf_loop : wf b1;
  matched_bids : residue kb (flat (bids_ b)) (flat (bids_ b1));
  matched_asks : residue ka (flat (asks_ b)) (flat (asks_ b1));
  matched_orders :
    without (take kb (ids (flat (bids_ b))) ++ take ka (ids (flat (asks_ b))))
      (orders_ b) (orders_ b1);
  matched_bids_left : ∀ o, o ∈ flat (bids_ b') → o ∈ flat (bids_ b1);
  matched_asks_left : ∀ o, o ∈ flat (asks_ b') → o ∈ flat (asks_ b1);
  matched_orders_left :
    ∀ id e, orders_ b' !! id = Some e → orders_ b1 !! id = Some e;
  matched_trades :
    Forall (loop_trade kb ka (flat (bids_ b)) (flat (asks_ b))) trades;
  matched_no_FillAndKill :
    no_FillAndKill (tail (flat (bids_ b))) →
    no_FillAndKill (tail (flat (asks_ b))) →
    no_FillAndKill (book_orders b');
  matched_loop_only : no_FillAndKill (book_orders b) → b' = b1;
  matched_loop : match_loop (match_loop_bound b) b [] = Ok (trades, b1)
}.

(** ** The execution price as the specification words it

    Both legs of the trade carry the limit price of the order of the trade
    that was resting in the book [b] before the call. *)
Definition at_resting_price (b : OrderBook) (t : Trade) : Prop :=
  ∃ r, r ∈ book_orders b ∧
    (GetOrderId r = TradeInfo.orderId (bid t) ∨
     GetOrderId r = TradeInfo.orderId (ask t)) ∧
    TradeInfo.price (bid t) = GetPrice r ∧
    TradeInfo.price (ask t) = GetPrice r.

(** ** Price-time priority

    [x] has priority over [y] on a side ordered by [cmp]: its price is
    better, or the price is the same and [x] stands earlier in the queue of
    that price. *)
Definition price_time_order (cmp : Price → Price → bool)
    (m : list (Price * OrderPointers)) (x y : Order) : Prop :=
  cmp (GetPrice x) (GetPrice y) = true ∨
  (GetPrice x = GetPrice y ∧
   ∃ q i j, map_find (GetPrice x) m = Some q ∧
            q !! i = Some x ∧ q !! j = Some y ∧ (i < j)%nat).

Definition bid_ids (trades : list Trade) : list OrderId :=
  (fun t => TradeInfo.orderId (bid t)) <$> trades.

Definition ask_ids (trades : list Trade) : list OrderId :=
  (fun t => TradeInfo.orderId (ask t)) <$> trades.

(** The quantity that the trades of a list have filled of the order [id],
    as a bid and as an ask, and the quantity that remains of it in a list of
    orders. *)
Definition filled_bid (id : OrderId) (trades : list Trade) : Z :=
  foldr (fun t acc =>
           (if TradeInfo.orderId (bid t) =? id then TradeInfo.quantity (bid t)
            else 0) + acc) 0 trades.

Definition filled_ask (id : OrderId) (trades : list Trade) : Z :=
  foldr (fun t acc =>
           (if TradeInfo.orderId (ask t) =? id then TradeInfo.quantity (ask t)
            else 0) + acc) 0 trades.

Definition remaining_of (id : OrderId) (l : list Order) : Z :=
  foldr (fun o acc =>
           (if GetOrderId o =? id then GetRemainingQuantity o else 0) + acc)
        0 l.

(** ** Level snapshots as the specification words them

    The quantity of each level is read from the level aggregate [data_]. *)
Definition aggregate_quantity (data : list (Price * LevelData.t)) (p : Price) : Z :=
  match map_find p data with
  | Some ld => LevelData.quantity ld
  | None => 0
  end.

Definition levels_from_aggregate (depth : nat)
    (levels : list (Price * OrderPointers)) (data : list (Price * LevelData.t))
    : list (Price * Z) :=
  take depth ((fun '(p, _) => (p, aggregate_quantity data p)) <$> levels).

Definition total (l : list Z) : Z := foldr Z.add 0 l.

(** A level as the code reports it: its price and the remaining quantities
    of its queue added up. *)
Definition level_of (pq : Price * OrderPointers) : Price * Z :=
  (pq.1, total (GetRemainingQuantity <$> pq.2)).

(** ** Liquidity

    [within_limit s limit p]: an order of side [s] with the limit price
    [limit] accepts the price [p] of an order of the other side. *)
Definition within_limit (s : Side) (limit p : Price) : bool :=
  match s with
  | Buy => p <=? limit
  | Sell => limit <=? p
  end.

(** The quantity that the orders of [l] offer to such an order. *)
Definition liquidity (s : Side) (limit : Price) (l : list Order) : Z :=
  total (GetRemainingQuantity <$>
         filter (fun o => within_limit s limit (GetPrice o) = true) l).

(** The quantity that the level aggregate records at the prices of
    [levels] that such an order accepts. *)
Definition aggregate_within (s : Side) (limit : Price)
    (data : list (Price * LevelData.t)) (levels : list (Price * OrderPointers))
    : Z :=
  total (aggregate_quantity data <$>
         filter (fun p => within_limit s limit p = true) (levels.*1)).

(** The quantity that a list of trades has exchanged. *)
Definition traded_quantity (trades : list Trade) : Z :=
  total ((fun t => TradeInfo.quantity (bid t)) <$> trades).

(** The counters of the level aggregate are within their types. *)
Definition data_in_range (data : list (Price * LevelData.t)) : Prop :=
  Forall (fun pd => 0 ≤ LevelData.count pd.2 < UINT32_MOD ∧
                    0 ≤ LevelData.quantity pd.2 < UINT64_MOD) data.

(** ** Runs and their trades

    The trades that a sequence of requests produces, in order, with the
    book it leaves. *)
Fixpoint run_trades (rs : list Request) (b : OrderBook)
    : outcome (list Trade * OrderBook) :=
  match rs with
  | [] => Ok ([], b)
  | r :: rs' =>
      try (trades, b1) := step r b in
      try (trades', b') := run_trades rs' b1 in
      Ok (trades ++ trades', b')
  end.

(** The order of an [AddOrder] request comes from the constructor: nothing
    of it has been filled. *)
Definition new_order_request (r : Request) : Prop :=
  match r with
  | ReqAdd o => GetRemainingQuantity o = GetInitialQuantity o
  | _ => True
  end.

(** The orders that rest at the price [p], on either side. *)
Definition orders_at (p : Price) (b : OrderBook) : OrderPointers :=
  default [] (map_find p (bids_ b)) ++ default [] (map_find p (asks_ b)).

(** The aggregate of a level with the queue [q]: none when the queue is
    empty, the number of its orders and their remaining quantities added up
    otherwise. *)
Definition level_data (q : OrderPointers) : option LevelData.t :=
  match q with
  | [] => None
  | _ =>
      Some (LevelData.mk (Z.of_nat (length q))
              (total (GetRemainingQuantity <$> q)))
  end.

Definition data_exact (b : OrderBook) : Prop :=
  ∀ p, map_find p (data_ b) = level_data (orders_at p b).

(** ** The trades of an order, told from the book

    [sweep s id limit qty resting]: an order of side [s], identifier [id],
    limit price [limit] and quantity [qty] meets the orders [resting] of the
    other side in their priority order.  It trades with each of them at a
    price within its limit the smaller of what is left of it and of what
    that order offers, and stops when nothing is left of it.  Both legs of a
    trade carry the price of the sell order. *)
Fixpoint sweep (s : Side) (id : OrderId) (limit : Price) (qty : Quantity)
    (resting : list Order) : list Trade :=
  match resting with
  | [] => []
  | r :: rest =>
      if within_limit s limit (GetPrice r) then
        let q := Z.min qty (GetRemainingQuantity r) in
        let t :=
          match s with
          | Buy =>
              mkTrade (TradeInfo.mk id (GetPrice r) q)
                      (TradeInfo.mk (GetOrderId r) (GetPrice r) q)
          | Sell =>
              mkTrade (TradeInfo.mk (GetOrderId r) limit q)
                      (TradeInfo.mk id limit q)
          end in
        t :: (if qty - q =? 0 then [] else sweep s id limit (qty - q) rest)
      else []
  end.

(** * Properties *)

(** ** Scenario from [main] *)

Example main_scenario :
  let o1 := new_Order GoodTillCancel 1 Buy 100 10 in
  let o2 := new_Order GoodTillCancel 2 Sell 99 5 in
  (try (_, b1) := AddOrder o1 empty_book in
   try (trades, b2) := AddOrder o2 b1 in
   Ok (trades, Size b2, bids_ b2, asks_ b2, data_ b2))
  = Ok ([mkTrade (TradeInfo.mk 1 99 5) (TradeInfo.mk 2 99 5)], 1%nat,
        [(100, [mkOrder GoodTillCancel 1 Buy 100 10 5])], [],
        [(100, LevelData.mk 1 5)]).
Proof. vm_compute. reflexivity. Qed.
(** ** The error type *)

Lemma bind_Ok {A B} (x : outcome A) (f : A → outcome B) r :
  bind x f = Ok r → ∃ a, x = Ok a ∧ f a = Ok r.
Proof. destruct x; simpl; [eauto | discriminate]. Qed.

Ltac inv_bind H :=
  let a := fresh "a" in
  let Ha := fresh "Ha" in
  apply bind_Ok in H; destruct H as (a & Ha & H).

(** ** Ordered maps *)

Lemma StronglySorted_sublist {A} (R : relation A) (l k : list A) :
  l `sublist_of` k → StronglySorted R k → StronglySorted R l.
Proof.
  induction 1 as [|x l k Hs IH|x l k Hs IH]; intros Hk; [done|..];
    apply StronglySorted_cons in Hk as [Hx Hk].
  - apply StronglySorted_cons. split; [|auto].
    eapply Forall_forall. intros y Hy. eapply Forall_forall in Hx; [done|].
    by eapply sublist_subseteq.
  - auto.
Qed.

Lemma less_irrefl k : less k k = false.
Proof. unfold less. lia. Qed.
Lemma less_trans a b c : less a b = true → less b c = true → less a c = true.
Proof. unfold less. lia. Qed.
Lemma less_total a b : a ≠ b → less a b = false → less b a = true.
Proof. unfold less. lia. Qed.
Lemma greater_irrefl k : greater k k = false.
Proof. unfold greater. lia. Qed.
Lemma greater_trans a b c :
  greater a b = true → greater b c = true → greater a c = true.
Proof. unfold greater. lia. Qed.
Lemma greater_total a b : a ≠ b → greater a b = false → greater b a = true.
Proof. unfold greater. lia. Qed.

Lemma comparator_irrefl cmp k : comparator cmp → cmp k k = false.
Proof. destruct 1; [apply less_irrefl|apply greater_irrefl]. Qed.
Lemma comparator_trans cmp a b c :
  comparator cmp → cmp a b = true → cmp b c = true → cmp a c = true.
Proof. destruct 1; [apply less_trans|apply greater_trans]. Qed.
Lemma comparator_total cmp a b :
  comparator cmp → a ≠ b → cmp a b = false → cmp b a = true.
Proof. destruct 1; [apply less_total|apply greater_total]. Qed.

Section StdMapFacts.
Context {V : Type}.
Variable cmp : Price → Price → bool.
Hypothesis Hcmp : comparator cmp.

Implicit Types m : list (Price * V).

Lemma sorted_keys_cons k v m :
  sorted_keys cmp ((k, v) :: m) ↔
  Forall (fun k' => cmp k k' = true) (m.*1) ∧ sorted_keys cmp m.
Proof. unfold sorted_keys. simpl. apply StronglySorted_cons. Qed.

Lemma sorted_keys_head_notin k v m :
  sorted_keys cmp ((k, v) :: m) → k ∉ m.*1.
Proof.
  intros [Hk _]%sorted_keys_cons Hin.
  eapply Forall_forall in Hk; [|done]. by rewrite comparator_irrefl in Hk.
Qed.

Lemma sorted_keys_NoDup m : sorted_keys cmp m → NoDup (m.*1).
Proof.
  induction m as [|[k v] m IH]; intros Hs; [constructor|].
  simpl. apply NoDup_cons. split.
  - by eapply sorted_keys_head_notin.
  - apply IH. by apply sorted_keys_cons in Hs as [_ ?].
Qed.

Lemma map_find_Some m k v : map_find k m = Some v → (k, v) ∈ m.
Proof.
  induction m as [|[k' v'] m IH]; simpl; [done|].
  destruct (Z.eqb_spec k k') as [->|Hne].
  - intros [= ->]. left.
  - intros H. right. auto.
Qed.

Lemma map_find_None m k : map_find k m = None ↔ k ∉ m.*1.
Proof.
  induction m as [|[k' v'] m IH]; simpl.
  - split; [intros _ H; inversion H|done].
  - destruct (Z.eqb_spec k k') as [->|Hne].
    + split; [done|]. intros H. exfalso. apply H. left.
    + rewrite IH, not_elem_of_cons. naive_solver.
Qed.

Lemma map_find_is_Some m k : is_Some (map_find k m) ↔ k ∈ m.*1.
Proof.
  rewrite <-not_eq_None_Some, map_find_None.
  destruct (decide (k ∈ m.*1)); naive_solver.
Qed.

Lemma map_find_sorted m k v :
  sorted_keys cmp m → (k, v) ∈ m → map_find k m = Some v.
Proof.
  induction m as [|[k' v'] m IH]; intros Hs Hin; [inversion Hin|].
  simpl. apply elem_of_cons in Hin as [[= <- <-]|Hin].
  - by rewrite Z.eqb_refl.
  - destruct (Z.eqb_spec k k') as [->|Hne].
    + exfalso. eapply sorted_keys_head_notin; [done|].
      apply list_elem_of_fmap. by exists (k', v).
    + apply IH; [|done]. by apply sorted_keys_cons in Hs as [_ ?].
Qed.

Lemma map_find_put m k v k' :
  map_find k' (map_put cmp k v m) =
  if decide (k' = k) then Some v else map_find k' m.
Proof.
  induction m as [|[k0 v0] m IH]; simpl.
  - destruct (Z.eqb_spec k' k); by case_decide.
  - destruct (Z.eqb_spec k k0) as [->|Hne]; simpl.
    + destruct (Z.eqb_spec k' k0); by case_decide.
    + destruct (cmp k k0); simpl.
      * destruct (Z.eqb_spec k' k); case_decide; try done.
      * rewrite IH. destruct (Z.eqb_spec k' k0); case_decide; congruence.
Qed.

Lemma map_find_erase m k k' :
  map_find k' (map_erase k m) =
  if decide (k' = k) then None else map_find k' m.
Proof.
  induction m as [|[k0 v0] m IH]; simpl.
  - by case_decide.
  - destruct (Z.eqb_spec k k0) as [->|Hne]; simpl.
    + rewrite IH. destruct (Z.eqb_spec k' k0); case_decide; congruence.
    + rewrite IH. destruct (Z.eqb_spec k' k0); case_decide; congruence.
Qed.

Lemma map_erase_sublist m k : map_erase k m `sublist_of` m.
Proof.
  induction m as [|[k0 v0] m IH]; simpl; [constructor|].
  destruct (k =? k0); by constructor.
Qed.

Lemma elem_of_map_erase m k k' v :
  (k', v) ∈ map_erase k m ↔ k' ≠ k ∧ (k', v) ∈ m.
Proof.
  induction m as [|[k0 v0] m IH]; simpl.
  - split; [intros H; inversion H|intros [_ H]; inversion H].
  - destruct (Z.eqb_spec k k0) as [->|Hne].
    + rewrite IH, elem_of_cons. naive_solver.
    + rewrite !elem_of_cons, IH. naive_solver.
Qed.

Lemma map_erase_fresh m k : k ∉ m.*1 → map_erase k m = m.
Proof.
  induction m as [|[k0 v0] m IH]; simpl; [done|].
  rewrite not_elem_of_cons. intros [Hne Hnin].
  destruct (Z.eqb_spec k k0); [done|]. by rewrite IH.
Qed.

Lemma map_erase_head m k v :
  sorted_keys cmp ((k, v) :: m) → map_erase k ((k, v) :: m) = m.
Proof.
  intros Hs. simpl. rewrite Z.eqb_refl. apply map_erase_fresh.
  by eapply sorted_keys_head_notin.
Qed.

Lemma map_erase_sorted m k : sorted_keys cmp m → sorted_keys cmp (map_erase k m).
Proof.
  unfold sorted_keys. apply StronglySorted_sublist.
  apply fmap_sublist, map_erase_sublist.
Qed.

Lemma map_put_keys m k v k' :
  k' ∈ (map_put cmp k v m).*1 ↔ k' = k ∨ k' ∈ m.*1.
Proof.
  rewrite <-!map_find_is_Some, map_find_put.
  case_decide; subst; [|naive_solver].
  split; [by left|]. by intros _; eexists.
Qed.

Lemma map_put_sorted m k v :
  sorted_keys cmp m → sorted_keys cmp (map_put cmp k v m).
Proof.
  induction m as [|[k0 v0] m IH]; intros Hs; simpl.
  - apply sorted_keys_cons. split; [constructor|constructor].
  - destruct (Z.eqb_spec k k0) as [->|Hne]; [done|].
    destruct (cmp k k0) eqn:Hc.
    + apply sorted_keys_cons. split; [|done].
      apply sorted_keys_cons in Hs as [Hk0 _]. simpl. constructor; [done|].
      eapply Forall_impl; [done|]. simpl. eauto using comparator_trans.
    + apply sorted_keys_cons in Hs as [Hk0 Hs].
      apply sorted_keys_cons. split; [|auto].
      apply Forall_forall. intros k' Hk'.
      apply map_put_keys in Hk' as [->|Hk'].
      * by apply comparator_total.
      * by eapply Forall_forall in Hk0.
Qed.

Lemma elem_of_map_put m k v k' v' :
  sorted_keys cmp m →
  (k', v') ∈ map_put cmp k v m ↔ (k' = k ∧ v' = v) ∨ (k' ≠ k ∧ (k', v') ∈ m).
Proof.
  intros Hs. split.
  - intros Hin. apply map_find_sorted in Hin; [|by apply map_put_sorted].
    rewrite map_find_put in Hin. case_decide.
    + left. naive_solver.
    + right. split; [done|]. by apply map_find_Some.
  - intros [[-> ->]|[Hne Hin]]; apply map_find_Some; rewrite map_find_put.
    + by case_decide.
    + case_decide; [done|]. by apply map_find_sorted.
Qed.

End StdMapFacts.


(** ** Residues of queues *)

Lemma same_order_fields o o' :
  same_order o o' ↔
  GetOrderType o = GetOrderType o' ∧ GetOrderId o = GetOrderId o' ∧
  GetSide o = GetSide o' ∧ GetPrice o = GetPrice o' ∧
  GetInitialQuantity o = GetInitialQuantity o'.
Proof.
  unfold same_order, set_remaining. destruct o, o'; simpl.
  split; [intros [=]; by subst|intros (-> & -> & -> & -> & ->); done].
Qed.

Lemma same_order_refl o : same_order o o.
Proof. done. Qed.

Lemma same_order_set_remaining q o : same_order o (set_remaining q o).
Proof. done. Qed.

Lemma same_order_trans o1 o2 o3 :
  same_order o1 o2 → same_order o2 o3 → same_order o1 o3.
Proof. unfold same_order. congruence. Qed.

Lemma same_order_id o o' : same_order o o' → GetOrderId o = GetOrderId o'.
Proof. rewrite same_order_fields. naive_solver. Qed.

Lemma set_remaining_twice q q' o :
  set_remaining q' (set_remaining q o) = set_remaining q' o.
Proof. done. Qed.

Lemma residue_ids k l l' : residue k l l' → ids l' = drop k (ids l).
Proof. induction 1; simpl; auto. Qed.

Lemma residue_length k l l' :
  residue k l l' → (k + length l' = length l)%nat.
Proof. induction 1; simpl; lia. Qed.

Lemma residue_nil k l : residue k l [] → k = length l.
Proof. intros H%residue_length. simpl in H. lia. Qed.

Lemma residue_app k l l' r : residue k l l' → residue k (l ++ r) (l' ++ r).
Proof. induction 1; simpl; by constructor. Qed.

Lemma residue_pop_all q k l l' :
  residue k l l' → residue (length q + k) (q ++ l) l'.
Proof. intros H. induction q; simpl; [done|by constructor]. Qed.

Lemma residue_trans k1 k2 l1 l2 l3 :
  residue k1 l1 l2 → residue k2 l2 l3 → residue (k1 + k2) l1 l3.
Proof.
  intros H1. revert k2 l3. induction H1 as [l|o q l Hq|k o l l' H1 IH];
    intros k2 l3 H2; simpl.
  - done.
  - inversion H2; subst; simpl in *.
    + by constructor.
    + rewrite set_remaining_twice. constructor. lia.
    + by constructor.
  - constructor. auto.
Qed.

Lemma residue_lookup k l l' i o' :
  residue k l l' → l' !! i = Some o' →
  ∃ o, l !! (k + i)%nat = Some o ∧ same_order o o'.
Proof.
  induction 1 as [l|o q l Hq|k o l l' H1 IH]; simpl; intros Hi.
  - eauto using same_order_refl.
  - destruct i; simpl in *; [|eauto using same_order_refl].
    injection Hi as <-. eauto using same_order_set_remaining.
  - auto.
Qed.

Lemma residue_elem_of k l l' o' :
  residue k l l' → o' ∈ l' → ∃ o, o ∈ l ∧ same_order o o'.
Proof.
  intros H [i Hi]%list_elem_of_lookup.
  destruct (residue_lookup _ _ _ _ _ H Hi) as (o & Ho & Hs).
  exists o. split; [|done]. by eapply list_elem_of_lookup_2.
Qed.

Lemma residue_valid k l l' :
  residue k l l' → Forall valid_order l → Forall valid_order l'.
Proof.
  induction 1 as [l|o q l Hq|k o l l' H1 IH]; intros Hl; [done|..].
  - apply Forall_cons in Hl as [Ho Hl]. constructor; [|done].
    unfold valid_order in *. simpl. lia.
  - apply Forall_cons in Hl as [_ Hl]. auto.
Qed.

Lemma residue_tail_Forall (P : Order → Prop) k l l' :
  (∀ o o', same_order o o' → P o → P o') →
  residue k l l' → Forall P (tail l) → Forall P (tail l').
Proof.
  intros HP. induction 1 as [l|o q l Hq|k o l l' H1 IH]; simpl; [done..|].
  intros Hl. destruct l as [|x l]; [inversion H1; by subst|].
  apply Forall_cons in Hl as [Hx Hl].
  inversion H1; subst; simpl; auto.
Qed.

(** ** The id-lookup after erasures *)

Lemma without_nil orders : without [] orders orders.
Proof. intros id. by rewrite bool_decide_eq_false_2 by set_solver. Qed.

Lemma without_equiv X Y orders orders' :
  (∀ id, id ∈ X ↔ id ∈ Y) → without X orders orders' → without Y orders orders'.
Proof.
  intros HXY H id. rewrite (H id).
  by rewrite (bool_decide_ext _ _ (HXY id)).
Qed.

Lemma without_delete x orders : without [x] orders (delete x orders).
Proof.
  intros id. rewrite lookup_delete. case_decide; subst.
  - by rewrite bool_decide_eq_true_2 by set_solver.
  - by rewrite bool_decide_eq_false_2 by set_solver.
Qed.

Lemma without_trans X Y orders1 orders2 orders3 :
  without X orders1 orders2 → without Y orders2 orders3 →
  without (X ++ Y) orders1 orders3.
Proof.
  intros H1 H2 id. rewrite (H2 id), (H1 id).
  repeat case_bool_decide; set_solver.
Qed.

Lemma without_lookup X orders orders' id e :
  without X orders orders' →
  orders' !! id = Some e ↔ (id ∉ X) ∧ orders !! id = Some e.
Proof. intros H. rewrite (H id). case_bool_decide; naive_solver. Qed.

(** ** The inner loop of [MatchOrders] *)

Lemma Fill_min_l a b :
  Fill (Z.min (GetRemainingQuantity a) (GetRemainingQuantity b)) a =
  Ok (set_remaining
        (GetRemainingQuantity a
         - Z.min (GetRemainingQuantity a) (GetRemainingQuantity b)) a).
Proof. unfold Fill. by rewrite (proj2 (Z.ltb_ge _ _)) by lia. Qed.

Lemma Fill_min_r a b :
  Fill (Z.min (GetRemainingQuantity a) (GetRemainingQuantity b)) b =
  Ok (set_remaining
        (GetRemainingQuantity b
         - Z.min (GetRemainingQuantity a) (GetRemainingQuantity b)) b).
Proof. unfold Fill. by rewrite (proj2 (Z.ltb_ge _ _)) by lia. Qed.

Lemma level_trade_mono ap kb ka kb' ka' bids asks bids' asks' t :
  (∀ i x, (i ≤ kb')%nat → ids bids' !! i = Some x →
     ∃ i', (i' ≤ kb)%nat ∧ ids bids !! i' = Some x) →
  (∀ j x, (j ≤ ka')%nat → ids asks' !! j = Some x →
     ∃ j', (j' ≤ ka)%nat ∧ ids asks !! j' = Some x) →
  level_trade ap kb' ka' bids' asks' t → level_trade ap kb ka bids asks t.
Proof.
  intros Hb Ha (? & ? & ? & i & j & Hi & Hj & Hbi & Haj).
  destruct (Hb _ _ Hi Hbi) as (i' & ? & ?).
  destruct (Ha _ _ Hj Haj) as (j' & ? & ?).
  repeat split; try done. by exists i', j'.
Qed.

(** One side of one turn of the inner loop: the front order [o] is left with
    [q]; it is popped when [q] is zero. *)
Lemma residue_after_fill o q rest k l' :
  0 ≤ q ≤ GetRemainingQuantity o →
  residue k (if IsFilled (set_remaining q o) then rest
             else set_remaining q o :: rest) l' →
  residue ((if IsFilled (set_remaining q o) then 1 else 0) + k) (o :: rest) l'.
Proof.
  intros Hq H. destruct (IsFilled _).
  - by constructor.
  - eapply (residue_trans 0); [|done]. by constructor.
Qed.

Lemma index_after_fill o q rest (k i : nat) x :
  (i ≤ k)%nat →
  ids (if IsFilled (set_remaining q o) then rest
       else set_remaining q o :: rest) !! i = Some x →
  ∃ i', (i' ≤ (if IsFilled (set_remaining q o) then 1 else 0) + k)%nat ∧
        ids (o :: rest) !! i' = Some x.
Proof.
  intros Hi H. destruct (IsFilled _).
  - exists (S i). split; [lia|done].
  - exists i. split; [lia|done].
Qed.

Lemma take_ids_after_fill o q rest (k : nat) id :
  id ∈ take ((if IsFilled (set_remaining q o) then 1 else 0) + k)
         (ids (o :: rest)) ↔
  (IsFilled (set_remaining q o) = true ∧ id = GetOrderId o) ∨
  id ∈ take k (ids (if IsFilled (set_remaining q o) then rest
                    else set_remaining q o :: rest)).
Proof.
  destruct (IsFilled _); simpl.
  - rewrite elem_of_cons. naive_solver.
  - naive_solver.
Qed.

Lemma match_level_spec fuel bp ap s :
  Forall valid_order (lv_bids s) → Forall valid_order (lv_asks s) →
  (length (lv_bids s) + length (lv_asks s) ≤ fuel)%nat →
  ∃ s' kb ka new,
    match_level fuel bp ap s = Ok s' ∧
    (lv_bids s' = [] ∨ lv_asks s' = []) ∧
    residue kb (lv_bids s) (lv_bids s') ∧
    residue ka (lv_asks s) (lv_asks s') ∧
    without (take kb (ids (lv_bids s)) ++ take ka (ids (lv_asks s)))
      (lv_orders s) (lv_orders s') ∧
    lv_trades s' = lv_trades s ++ new ∧
    Forall (level_trade ap kb ka (lv_bids s) (lv_asks s)) new.
Proof.
  revert s. induction fuel as [|fuel IH]; intros [bids asks orders data trades];
    simpl; intros Hvb Hva Hlen.
  - exists (mkLevel bids asks orders data trades), 0%nat, 0%nat, [].
    assert (bids = [] ∧ asks = []) as [-> ->].
    { destruct bids, asks; simpl in *; try lia; done. }
    simpl. rewrite app_nil_r.
    repeat split; auto using residue_keep, without_nil.
  - destruct bids as [|bid bids'].
    { exists (mkLevel [] asks orders data trades), 0%nat, 0%nat, [].
      simpl. rewrite app_nil_r.
      repeat split; auto using residue_keep, without_nil. }
    destruct asks as [|ask asks'].
    { exists (mkLevel (bid :: bids') [] orders data trades), 0%nat, 0%nat, [].
      simpl. rewrite app_nil_r.
      repeat split; auto using residue_keep, without_nil. }
    apply Forall_cons in Hvb as [Hbid Hvb]. apply Forall_cons in Hva as [Hask Hva].
    rewrite Fill_min_l, Fill_min_r. simpl.
    set (qty := Z.min (GetRemainingQuantity bid) (GetRemainingQuantity ask)).
    set (bid1 := set_remaining (GetRemainingQuantity bid - qty) bid).
    set (ask1 := set_remaining (GetRemainingQuantity ask - qty) ask).
    assert (0 ≤ GetRemainingQuantity bid - qty ≤ GetRemainingQuantity bid) as Hqb.
    { unfold valid_order in *. lia. }
    assert (0 ≤ GetRemainingQuantity ask - qty ≤ GetRemainingQuantity ask) as Hqa.
    { unfold valid_order in *. lia. }
    assert (IsFilled bid1 = true ∨ IsFilled ask1 = true) as Hfilled.
    { unfold IsFilled, bid1, ask1. simpl. lia. }
    match goal with
    | |- context [match_level fuel bp ap ?s1] => set (s1' := s1)
    end.
    destruct (IH s1') as (s' & kb & ka & new & Hrun & Hexit & Hrb & Hra & Hw & Htr & Hnew).
    { subst s1'. simpl. destruct (IsFilled bid1); [done|].
      constructor; [|done]. unfold valid_order in *. simpl. lia. }
    { subst s1'. simpl. destruct (IsFilled ask1); [done|].
      constructor; [|done]. unfold valid_order in *. simpl. lia. }
    { subst s1'. simpl in *.
      destruct Hfilled as [-> | ->]; destruct (IsFilled _); simpl; lia. }
    subst s1'. simpl in *.
    exists s', ((if IsFilled bid1 then 1 else 0) + kb)%nat,
      ((if IsFilled ask1 then 1 else 0) + ka)%nat,
      (mkTrade (TradeInfo.mk (GetOrderId bid) ap qty)
               (TradeInfo.mk (GetOrderId ask) ap qty) :: new).
    split; [done|]. split; [done|].
    split; [by apply residue_after_fill|].
    split; [by apply residue_after_fill|].
    split; [|split].
    + intros id. rewrite (Hw id).
      pose proof (take_ids_after_fill bid (GetRemainingQuantity bid - qty) bids' kb id) as Hb.
      pose proof (take_ids_after_fill ask (GetRemainingQuantity ask - qty) asks' ka id) as Ha.
      fold bid1 in Hb. fold ask1 in Ha.
      destruct (IsFilled bid1), (IsFilled ask1);
        repeat case_bool_decide; rewrite ?lookup_delete; repeat case_decide;
        try done; exfalso;
        repeat match goal with
               | H : _ ∈ _ ++ _ |- _ => apply elem_of_app in H
               | H : ¬ (_ ∈ _ ++ _) |- _ => rewrite elem_of_app in H
               end; naive_solver.
    + rewrite Htr, <-app_assoc. done.
    + constructor.
      * repeat split; simpl; try done. exists 0%nat, 0%nat.
        repeat split; simpl; try lia; done.
      * eapply Forall_impl; [done|]. intros t. apply level_trade_mono.
        -- intros i x. apply index_after_fill.
        -- intros j x. apply index_after_fill.
Qed.

(** ** Residues of sides *)

Lemma flat_cons p q m : flat ((p, q) :: m) = q ++ flat m.
Proof. done. Qed.

Lemma elem_of_flat m o : o ∈ flat m ↔ ∃ p q, (p, q) ∈ m ∧ o ∈ q.
Proof.
  unfold flat. rewrite list_elem_of_join. split.
  - intros (q & Ho & [[p q'] [-> Hq]]%list_elem_of_fmap). eauto.
  - intros (p & q & Hq & Ho). exists q. split; [done|].
    apply list_elem_of_fmap. by exists (p, q).
Qed.

Lemma map_residue_flat k m m' :
  map_residue k m m' → residue k (flat m) (flat m').
Proof.
  induction 1 as [m|k p q q' m Hq Hne|k p q m m' H IH];
    rewrite ?flat_cons.
  - constructor.
  - by apply residue_app.
  - by apply residue_pop_all.
Qed.

Lemma map_residue_trans k1 k2 m1 m2 m3 :
  map_residue k1 m1 m2 → map_residue k2 m2 m3 → map_residue (k1 + k2) m1 m3.
Proof.
  intros H1. revert k2 m3.
  induction H1 as [m|k p q q' m Hq Hne|k p q m m' H IH]; intros k2 m3 H2.
  - done.
  - inversion H2; subst.
    + rewrite Nat.add_0_r. by constructor.
    + constructor; [|done]. by eapply residue_trans.
    + apply residue_length in Hq.
      replace (k + (length q' + k0))%nat with (length q + k0)%nat by lia.
      by constructor.
  - rewrite <-Nat.add_assoc. constructor. auto.
Qed.

Lemma map_residue_sublist k m m' : map_residue k m m' → m'.*1 `sublist_of` m.*1.
Proof.
  induction 1 as [m|k p q q' m Hq Hne|k p q m m' H IH]; simpl.
  - done.
  - done.
  - by constructor.
Qed.

Lemma map_residue_sorted cmp k m m' :
  map_residue k m m' → sorted_keys cmp m → sorted_keys cmp m'.
Proof.
  intros H. unfold sorted_keys. apply StronglySorted_sublist.
  by eapply map_residue_sublist.
Qed.

Lemma side_ok_cons s p q m :
  side_ok s ((p, q) :: m) ↔
  (q ≠ [] ∧ ∀ o, o ∈ q → GetSide o = s ∧ GetPrice o = p) ∧ side_ok s m.
Proof.
  unfold side_ok. split.
  - intros H. split; [apply H; left|]. intros p' q' Hin. apply H. by right.
  - intros [Hq Hm] p' q' [[= -> ->]|Hin]%elem_of_cons; auto.
Qed.

Lemma map_residue_side_ok s k m m' :
  map_residue k m m' → side_ok s m → side_ok s m'.
Proof.
  induction 1 as [m|k p q q' m Hq Hne|k p q m m' H IH]; [done|..];
    rewrite !side_ok_cons.
  - intros [[_ Ho] Hm]. split; [|done]. split; [done|].
    intros o' Ho'. destruct (residue_elem_of _ _ _ _ Hq Ho') as (o & Hin & Hs).
    apply same_order_fields in Hs as (_ & _ & <- & <- & _). auto.
  - intros [_ Hm]. auto.
Qed.

Lemma side_ok_flat s m o :
  side_ok s m → o ∈ flat m → GetSide o = s ∧ GetPrice o ∈ m.*1.
Proof.
  intros Hm (p & q & Hq & Ho)%elem_of_flat.
  destruct (Hm _ _ Hq) as [_ H]. destruct (H _ Ho) as [<- <-].
  split; [done|]. apply list_elem_of_fmap. by exists (GetPrice o, q).
Qed.

(** ** The outer loop of [MatchOrders] *)

Lemma loop_trade_of_level bp ap kb ka bids asks brest arest t :
  ap ≤ bp →
  (∀ o, o ∈ bids → GetPrice o = bp) →
  (∀ o, o ∈ asks → GetPrice o = ap) →
  level_trade ap kb ka bids asks t →
  loop_trade kb ka (bids ++ brest) (asks ++ arest) t.
Proof.
  intros Hcross Hb Ha (Hpb & Hpa & Hq & i & j & Hi & Hj & Hbi & Haj).
  split; [done|].
  unfold ids in *. rewrite list_lookup_fmap in Hbi, Haj.
  destruct (bids !! i) as [bo|] eqn:Hbo; [|done].
  destruct (asks !! j) as [ao|] eqn:Hao; [|done].
  simpl in *. injection Hbi as Hbi. injection Haj as Haj.
  exists i, j, bo, ao.
  rewrite (Hb bo), (Ha ao) by (by eapply list_elem_of_lookup_2).
  repeat split; try done; by apply lookup_app_l_Some.
Qed.

Lemma loop_trade_later kb0 ka0 kb ka bids asks bids' asks' t :
  residue kb0 bids bids' → residue ka0 asks asks' →
  loop_trade kb ka bids' asks' t →
  loop_trade (kb0 + kb) (ka0 + ka) bids asks t.
Proof.
  intros Hb Ha (Hq & i & j & bo' & ao' & Hi & Hj & Hbo & Hao & ? & ? & ? & ? & ?).
  destruct (residue_lookup _ _ _ _ _ Hb Hbo) as (bo & ? & Hsb).
  destruct (residue_lookup _ _ _ _ _ Ha Hao) as (ao & ? & Hsa).
  apply same_order_fields in Hsb as (_ & ? & _ & ? & _).
  apply same_order_fields in Hsa as (_ & ? & _ & ? & _).
  split; [done|]. exists (kb0 + i)%nat, (ka0 + j)%nat, bo, ao.
  repeat split; try done; try lia; congruence.
Qed.

Lemma loop_trade_mono kb ka kb' ka' bids asks t :
  (kb ≤ kb')%nat → (ka ≤ ka')%nat →
  loop_trade kb ka bids asks t → loop_trade kb' ka' bids asks t.
Proof.
  intros ? ? (Hq & i & j & bo & ao & ? & ? & ?).
  split; [done|]. exists i, j, bo, ao. repeat split; try lia; naive_solver.
Qed.

(** The head bucket of a side after the inner loop has worked on its queue:
    kept with what is left of the queue, or erased when nothing is left. *)
Lemma head_after_level cmp p q q' k rest :
  comparator cmp → sorted_keys cmp ((p, q) :: rest) → residue k q q' →
  map_residue k ((p, q) :: rest)
    (if bool_decide (q' = []) then map_erase p ((p, q') :: rest)
     else (p, q') :: rest).
Proof.
  intros Hcmp Hs Hq. case_bool_decide as Hnil.
  - subst q'. rewrite (map_erase_head cmp) by done.
    apply residue_nil in Hq as ->.
    rewrite <-(Nat.add_0_r (length q)). do 2 constructor.
  - by constructor.
Qed.

Lemma match_loop_spec fuel b trades :
  sorted_keys greater (bids_ b) → sorted_keys less (asks_ b) →
  side_ok Buy (bids_ b) → side_ok Sell (asks_ b) →
  Forall valid_order (book_orders b) →
  (length (bids_ b) + length (asks_ b) ≤ fuel)%nat →
  ∃ b' kb ka new,
    match_loop fuel b trades = Ok (trades ++ new, b') ∧
    map_residue kb (bids_ b) (bids_ b') ∧
    map_residue ka (asks_ b) (asks_ b') ∧
    without (take kb (ids (flat (bids_ b))) ++ take ka (ids (flat (asks_ b))))
      (orders_ b) (orders_ b') ∧
    loop_exit b' ∧
    Forall (loop_trade kb ka (flat (bids_ b)) (flat (asks_ b))) new.
Proof.
  revert b trades. induction fuel as [|fuel IH];
    intros [bids asks orders data] trades; unfold book_orders, loop_exit; simpl;
    intros Hsb Hsa Hob Hoa Hv Hlen.
  - assert (bids = [] ∧ asks = []) as [-> ->].
    { destruct bids, asks; simpl in *; try lia; done. }
    exists (mkBook [] [] orders data), 0%nat, 0%nat, []. simpl.
    rewrite app_nil_r. repeat split; auto using map_residue_keep, without_nil.
  - destruct bids as [|[bp bids] brest].
    { exists (mkBook [] asks orders data), 0%nat, 0%nat, []. simpl.
      rewrite app_nil_r. repeat split; auto using map_residue_keep, without_nil. }
    destruct asks as [|[ap asks] arest].
    { exists (mkBook ((bp, bids) :: brest) [] orders data), 0%nat, 0%nat, [].
      simpl. rewrite app_nil_r.
      repeat split; auto using map_residue_keep, without_nil. }
    destruct (Z.ltb_spec bp ap) as [Hlt|Hcross].
    { exists (mkBook ((bp, bids) :: brest) ((ap, asks) :: arest) orders data),
        0%nat, 0%nat, []. simpl. rewrite app_nil_r.
      repeat split; auto using map_residue_keep, without_nil. }
    rewrite !flat_cons in *.
    apply Forall_app in Hv as [Hvb Hva].
    apply Forall_app in Hvb as [Hvb Hvbr]. apply Forall_app in Hva as [Hva Hvar].
    destruct (match_level_spec (match_level_bound bids asks) bp ap
                (mkLevel bids asks orders data trades))
      as (s' & kb0 & ka0 & new0 & -> & Hexit & Hrb & Hra & Hw0 & Htr0 & Hnew0);
      [done|done|done|].
    cbn [bind lv_bids lv_asks lv_orders lv_data lv_trades] in *.
    pose proof (head_after_level greater bp bids (lv_bids s') kb0 brest
                  comparator_greater Hsb Hrb) as Hmb.
    pose proof (head_after_level less ap asks (lv_asks s') ka0 arest
                  comparator_less Hsa Hra) as Hma.
    set (bids2 := if bool_decide (lv_bids s' = [])
                  then map_erase bp ((bp, lv_bids s') :: brest)
                  else (bp, lv_bids s') :: brest) in *.
    set (asks2 := if bool_decide (lv_asks s' = [])
                  then map_erase ap ((ap, lv_asks s') :: arest)
                  else (ap, lv_asks s') :: arest) in *.
    match goal with
    | |- context [match_loop fuel (mkBook _ _ _ ?d) _] => set (data2 := d)
    end.
    pose proof (map_residue_flat _ _ _ Hmb) as Hfb.
    pose proof (map_residue_flat _ _ _ Hma) as Hfa.
    rewrite flat_cons in Hfb, Hfa.
    destruct (IH (mkBook bids2 asks2 (lv_orders s') data2) (lv_trades s'))
      as (b' & kb1 & ka1 & new1 & Hrun & Hmb1 & Hma1 & Hw1 & Hex1 & Hnew1); simpl.
    { by eapply map_residue_sorted. }
    { by eapply map_residue_sorted. }
    { by eapply map_residue_side_ok. }
    { by eapply map_residue_side_ok. }
    { unfold book_orders. simpl. apply Forall_app. split.
      - eapply residue_valid; [done|]. by apply Forall_app.
      - eapply residue_valid; [done|]. by apply Forall_app. }
    { assert (lv_bids s' = [] → length bids2 = length brest) as Hlb.
      { subst bids2. intros Hnil. rewrite bool_decide_eq_true_2 by done.
        rewrite (map_erase_head greater); [done|constructor|exact Hsb]. }
      assert (lv_asks s' = [] → length asks2 = length arest) as Hla.
      { subst asks2. intros Hnil. rewrite bool_decide_eq_true_2 by done.
        rewrite (map_erase_head less); [done|constructor|exact Hsa]. }
      apply map_residue_sublist, sublist_length in Hmb, Hma.
      rewrite !length_fmap in Hmb, Hma. simpl in *.
      destruct Hexit as [H|H]; [apply Hlb in H|apply Hla in H]; lia. }
    apply side_ok_cons in Hob as [[_ Hpb] _].
    apply side_ok_cons in Hoa as [[_ Hpa] _].
    exists b', (kb0 + kb1)%nat, (ka0 + ka1)%nat, (new0 ++ new1).
    split; [etrans; [exact Hrun|by rewrite Htr0, app_assoc]|].
    split; [by eapply map_residue_trans|].
    split; [by eapply map_residue_trans|].
    split; [|split; [done|]].
    + cbn [bids_ asks_ orders_] in *.
      apply residue_ids in Hfb, Hfa. apply residue_length in Hrb, Hra.
      assert (take (kb0 + kb1) (ids (bids ++ flat brest)) =
              take kb0 (ids bids) ++ take kb1 (ids (flat bids2))) as ->.
      { rewrite <-take_take_drop, <-Hfb. f_equal. unfold ids.
        rewrite fmap_app, take_app_le; [done|]. rewrite length_fmap. lia. }
      assert (take (ka0 + ka1) (ids (asks ++ flat arest)) =
              take ka0 (ids asks) ++ take ka1 (ids (flat asks2))) as ->.
      { rewrite <-take_take_drop, <-Hfa. f_equal. unfold ids.
        rewrite fmap_app, take_app_le; [done|]. rewrite length_fmap. lia. }
      eapply without_equiv; [|by eapply without_trans]. set_solver.
    + apply Forall_app. split.
      * eapply Forall_impl; [done|]. intros t Ht.
        eapply (loop_trade_mono kb0 ka0); [lia..|].
        eapply (loop_trade_of_level bp ap); [lia| | |done]; naive_solver.
      * eapply Forall_impl; [done|]. intros t Ht.
        by eapply loop_trade_later.
Qed.

(** ** The book after the matching loop *)

Lemma entry_of_same_order o o' : same_order o o' → entry_of o = entry_of o'.
Proof.
  intros (Ht & _ & Hs & Hp & _)%same_order_fields.
  unfold entry_of. by rewrite Ht, Hs, Hp.
Qed.

Lemma ids_app l k : ids (l ++ k) = ids l ++ ids k.
Proof. apply fmap_app. Qed.

Lemma elem_of_ids id l : id ∈ ids l ↔ ∃ o, o ∈ l ∧ GetOrderId o = id.
Proof. unfold ids. rewrite list_elem_of_fmap. naive_solver. Qed.

Lemma NoDup_ids_inj l o o' :
  NoDup (ids l) → o ∈ l → o' ∈ l → GetOrderId o = GetOrderId o' → o = o'.
Proof.
  intros Hnd [i Hi]%list_elem_of_lookup [j Hj]%list_elem_of_lookup Heq.
  assert (i = j) as ->; [|congruence].
  eapply NoDup_lookup; [done| |]; unfold ids; rewrite list_lookup_fmap.
  - by rewrite Hi.
  - rewrite Hj. simpl. by rewrite Heq.
Qed.

(** The orders of a residue are the orders whose identifiers were not taken
    out, in their new state. *)
Lemma residue_survivors k l l' id :
  residue k l l' → NoDup (ids l) →
  (∃ o', o' ∈ l' ∧ GetOrderId o' = id) ↔
  (id ∉ take k (ids l)) ∧ ∃ o, o ∈ l ∧ GetOrderId o = id.
Proof.
  intros Hr Hnd. pose proof (residue_ids _ _ _ Hr) as Hids.
  rewrite <-!elem_of_ids, Hids.
  rewrite <-(take_drop k (ids l)) in Hnd at 1.
  apply NoDup_app in Hnd as (_ & Hdisj & _).
  rewrite <-(take_drop k (ids l)) at 3. rewrite elem_of_app.
  split; [|naive_solver]. intros Hin. split; [|by right].
  intros Hin'. by eapply Hdisj.
Qed.

Lemma residue_survivor_state k l l' o o' :
  residue k l l' → NoDup (ids l) → o ∈ l → o' ∈ l' →
  GetOrderId o = GetOrderId o' → same_order o o'.
Proof.
  intros Hr Hnd Ho Ho' Hid.
  destruct (residue_elem_of _ _ _ _ Hr Ho') as (o0 & Ho0 & Hs).
  assert (o = o0) as ->; [|done].
  eapply NoDup_ids_inj; [done..|].
  rewrite Hid. symmetry. by apply same_order_id.
Qed.

Lemma residue_NoDup kb ka bids asks bids' asks' :
  residue kb bids bids' → residue ka asks asks' →
  NoDup (ids (bids ++ asks)) → NoDup (ids (bids' ++ asks')).
Proof.
  intros Hb%residue_ids Ha%residue_ids. rewrite !ids_app, Hb, Ha.
  intros Hnd.
  eapply sublist_NoDup; [done|apply sublist_app; apply sublist_drop].
Qed.

Lemma residue_index kb ka bids asks bids' asks' orders orders' :
  residue kb bids bids' → residue ka asks asks' →
  NoDup (ids (bids ++ asks)) →
  without (take kb (ids bids) ++ take ka (ids asks)) orders orders' →
  (∀ id e, orders !! id = Some e ↔
     ∃ o, o ∈ bids ++ asks ∧ GetOrderId o = id ∧ e = entry_of o) →
  (∀ id e, orders' !! id = Some e ↔
     ∃ o, o ∈ bids' ++ asks' ∧ GetOrderId o = id ∧ e = entry_of o).
Proof.
  intros Hb Ha Hnd Hw Hidx id e. rewrite ids_app in Hnd.
  pose proof Hnd as (Hndb & Hdisj & Hnda)%NoDup_app.
  rewrite (without_lookup _ _ _ _ _ Hw), Hidx, not_elem_of_app.
  pose proof (residue_survivors _ _ _ id Hb Hndb) as Hsb.
  pose proof (residue_survivors _ _ _ id Ha Hnda) as Hsa.
  split.
  - intros ([Hnb Hna] & o & [Ho|Ho]%elem_of_app & Hid & ->).
    + destruct (proj2 Hsb) as (o' & Ho' & Hid'); [by eauto|].
      exists o'. rewrite elem_of_app. split; [by left|]. split; [done|].
      apply entry_of_same_order.
      eapply residue_survivor_state; [exact Hb|done..|congruence].
    + destruct (proj2 Hsa) as (o' & Ho' & Hid'); [by eauto|].
      exists o'. rewrite elem_of_app. split; [by right|]. split; [done|].
      apply entry_of_same_order.
      eapply residue_survivor_state; [exact Ha|done..|congruence].
  - intros (o' & [Ho'|Ho']%elem_of_app & Hid & ->).
    + destruct (proj1 Hsb) as (Hnb & o & Ho & Hido); [by eauto|].
      split; [split; [done|]|].
      * intros Hin%elem_of_take. destruct Hin as (i & Hi & _).
        eapply Hdisj; [|by eapply list_elem_of_lookup_2].
        apply elem_of_ids. eauto.
      * exists o. rewrite elem_of_app. split; [by left|]. split; [done|].
        symmetry. apply entry_of_same_order.
        eapply residue_survivor_state; [exact Hb|done..|congruence].
    + destruct (proj1 Hsa) as (Hna & o & Ho & Hido); [by eauto|].
      split; [split; [|done]|].
      * intros Hin%elem_of_take. destruct Hin as (i & Hi & _).
        eapply Hdisj; [by eapply list_elem_of_lookup_2|].
        apply elem_of_ids. eauto.
      * exists o. rewrite elem_of_app. split; [by right|]. split; [done|].
        symmetry. apply entry_of_same_order.
        eapply residue_survivor_state; [exact Ha|done..|congruence].
Qed.

Lemma sorted_keys_head_best cmp {V} p (v : V) m k :
  sorted_keys cmp ((p, v) :: m) → k ∈ ((p, v) :: m).*1 → k = p ∨ cmp p k = true.
Proof.
  intros [Hp _]%sorted_keys_cons. simpl.
  intros [->|Hk]%elem_of_cons; [by left|right].
  by eapply Forall_forall in Hp.
Qed.

Lemma loop_exit_uncrossed b :
  sorted_keys greater (bids_ b) → sorted_keys less (asks_ b) →
  loop_exit b → uncrossed b.
Proof.
  unfold loop_exit, uncrossed. intros Hsb Hsa Hexit pb pa Hpb Hpa.
  destruct (bids_ b) as [|[bp bids] brest]; [by apply elem_of_nil in Hpb|].
  destruct (asks_ b) as [|[ap asks] arest]; [by apply elem_of_nil in Hpa|].
  destruct (sorted_keys_head_best _ _ _ _ _ Hsb Hpb) as [->|Hb];
    destruct (sorted_keys_head_best _ _ _ _ _ Hsa Hpa) as [->|Ha];
    unfold greater, less in *; lia.
Qed.

Lemma match_loop_wf fuel b trades :
  wf b → (length (bids_ b) + length (asks_ b) ≤ fuel)%nat →
  ∃ b' kb ka new,
    match_loop fuel b trades = Ok (trades ++ new, b') ∧
    wf b' ∧ uncrossed b' ∧
    map_residue kb (bids_ b) (bids_ b') ∧
    map_residue ka (asks_ b) (asks_ b') ∧
    without (take kb (ids (flat (bids_ b))) ++ take ka (ids (flat (asks_ b))))
      (orders_ b) (orders_ b') ∧
    Forall (loop_trade kb ka (flat (bids_ b)) (flat (asks_ b))) new.
Proof.
  intros [Hsb Hsa Hob Hoa Hnd Hidx Hv] Hlen.
  destruct (match_loop_spec fuel b trades)
    as (b' & kb & ka & new & Hrun & Hmb & Hma & Hw & Hexit & Hnew); [done..|].
  exists b', kb, ka, new.
  pose proof (map_residue_flat _ _ _ Hmb) as Hfb.
  pose proof (map_residue_flat _ _ _ Hma) as Hfa.
  assert (sorted_keys greater (bids_ b')) by by eapply map_residue_sorted.
  assert (sorted_keys less (asks_ b')) by by eapply map_residue_sorted.
  split; [done|].
  split; [|split; [by apply loop_exit_uncrossed|done]].
  constructor; try done.
  - by eapply map_residue_side_ok.
  - by eapply map_residue_side_ok.
  - by eapply residue_NoDup.
  - unfold index_ok, book_orders in *.
    eapply residue_index; [exact Hfb|exact Hfa|done..].
  - apply Forall_app in Hv as [Hvb Hva]. apply Forall_app.
    split; by eapply residue_valid.
Qed.

(** ** Buckets: assignment and erasure *)

Section FlatFacts.
Variable cmp : Price → Price → bool.
Hypothesis Hcmp : comparator cmp.

Implicit Types m : list (Price * OrderPointers).

Lemma map_erase_absent m k : map_find k m = None → map_erase k m = m.
Proof. intros H%map_find_None. by apply map_erase_fresh. Qed.

Lemma flat_erase_find m k q :
  sorted_keys cmp m → map_find k m = Some q →
  flat m ≡ₚ q ++ flat (map_erase k m).
Proof.
  induction m as [|[k0 v0] m IH]; intros Hs; [done|].
  pose proof Hs as [_ Hs']%sorted_keys_cons.
  cbn [map_find map_erase]. destruct (Z.eqb_spec k k0) as [->|Hne].
  - intros [= ->]. rewrite map_erase_fresh; [done|].
    by eapply sorted_keys_head_notin.
  - intros Hf. rewrite !flat_cons, (IH Hs' Hf). apply Permutation_app_swap_app.
Qed.

Lemma flat_put m k q' :
  sorted_keys cmp m → flat (map_put cmp k q' m) ≡ₚ q' ++ flat (map_erase k m).
Proof.
  induction m as [|[k0 v0] m IH]; intros Hs; [done|].
  pose proof Hs as [Hk0 Hs']%sorted_keys_cons.
  cbn [map_put map_erase]. destruct (Z.eqb_spec k k0) as [->|Hne].
  - rewrite map_erase_fresh; [done|]. by eapply sorted_keys_head_notin.
  - destruct (cmp k k0) eqn:Hc.
    + rewrite map_erase_fresh; [done|]. intros Hin.
      eapply Forall_forall in Hk0; [|done].
      pose proof (comparator_trans _ _ _ _ Hcmp Hc Hk0) as Hkk.
      by rewrite comparator_irrefl in Hkk.
    + rewrite !flat_cons, (IH Hs'). apply Permutation_app_swap_app.
Qed.

Lemma side_ok_erase s m k : side_ok s m → side_ok s (map_erase k m).
Proof. intros H p q [_ Hin]%elem_of_map_erase. by apply H. Qed.

Lemma side_ok_put s m k q :
  sorted_keys cmp m → side_ok s m → q ≠ [] →
  (∀ o, o ∈ q → GetSide o = s ∧ GetPrice o = k) →
  side_ok s (map_put cmp k q m).
Proof.
  intros Hs Hm Hq Ho p' q' Hin.
  apply (elem_of_map_put cmp) in Hin as [[-> ->]|[_ Hin]]; auto.
Qed.

Lemma list_erase_spec q o :
  o ∈ q → NoDup (ids q) →
  ∃ q', list_erase (GetOrderId o) q = Some (o, q') ∧ q ≡ₚ o :: q'.
Proof.
  induction q as [|x q IH]; intros Hin Hnd; [by apply elem_of_nil in Hin|].
  simpl in Hnd. apply NoDup_cons in Hnd as [Hx Hnd]. simpl.
  destruct (Z.eqb_spec (GetOrderId x) (GetOrderId o)) as [Heq|Hne].
  - apply elem_of_cons in Hin as [->|Hin]; [by eauto|].
    exfalso. apply Hx. rewrite Heq. apply elem_of_ids. eauto.
  - apply elem_of_cons in Hin as [->|Hin]; [done|].
    destruct (IH Hin Hnd) as (q' & -> & Hp). exists (x :: q').
    split; [done|]. rewrite Hp. apply Permutation_swap.
Qed.

Lemma NoDup_ids_bucket m p q :
  (p, q) ∈ m → NoDup (ids (flat m)) → NoDup (ids q).
Proof.
  intros Hin Hnd. apply list_elem_of_split in Hin as (m1 & m2 & ->).
  unfold flat in Hnd. rewrite fmap_app, join_app in Hnd. simpl in Hnd.
  rewrite !ids_app in Hnd.
  by apply NoDup_app in Hnd as (_ & _ & (? & _ & _)%NoDup_app).
Qed.

Lemma erase_from_side_spec s m o :
  sorted_keys cmp m → side_ok s m → NoDup (ids (flat m)) → o ∈ flat m →
  ∃ m', erase_from_side cmp (GetOrderId o) (GetPrice o) m = Ok (o, m') ∧
        sorted_keys cmp m' ∧ side_ok s m' ∧ flat m ≡ₚ o :: flat m' ∧
        m'.*1 ⊆ m.*1.
Proof.
  intros Hs Hm Hnd (p & q & Hq & Ho)%elem_of_flat.
  destruct (Hm _ _ Hq) as [_ Hoq]. destruct (Hoq _ Ho) as [Hside <-].
  pose proof (map_find_sorted cmp Hcmp _ _ _ Hs Hq) as Hfind.
  destruct (list_erase_spec q o Ho) as (q' & Herase & Hperm);
    [by eapply NoDup_ids_bucket|].
  unfold erase_from_side. rewrite Hfind, Herase.
  eexists. split; [done|].
  pose proof (flat_erase_find _ _ _ Hs Hfind) as Hflat.
  case_bool_decide as Hnil.
  - subst q'. split; [by apply map_erase_sorted|].
    split; [by apply side_ok_erase|]. split.
    + by rewrite Hflat, Hperm.
    + apply sublist_subseteq, fmap_sublist, map_erase_sublist.
  - split; [by apply map_put_sorted|]. split; [|split].
    + apply side_ok_put; [done..|]. intros o' Ho'. apply Hoq.
      rewrite Hperm. by right.
    + by rewrite flat_put, Hflat, Hperm.
    + intros k [->|Hk]%map_put_keys; [|done].
      apply list_elem_of_fmap. by exists (GetPrice o, q).
Qed.

End FlatFacts.

(** ** [CancelOrderInternal] *)

Lemma perm_remove_ids l l' o :
  l ≡ₚ o :: l' → NoDup (ids l) →
  ∀ o', o' ∈ l' ↔ o' ∈ l ∧ GetOrderId o' ≠ GetOrderId o.
Proof.
  intros Hp Hnd o'. unfold ids in Hnd. rewrite Hp in Hnd. simpl in Hnd.
  apply NoDup_cons in Hnd as [Hnotin Hnd]. rewrite Hp, elem_of_cons.
  split.
  - intros Hin. split; [by right|]. intros Heq. apply Hnotin.
    rewrite <-Heq. apply elem_of_ids. eauto.
  - intros [[->|Hin] Hne]; done.
Qed.

(** A book from which the order [o] has been taken out keeps the
    structural invariant. *)
Lemma wf_remove b b' o :
  wf b →
  sorted_keys greater (bids_ b') → sorted_keys less (asks_ b') →
  side_ok Buy (bids_ b') → side_ok Sell (asks_ b') →
  book_orders b ≡ₚ o :: book_orders b' →
  orders_ b' = delete (GetOrderId o) (orders_ b) →
  wf b'.
Proof.
  intros [Hsb Hsa Hob Hoa Hnd Hidx Hv] Hsb' Hsa' Hob' Hoa' Hperm Horders.
  pose proof (perm_remove_ids _ _ _ Hperm Hnd) as Hmem.
  constructor; try done.
  - unfold ids in *. rewrite Hperm in Hnd. simpl in Hnd.
    by apply NoDup_cons in Hnd as [_ ?].
  - intros id e. rewrite Horders, lookup_delete. case_decide as Hid.
    + subst id. split; [done|]. intros (o' & Ho' & Hid' & _).
      apply Hmem in Ho' as [_ ?]. done.
    + rewrite (Hidx id e). split.
      * intros (o' & Ho' & Hid' & ->). exists o'. split; [|done].
        apply Hmem. split; [done|congruence].
      * intros (o' & Ho' & Hid' & ->). exists o'. split; [|done].
        by apply Hmem in Ho' as [? _].
  - rewrite Hperm in Hv. by apply Forall_cons in Hv as [_ ?].
Qed.

Lemma index_ok_absent b id o :
  index_ok b → orders_ b !! id = None → o ∈ book_orders b → GetOrderId o ≠ id.
Proof.
  intros Hidx Hnone Ho Hid.
  assert (orders_ b !! id = Some (entry_of o)) as Hsome; [|congruence].
  apply Hidx. eauto.
Qed.

Lemma CancelOrderInternal_spec id b :
  wf b →
  ∃ b', CancelOrderInternal id b = Ok b' ∧ wf b' ∧
    orders_ b' = delete id (orders_ b) ∧
    (bids_ b').*1 ⊆ (bids_ b).*1 ∧ (asks_ b').*1 ⊆ (asks_ b).*1 ∧
    (∀ o, o ∈ flat (bids_ b') ↔ o ∈ flat (bids_ b) ∧ GetOrderId o ≠ id) ∧
    (∀ o, o ∈ flat (asks_ b') ↔ o ∈ flat (asks_ b) ∧ GetOrderId o ≠ id) ∧
    (id ∉ ids (flat (bids_ b)) → bids_ b' = bids_ b) ∧
    (id ∉ ids (flat (asks_ b)) → asks_ b' = asks_ b).
Proof.
  intros Hwf. pose proof Hwf as [Hsb Hsa Hob Hoa Hnd Hidx Hv].
  unfold CancelOrderInternal. destruct (orders_ b !! id) as [e|] eqn:He.
  - apply Hidx in He as (o & Ho & <- & ->).
    pose proof Hnd as Hnd'. unfold book_orders in Hnd'. rewrite ids_app in Hnd'.
    apply NoDup_app in Hnd' as (Hndb & Hdisj & Hnda).
    assert (∀ x y, x ∈ flat (bids_ b) → y ∈ flat (asks_ b) →
                   GetOrderId y ≠ GetOrderId x) as Hcross.
    { intros x y Hx Hy Heq. eapply (Hdisj (GetOrderId x)); apply elem_of_ids; eauto. }
    unfold book_orders in Ho. apply elem_of_app in Ho as [Ho|Ho].
    + destruct (side_ok_flat _ _ _ Hob Ho) as [Hside _].
      simpl. rewrite Hside.
      destruct (erase_from_side_spec greater comparator_greater Buy (bids_ b) o)
        as (m' & -> & Hs' & Hok' & Hperm & Hkeys); [done..|].
      simpl. eexists. split; [done|]. simpl. split_and!; try done.
      * eapply (wf_remove b _ o); try done; simpl.
        unfold book_orders. simpl. by rewrite Hperm.
      * by apply (perm_remove_ids _ _ _ Hperm).
      * intros o'. split; [|naive_solver]. intros Ho'. split; [done|].
        by eapply Hcross.
      * intros Hnotin. exfalso. apply Hnotin, elem_of_ids. eauto.
    + destruct (side_ok_flat _ _ _ Hoa Ho) as [Hside _].
      simpl. rewrite Hside.
      destruct (erase_from_side_spec less comparator_less Sell (asks_ b) o)
        as (m' & -> & Hs' & Hok' & Hperm & Hkeys); [done..|].
      simpl. eexists. split; [done|]. simpl. split_and!; try done.
      * eapply (wf_remove b _ o); try done; simpl.
        unfold book_orders. simpl. rewrite Hperm.
        by rewrite Permutation_middle.
      * intros o'. split; [|naive_solver]. intros Ho'. split; [done|].
        intros Heq. by eapply (Hcross o' o).
      * by apply (perm_remove_ids _ _ _ Hperm).
      * intros Hnotin. exfalso. apply Hnotin, elem_of_ids. eauto.
  - exists b. rewrite delete_id by done. split_and!; try done.
    + intros o. split; [|naive_solver]. intros Ho. split; [done|].
      eapply index_ok_absent; [done..|].
      unfold book_orders. rewrite elem_of_app. by left.
    + intros o. split; [|naive_solver]. intros Ho. split; [done|].
      eapply index_ok_absent; [done..|].
      unfold book_orders. rewrite elem_of_app. by right.
Qed.

(** ** Insertion *)

Section PushBack.
Variable cmp : Price → Price → bool.
Hypothesis Hcmp : comparator cmp.

Implicit Types m : list (Price * OrderPointers).

Lemma push_back_sorted o m :
  sorted_keys cmp m → sorted_keys cmp (push_back cmp o m).
Proof. by apply map_put_sorted. Qed.

Lemma push_back_keys o m k :
  k ∈ (push_back cmp o m).*1 ↔ k = GetPrice o ∨ k ∈ m.*1.
Proof. apply map_put_keys. Qed.

(** The new order stands behind the orders already waiting at its price. *)
Lemma push_back_find o m :
  map_find (GetPrice o) (push_back cmp o m) =
  Some (default [] (map_find (GetPrice o) m) ++ [o]).
Proof. unfold push_back. rewrite map_find_put. by case_decide. Qed.

Lemma push_back_find_ne o m k :
  k ≠ GetPrice o → map_find k (push_back cmp o m) = map_find k m.
Proof. intros. unfold push_back. rewrite map_find_put. by case_decide. Qed.

Lemma push_back_flat o m :
  sorted_keys cmp m → flat (push_back cmp o m) ≡ₚ flat m ++ [o].
Proof.
  intros Hs. unfold push_back. rewrite (flat_put cmp) by done.
  destruct (map_find (GetPrice o) m) as [q|] eqn:Hf; simpl.
  - rewrite (flat_erase_find cmp Hcmp _ _ _ Hs Hf).
    rewrite <-!app_assoc. f_equiv. apply Permutation_app_comm.
  - rewrite map_erase_absent by done. apply Permutation_cons_append.
Qed.

Lemma push_back_side_ok s o m :
  sorted_keys cmp m → side_ok s m → GetSide o = s →
  side_ok s (push_back cmp o m).
Proof.
  intros Hs Hm Ho. apply (side_ok_put cmp); [done..| |].
  - by destruct (default _ _).
  - intros o' [Ho'|Ho']%elem_of_app;
      [|by apply list_elem_of_singleton in Ho' as ->].
    destruct (map_find (GetPrice o) m) as [q|] eqn:Hf; simpl in Ho';
      [|by apply elem_of_nil in Ho'].
    apply map_find_Some in Hf. by apply (Hm _ _ Hf).
Qed.

(** An order priced better than every level of its side opens a level at
    the front. *)
Lemma push_back_front o m :
  (∀ k, k ∈ m.*1 → cmp (GetPrice o) k = true) →
  push_back cmp o m = (GetPrice o, [o]) :: m.
Proof.
  intros Hbest. unfold push_back.
  assert (map_find (GetPrice o) m = None) as ->.
  { apply map_find_None. intros Hin. apply Hbest in Hin.
    by rewrite comparator_irrefl in Hin. }
  destruct m as [|[k0 v0] m]; [done|]. simpl.
  rewrite (Hbest k0) by left.
  destruct (Z.eqb_spec (GetPrice o) k0) as [Heq|]; [|done].
  specialize (Hbest k0). rewrite Heq, comparator_irrefl in Hbest by done.
  discriminate Hbest. left.
Qed.

End PushBack.

Lemma orders_insert_absent id e (orders : gmap Z OrderEntry) :
  orders !! id = None → orders_insert id e orders = <[id := e]> orders.
Proof. unfold orders_insert. by intros ->. Qed.

Lemma book_orders_insert o b :
  wf b → book_orders (insert_order o b) ≡ₚ o :: book_orders b.
Proof.
  intros Hwf. unfold insert_order, book_orders.
  destruct (GetSide o); simpl.
  - rewrite (push_back_flat greater) by (constructor || apply Hwf).
    rewrite <-app_assoc. simpl. by rewrite <-Permutation_middle.
  - rewrite (push_back_flat less) by (constructor || apply Hwf).
    by rewrite app_assoc, <-Permutation_cons_append.
Qed.

Lemma orders_insert_order o b :
  orders_ b !! GetOrderId o = None →
  orders_ (insert_order o b) = <[GetOrderId o := entry_of o]> (orders_ b).
Proof.
  intros Hnone. unfold insert_order.
  destruct (GetSide o) eqn:Hs; simpl; rewrite orders_insert_absent by done;
    unfold entry_of; by rewrite Hs.
Qed.

Lemma insert_order_wf o b :
  wf b → valid_order o → orders_ b !! GetOrderId o = None →
  wf (insert_order o b).
Proof.
  intros Hwf Hvo Hnone. pose proof Hwf as [Hsb Hsa Hob Hoa Hnd Hidx Hv].
  pose proof (book_orders_insert o b Hwf) as Hperm.
  pose proof (orders_insert_order o b Hnone) as Horders.
  constructor.
  - unfold insert_order. destruct (GetSide o); simpl; [|done].
    by apply push_back_sorted; [constructor|].
  - unfold insert_order. destruct (GetSide o); simpl; [done|].
    by apply push_back_sorted; [constructor|].
  - unfold insert_order. destruct (GetSide o) eqn:Hs; simpl; [|done].
    by apply (push_back_side_ok greater); [constructor|..].
  - unfold insert_order. destruct (GetSide o) eqn:Hs; simpl; [done|].
    by apply (push_back_side_ok less); [constructor|..].
  - unfold ids. rewrite Hperm. simpl. apply NoDup_cons. split; [|done].
    intros (o' & Ho' & Hid)%elem_of_ids.
    by eapply index_ok_absent.
  - intros id e. rewrite Horders, lookup_insert. case_decide as Hid.
    + subst id. split.
      * intros [= <-]. exists o. rewrite Hperm. split; [left|done].
      * intros (o' & Ho' & Hid' & ->). rewrite Hperm in Ho'.
        apply elem_of_cons in Ho' as [->|Ho']; [done|].
        exfalso. by eapply index_ok_absent.
    + rewrite (Hidx id e). split.
      * intros (o' & Ho' & Hid' & ->). exists o'. rewrite Hperm.
        split; [by right|done].
      * intros (o' & Ho' & Hid' & ->). exists o'. rewrite Hperm in Ho'.
        apply elem_of_cons in Ho' as [->|Ho']; [done|]. done.
  - rewrite Hperm. by constructor.
Qed.

(** ** The pass over the fronts after the loop *)

Lemma front_FillAndKill_Some m id :
  front_FillAndKill m = Some id →
  ∃ p o q rest, m = (p, o :: q) :: rest ∧ GetOrderType o = FillAndKill ∧
                id = GetOrderId o.
Proof.
  destruct m as [|[p [|o q]] rest]; simpl; try done.
  case_bool_decide; [|done]. intros [= <-]. by exists p, o, q, rest.
Qed.

Lemma front_FillAndKill_None s m :
  side_ok s m → front_FillAndKill m = None →
  no_FillAndKill (tail (flat m)) → no_FillAndKill (flat m).
Proof.
  destruct m as [|[p [|o q]] rest]; simpl; intros Hok Hfront Htail.
  - constructor.
  - apply side_ok_cons in Hok as [[? _] _]. done.
  - case_bool_decide; [done|]. rewrite flat_cons. simpl. by constructor.
Qed.

Lemma no_FillAndKill_residue_tail k l l' :
  residue k l l' → no_FillAndKill (tail l) → no_FillAndKill (tail l').
Proof.
  apply residue_tail_Forall.
  intros o o' (Ht & _)%same_order_fields. by rewrite Ht.
Qed.

Lemma no_FillAndKill_residue k l l' :
  residue k l l' → no_FillAndKill l → no_FillAndKill l'.
Proof.
  intros Hr Hl. apply Forall_forall. intros o' Ho'.
  destruct (residue_elem_of _ _ _ _ Hr Ho') as (o & Ho & (Ht & _)%same_order_fields).
  rewrite <-Ht. by eapply Forall_forall in Hl.
Qed.

Lemma uncrossed_subseteq b b' :
  (bids_ b').*1 ⊆ (bids_ b).*1 → (asks_ b').*1 ⊆ (asks_ b).*1 →
  uncrossed b → uncrossed b'.
Proof. intros Hb Ha H pb pa Hpb Hpa. apply H; auto. Qed.

Lemma wf_ids_disjoint b x y :
  wf b → x ∈ flat (bids_ b) → y ∈ flat (asks_ b) → GetOrderId x ≠ GetOrderId y.
Proof.
  intros Hwf Hx Hy Heq. pose proof (wf_nodup _ Hwf) as Hnd.
  unfold book_orders in Hnd. rewrite ids_app in Hnd.
  apply NoDup_app in Hnd as (_ & Hdisj & _).
  apply (Hdisj (GetOrderId x)); [apply elem_of_ids; eauto|].
  rewrite Heq. apply elem_of_ids; eauto.
Qed.

Lemma cancel_front_bids b :
  wf b →
  ∃ b',
    match front_FillAndKill (bids_ b) with
    | Some id => CancelOrderInternal id b
    | None => Ok b
    end = Ok b' ∧
    wf b' ∧ asks_ b' = asks_ b ∧
    (∀ o, o ∈ flat (bids_ b') → o ∈ flat (bids_ b)) ∧
    (bids_ b').*1 ⊆ (bids_ b).*1 ∧
    (∀ id e, orders_ b' !! id = Some e → orders_ b !! id = Some e) ∧
    (no_FillAndKill (tail (flat (bids_ b))) → no_FillAndKill (flat (bids_ b'))) ∧
    (no_FillAndKill (flat (bids_ b)) → b' = b).
Proof.
  intros Hwf. destruct (front_FillAndKill (bids_ b)) as [id|] eqn:Hfront.
  - apply front_FillAndKill_Some in Hfront as (p & o & q & rest & Hbids & Ht & ->).
    assert (flat (bids_ b) = o :: q ++ flat rest) as Hflat by by rewrite Hbids.
    destruct (CancelOrderInternal_spec (GetOrderId o) b Hwf)
      as (b' & -> & Hwf' & Horders & Hkb & Hka & Hmb & Hma & _ & Hasks).
    exists b'. split_and!; try done.
    + apply Hasks. intros (y & Hy & Hid)%elem_of_ids.
      eapply (wf_ids_disjoint b o y); [done| |done|done].
      rewrite Hflat. left.
    + intros o' Ho'. by apply Hmb in Ho' as [? _].
    + intros id e. rewrite Horders, lookup_delete. by case_decide.
    + rewrite Hflat. simpl. intros Htail. apply Forall_forall. intros o' Ho'.
      apply Hmb in Ho' as [Ho' Hne]. rewrite Hflat in Ho'.
      apply elem_of_cons in Ho' as [->|Ho']; [done|].
      by eapply Forall_forall in Htail.
    + rewrite Hflat. intros [Ho _]%Forall_cons. done.
  - exists b. split_and!; try done.
    eapply front_FillAndKill_None; [apply Hwf|done].
Qed.

Lemma cancel_front_asks b :
  wf b →
  ∃ b',
    match front_FillAndKill (asks_ b) with
    | Some id => CancelOrderInternal id b
    | None => Ok b
    end = Ok b' ∧
    wf b' ∧ bids_ b' = bids_ b ∧
    (∀ o, o ∈ flat (asks_ b') → o ∈ flat (asks_ b)) ∧
    (asks_ b').*1 ⊆ (asks_ b).*1 ∧
    (∀ id e, orders_ b' !! id = Some e → orders_ b !! id = Some e) ∧
    (no_FillAndKill (tail (flat (asks_ b))) → no_FillAndKill (flat (asks_ b'))) ∧
    (no_FillAndKill (flat (asks_ b)) → b' = b).
Proof.
  intros Hwf. destruct (front_FillAndKill (asks_ b)) as [id|] eqn:Hfront.
  - apply front_FillAndKill_Some in Hfront as (p & o & q & rest & Hasks & Ht & ->).
    assert (flat (asks_ b) = o :: q ++ flat rest) as Hflat by by rewrite Hasks.
    destruct (CancelOrderInternal_spec (GetOrderId o) b Hwf)
      as (b' & -> & Hwf' & Horders & Hkb & Hka & Hmb & Hma & Hbids & _).
    exists b'. split_and!; try done.
    + apply Hbids. intros (y & Hy & Hid)%elem_of_ids.
      eapply (wf_ids_disjoint b y o); [done|done| |done].
      rewrite Hflat. left.
    + intros o' Ho'. by apply Hma in Ho' as [? _].
    + intros id e. rewrite Horders, lookup_delete. by case_decide.
    + rewrite Hflat. simpl. intros Htail. apply Forall_forall. intros o' Ho'.
      apply Hma in Ho' as [Ho' Hne]. rewrite Hflat in Ho'.
      apply elem_of_cons in Ho' as [->|Ho']; [done|].
      by eapply Forall_forall in Htail.
    + rewrite Hflat. intros [Ho _]%Forall_cons. done.
  - exists b. split_and!; try done.
    eapply front_FillAndKill_None; [apply Hwf|done].
Qed.

(** ** [MatchOrders] *)

Lemma MatchOrders_spec b :
  wf b →
  ∃ trades b' b1 kb ka,
    MatchOrders b = Ok (trades, b') ∧
    wf b' ∧ uncrossed b' ∧ wf b1 ∧
    residue kb (flat (bids_ b)) (flat (bids_ b1)) ∧
    residue ka (flat (asks_ b)) (flat (asks_ b1)) ∧
    without (take kb (ids (flat (bids_ b))) ++ take ka (ids (flat (asks_ b))))
      (orders_ b) (orders_ b1) ∧
    (∀ o, o ∈ flat (bids_ b') → o ∈ flat (bids_ b1)) ∧
    (∀ o, o ∈ flat (asks_ b') → o ∈ flat (asks_ b1)) ∧
    (∀ id e, orders_ b' !! id = Some e → orders_ b1 !! id = Some e) ∧
    Forall (loop_trade kb ka (flat (bids_ b)) (flat (asks_ b))) trades ∧
    (no_FillAndKill (tail (flat (bids_ b))) →
     no_FillAndKill (tail (flat (asks_ b))) →
     no_FillAndKill (book_orders b')) ∧
    (no_FillAndKill (book_orders b) → b' = b1) ∧
    match_loop (match_loop_bound b) b [] = Ok (trades, b1).
Proof.
  intros Hwf.
  destruct (match_loop_wf (match_loop_bound b) b [] Hwf)
    as (b1 & kb & ka & trades & Hloop & Hwf1 & Hunc1 & Hmb & Hma & Hw & Htr);
    [done|].
  destruct (cancel_front_bids b1 Hwf1)
    as (b2 & Hc2 & Hwf2 & Hasks2 & Hin2 & Hk2 & Ho2 & Hfak2 & Hsame2).
  destruct (cancel_front_asks b2 Hwf2)
    as (b3 & Hc3 & Hwf3 & Hbids3 & Hin3 & Hk3 & Ho3 & Hfak3 & Hsame3).
  pose proof (map_residue_flat _ _ _ Hmb) as Hfb.
  pose proof (map_residue_flat _ _ _ Hma) as Hfa.
  exists trades, b3, b1, kb, ka.
  split.
  { unfold MatchOrders. rewrite Hloop. simpl. rewrite Hc2. simpl.
    rewrite Hc3. done. }
  split_and!; try done.
  - eapply (uncrossed_subseteq b1); [| |done].
    + by rewrite Hbids3.
    + by rewrite <-Hasks2.
  - intros o. rewrite Hbids3. apply Hin2.
  - intros o Ho. apply Hin3 in Ho. by rewrite Hasks2 in Ho.
  - intros id e He. auto.
  - intros Htb Hta. unfold book_orders. apply Forall_app. split.
    + rewrite Hbids3. apply Hfak2. by eapply no_FillAndKill_residue_tail.
    + apply Hfak3. rewrite Hasks2. by eapply no_FillAndKill_residue_tail.
  - intros [Hb Ha]%Forall_app.
    assert (b2 = b1) as Heq.
    { apply Hsame2. by eapply no_FillAndKill_residue. }
    subst b2. apply Hsame3. by eapply no_FillAndKill_residue.
Qed.

(** ** [AddOrder] *)

Lemma ToGoodTillCancel_Market p o :
  GetOrderType o = Market →
  ToGoodTillCancel p o =
  mkOrder GoodTillCancel (GetOrderId o) (GetSide o) p
    (GetInitialQuantity o) (GetRemainingQuantity o).
Proof. unfold ToGoodTillCancel. by intros ->. Qed.

Lemma convert_market_Some o b o' :
  convert_market o b = Some o' →
  GetOrderId o' = GetOrderId o ∧ GetSide o' = GetSide o ∧
  GetInitialQuantity o' = GetInitialQuantity o ∧
  GetRemainingQuantity o' = GetRemainingQuantity o ∧
  (GetOrderType o' = FillAndKill ↔ GetOrderType o = FillAndKill) ∧
  (GetOrderType o ≠ Market → o' = o).
Proof.
  unfold convert_market. case_bool_decide as Ht.
  - destruct (GetSide o) eqn:Hs; destruct (map_rbegin _) as [[worst ?]|];
      try done;
      intros [= <-]; rewrite ToGoodTillCancel_Market by done; simpl;
      rewrite Ht; split_and!; try done; try (split; done).
  - intros [= <-]. split_and!; done.
Qed.

(** The ways through [AddOrder]: a rejection, which returns the book as it
    was, or the insertion of the (converted) order followed by matching. *)
Lemma AddOrder_cases o b :
  AddOrder o b = Ok ([], b) ∨
  ∃ o', orders_ b !! GetOrderId o = None ∧ convert_market o b = Some o' ∧
    (GetOrderType o' = FillAndKill →
     CanMatch (GetSide o') (GetPrice o') b = true) ∧
    (GetOrderType o' = FillOrKill →
     CanFullyFill (GetSide o') (GetPrice o') (GetInitialQuantity o') b = true) ∧
    AddOrder o b = MatchOrders (insert_order o' b).
Proof.
  unfold AddOrder. case_bool_decide as Hdup; [by left|].
  apply eq_None_not_Some in Hdup.
  destruct (convert_market o b) as [o'|] eqn:Hconv; [|by left].
  destruct (bool_decide (GetOrderType o' = FillAndKill)) eqn:Hfak;
    destruct (CanMatch _ _ b) eqn:Hcm; simpl; try (by left).
  - destruct (bool_decide (GetOrderType o' = FillOrKill)) eqn:Hfok;
      destruct (CanFullyFill _ _ _ b) eqn:Hcf; simpl; try (by left);
      right; exists o'; split_and!; try done.
    intros Ht. by rewrite bool_decide_eq_true_2 in Hfok.
  - apply bool_decide_eq_false in Hfak.
    destruct (bool_decide (GetOrderType o' = FillOrKill)) eqn:Hfok;
      destruct (CanFullyFill _ _ _ b) eqn:Hcf; simpl; try (by left);
      right; exists o'; split_and!; try done.
    intros Ht. by rewrite bool_decide_eq_true_2 in Hfok.
  - apply bool_decide_eq_false in Hfak.
    destruct (bool_decide (GetOrderType o' = FillOrKill)) eqn:Hfok;
      destruct (CanFullyFill _ _ _ b) eqn:Hcf; simpl; try (by left);
      right; exists o'; split_and!; try done.
    intros Ht. by rewrite bool_decide_eq_true_2 in Hfok.
Qed.

Lemma CanMatch_Buy_front b p k :
  uncrossed b → CanMatch Buy p b = true → k ∈ (bids_ b).*1 →
  greater p k = true.
Proof.
  unfold CanMatch, uncrossed, map_begin. intros Hunc Hcm Hk.
  destruct (asks_ b) as [|[bestAsk ?] ?] eqn:Hasks; [done|]. simpl in Hcm.
  specialize (Hunc k bestAsk Hk). simpl in Hunc.
  unfold greater. specialize (Hunc ltac:(left)). lia.
Qed.

Lemma CanMatch_Sell_front b p k :
  uncrossed b → CanMatch Sell p b = true → k ∈ (asks_ b).*1 →
  less p k = true.
Proof.
  unfold CanMatch, uncrossed, map_begin. intros Hunc Hcm Hk.
  destruct (bids_ b) as [|[bestBid ?] ?] eqn:Hbids; [done|]. simpl in Hcm.
  specialize (Hunc bestBid k). simpl in Hunc.
  unfold less. specialize (Hunc ltac:(left) Hk). lia.
Qed.

Lemma no_FillAndKill_tail l : no_FillAndKill l → no_FillAndKill (tail l).
Proof. destruct l; [done|]. by intros [_ ?]%Forall_cons. Qed.

(** In the book that [AddOrder] hands to [MatchOrders], a FillAndKill order
    can only stand at the very front of its side. *)
Lemma insert_order_fronts o b :
  Inv b →
  (GetOrderType o = FillAndKill → CanMatch (GetSide o) (GetPrice o) b = true) →
  no_FillAndKill (tail (flat (bids_ (insert_order o b)))) ∧
  no_FillAndKill (tail (flat (asks_ (insert_order o b)))).
Proof.
  intros [Hwf Hunc Hfak] Hcm. unfold book_orders in Hfak.
  apply Forall_app in Hfak as [Hfb Hfa].
  destruct (decide (GetOrderType o = FillAndKill)) as [Ht|Ht].
  - specialize (Hcm Ht). unfold insert_order.
    destruct (GetSide o) eqn:Hs; simpl.
    + rewrite (push_back_front greater) by
        (constructor || eauto using CanMatch_Buy_front).
      rewrite flat_cons. simpl. split; [done|by apply no_FillAndKill_tail].
    + rewrite (push_back_front less) by
        (constructor || eauto using CanMatch_Sell_front).
      rewrite flat_cons. simpl. split; [by apply no_FillAndKill_tail|done].
  - assert (no_FillAndKill (book_orders (insert_order o b))) as Hall.
    { unfold no_FillAndKill. rewrite book_orders_insert by done.
      constructor; [done|]. by apply Forall_app. }
    unfold book_orders in Hall. apply Forall_app in Hall as [? ?].
    split; by apply no_FillAndKill_tail.
Qed.

Lemma convert_market_valid o b o' :
  convert_market o b = Some o' → valid_order o → valid_order o'.
Proof.
  intros (_ & _ & Hi & Hr & _)%convert_market_Some.
  unfold valid_order. by rewrite Hi, Hr.
Qed.

Lemma AddOrder_Inv o b :
  Inv b → valid_order o →
  ∃ trades b', AddOrder o b = Ok (trades, b') ∧ Inv b'.
Proof.
  intros HInv Hvo. destruct (AddOrder_cases o b) as [->|Hacc]; [by eauto|].
  destruct Hacc as (o' & Hfresh & Hconv & Hcm & _ & ->).
  pose proof (convert_market_Some _ _ _ Hconv) as (Hid & _).
  assert (wf (insert_order o' b)) as Hwf.
  { apply insert_order_wf; [apply HInv|by eapply convert_market_valid|].
    by rewrite Hid. }
  destruct (MatchOrders_spec _ Hwf)
    as (trades & b' & b1 & kb & ka & -> & Hwf' & Hunc' & _ & _ & _ & _ & _ & _
        & _ & _ & Hfak & _ & _).
  exists trades, b'. split; [done|]. constructor; [done..|].
  destruct (insert_order_fronts o' b HInv Hcm). auto.
Qed.

(** ** The invariant along request sequences *)

Lemma wf_empty : wf empty_book.
Proof.
  constructor; simpl.
  - constructor.
  - constructor.
  - intros p q Hin. by apply elem_of_nil in Hin.
  - intros p q Hin. by apply elem_of_nil in Hin.
  - constructor.
  - intros id e. simpl. rewrite lookup_empty. split; [done|].
    intros (o & Ho & _). by apply elem_of_nil in Ho.
  - constructor.
Qed.

Lemma Inv_empty : Inv empty_book.
Proof.
  constructor.
  - apply wf_empty.
  - intros pb pa Hpb. by apply elem_of_nil in Hpb.
  - constructor.
Qed.

Lemma CancelOrderInternal_Inv id b :
  Inv b → ∃ b', CancelOrderInternal id b = Ok b' ∧ Inv b'.
Proof.
  intros [Hwf Hunc Hfak].
  destruct (CancelOrderInternal_spec id b Hwf)
    as (b' & Hrun & Hwf' & _ & Hkb & Hka & Hmb & Hma & _).
  exists b'. split; [done|]. constructor; [done| |].
  - by eapply uncrossed_subseteq.
  - unfold no_FillAndKill, book_orders in *.
    rewrite Forall_forall in Hfak. apply Forall_forall. intros o Ho.
    apply Hfak. rewrite elem_of_app in *.
    destruct Ho as [Ho|Ho]; [left; by apply Hmb in Ho as [? _]|
                             right; by apply Hma in Ho as [? _]].
Qed.

Lemma cancel_all_Inv l b :
  Inv b → ∃ b', cancel_all l b = Ok b' ∧ Inv b'.
Proof.
  revert b. induction l as [|id l IH]; intros b HInv; simpl; [by eauto|].
  destruct (CancelOrderInternal_Inv id b HInv) as (b1 & -> & HInv1). simpl.
  by apply IH.
Qed.

Lemma ModifyOrder_Inv m b :
  Inv b → 0 ≤ OrderModify.quantity m < UINT32_MOD →
  ∃ trades b', ModifyOrder m b = Ok (trades, b') ∧ Inv b'.
Proof.
  intros HInv Hq. unfold ModifyOrder.
  destruct (orders_ b !! OrderModify.orderId m) as [e|]; [|by eauto].
  unfold CancelOrder.
  destruct (CancelOrderInternal_Inv (OrderModify.orderId m) b HInv)
    as (b1 & -> & HInv1). simpl.
  apply AddOrder_Inv; [done|].
  unfold valid_order, OrderModify.ToOrderPointer, new_Order. simpl. lia.
Qed.

Lemma step_Inv r b :
  Inv b → valid_request r →
  ∃ trades b', step r b = Ok (trades, b') ∧ Inv b'.
Proof.
  intros HInv Hr. destruct r as [o|id|m|]; simpl in *.
  - by apply AddOrder_Inv.
  - unfold CancelOrder.
    destruct (CancelOrderInternal_Inv id b HInv) as (b' & -> & ?).
    simpl. eauto.
  - by apply ModifyOrder_Inv.
  - unfold PruneSweep.
    destruct (cancel_all_Inv (GoodForDay_ids (orders_ b)) b HInv) as (b' & -> & ?).
    simpl. eauto.
Qed.

Lemma run_Inv rs b :
  Inv b → Forall valid_request rs → ∃ b', run rs b = Ok b' ∧ Inv b'.
Proof.
  revert b. induction rs as [|r rs IH]; intros b HInv Hrs; simpl; [by eauto|].
  apply Forall_cons in Hrs as [Hr Hrs].
  destruct (step_Inv r b HInv Hr) as (trades & b1 & -> & HInv1). simpl.
  by apply IH.
Qed.

Lemma reachable_Inv b : reachable b → Inv b.
Proof.
  intros (rs & Hrs & Hrun).
  destruct (run_Inv rs empty_book Inv_empty Hrs) as (b' & Hrun' & HInv).
  congruence.
Qed.

Lemma reachable_empty : reachable empty_book.
Proof. by exists []. Qed.

Lemma run_app rs1 rs2 b :
  run (rs1 ++ rs2) b = bind (run rs1 b) (run rs2).
Proof.
  revert b. induction rs1 as [|r rs1 IH]; intros b; simpl; [done|].
  destruct (step r b) as [[trades b1]|]; simpl; [|done]. apply IH.
Qed.

Lemma reachable_step r b trades b' :
  reachable b → valid_request r → step r b = Ok (trades, b') → reachable b'.
Proof.
  intros (rs & Hrs & Hrun) Hr Hstep. exists (rs ++ [r]). split.
  - apply Forall_app. split; [done|by constructor].
  - rewrite run_app, Hrun. simpl. by rewrite Hstep.
Qed.

Lemma reachable_book_after rs :
  Forall valid_request rs → reachable (book_after rs).
Proof.
  intros Hrs. exists rs. split; [done|]. unfold book_after.
  by destruct (run_Inv rs empty_book Inv_empty Hrs) as (b & -> & _).
Qed.

Ltac solve_valid :=
  repeat constructor; unfold valid_order, UINT32_MOD; simpl; lia.

(** * Hard failures and caller misuse *)

(** C8. [Order::Fill] raises [std::logic_error] when asked to fill more than
    the remaining quantity; the matching loop fills both front orders by the
    minimum of their remaining quantities, which [Fill] accepts; and no
    sequence of requests (AddOrder, CancelOrder, ModifyOrder, the expiration
    sweep) on a new book ever fails, so that branch is never taken, and every
    order of the resulting book has [0 <= remaining <= initial]. *)
Theorem Fill_beyond_remaining_unreachable rs :
  Forall valid_request rs →
  (∀ q o, GetRemainingQuantity o < q →
     Fill q o = Throw (logic_error (GetOrderId o))) ∧
  (∀ bid ask,
     let qty := Z.min (GetRemainingQuantity bid) (GetRemainingQuantity ask) in
     Fill qty bid = Ok (set_remaining (GetRemainingQuantity bid - qty) bid) ∧
     Fill qty ask = Ok (set_remaining (GetRemainingQuantity ask - qty) ask)) ∧
  ∃ b, run rs empty_book = Ok b ∧
       Forall (fun o => 0 ≤ GetRemainingQuantity o ≤ GetInitialQuantity o)
         (book_orders b).
Proof.
  intros Hrs. split_and!.
  - intros q o Hq. unfold Fill. by rewrite (proj2 (Z.ltb_lt _ _)).
  - intros bid ask qty. split; [apply Fill_min_l|apply Fill_min_r].
  - destruct (run_Inv rs empty_book Inv_empty Hrs) as (b & Hrun & HInv).
    exists b. split; [done|].
    eapply Forall_impl; [apply HInv|]. by intros o [? _].
Qed.

Lemma Fill_beyond_remaining_unreachable_witness :
  let rs := [ReqAdd (new_Order GoodTillCancel 1 Buy 100 10);
             ReqAdd (new_Order GoodTillCancel 2 Sell 99 5)] in
  Forall valid_request rs ∧
  Fill 6 (mkOrder GoodTillCancel 1 Buy 100 10 5) = Throw (logic_error 1) ∧
  ∃ b, run rs empty_book = Ok b ∧
       Forall (fun o => 0 ≤ GetRemainingQuantity o ≤ GetInitialQuantity o)
         (book_orders b).
Proof.
  assert (Forall valid_request
            [ReqAdd (new_Order GoodTillCancel 1 Buy 100 10);
             ReqAdd (new_Order GoodTillCancel 2 Sell 99 5)]) as Hrs
    by solve_valid.
  destruct (Fill_beyond_remaining_unreachable _ Hrs) as (Hthrow & _ & Hrun).
  split; [exact Hrs|]. split; [|exact Hrun].
  apply (Hthrow 6 (mkOrder GoodTillCancel 1 Buy 100 10 5)). simpl. lia.
Defined.

(** C9. Caller misuse is answered without an error: AddOrder with the
    identifier of a live order returns no trade and the same book;
    CancelOrder of an unknown identifier returns the same book; after a
    CancelOrder of any identifier, a second one returns the book it is given
    (so [Size] and the level snapshots are those of before); ModifyOrder of
    an unknown identifier returns no trade and the same book.  All of them
    return [Ok]. *)
Theorem caller_misuse_is_a_no_op b :
  (∀ o, is_Some (orders_ b !! GetOrderId o) → AddOrder o b = Ok ([], b)) ∧
  (∀ id, orders_ b !! id = None → CancelOrder id b = Ok b) ∧
  (∀ id b', CancelOrder id b = Ok b' →
     CancelOrder id b' = Ok b' ∧
     ∀ b'', CancelOrder id b' = Ok b'' →
       Size b'' = Size b' ∧
       ∀ alloc depth,
         GetBidLevels alloc depth b'' = GetBidLevels alloc depth b' ∧
         GetAskLevels alloc depth b'' = GetAskLevels alloc depth b') ∧
  (∀ m, orders_ b !! OrderModify.orderId m = None →
     ModifyOrder m b = Ok ([], b)).
Proof.
  split_and!.
  - intros o Hdup. unfold AddOrder. by rewrite bool_decide_eq_true_2.
  - intros id Hnone. unfold CancelOrder, CancelOrderInternal. by rewrite Hnone.
  - intros id b' Hc.
    assert (orders_ b' !! id = None) as Hnone.
    { unfold CancelOrder, CancelOrderInternal in Hc.
      destruct (orders_ b !! id) as [e|] eqn:He; [|congruence].
      destruct (entry_side e); inv_bind Hc; destruct a as [order m];
        injection Hc as <-; simpl; apply lookup_delete_eq. }
    assert (CancelOrder id b' = Ok b') as Hagain.
    { unfold CancelOrder, CancelOrderInternal. by rewrite Hnone. }
    split; [done|]. intros b'' Hc'. rewrite Hagain in Hc'.
    by injection Hc' as <-.
  - intros m Hnone. unfold ModifyOrder. by rewrite Hnone.
Qed.

Lemma caller_misuse_is_a_no_op_witness :
  let b := book_after [ReqAdd (new_Order GoodTillCancel 1 Buy 100 10)] in
  AddOrder (new_Order GoodTillCancel 1 Sell 90 3) b = Ok ([], b) ∧
  CancelOrder 7 b = Ok b ∧
  ModifyOrder (OrderModify.mk 7 Buy 101 4) b = Ok ([], b).
Proof.
  pose (b := book_after [ReqAdd (new_Order GoodTillCancel 1 Buy 100 10)]).
  destruct (caller_misuse_is_a_no_op b) as (Hadd & Hcancel & _ & Hmod).
  split_and!.
  - apply Hadd. vm_compute. eauto.
  - apply Hcancel. reflexivity.
  - apply Hmod. reflexivity.
Defined.

(** * Accepted orders *)

Lemma MatchOrders_matched b :
  wf b →
  ∃ trades b' b1 kb ka,
    MatchOrders b = Ok (trades, b') ∧ matched b trades b' b1 kb ka.
Proof.
  intros Hwf. destruct (MatchOrders_spec b Hwf)
    as (trades & b' & b1 & kb & ka & ? & ? & ? & ? & ? & ? & ? & ? & ? & ? & ?
        & ? & ? & ?).
  exists trades, b', b1, kb, ka. split; [done|]. by constructor.
Qed.

Lemma AddOrder_accepted o o' b :
  Inv b → valid_order o → orders_ b !! GetOrderId o = None →
  convert_market o b = Some o' →
  (GetOrderType o' = FillAndKill →
   CanMatch (GetSide o') (GetPrice o') b = true) →
  ∃ trades b' b1 kb ka,
    MatchOrders (insert_order o' b) = Ok (trades, b') ∧
    matched (insert_order o' b) trades b' b1 kb ka ∧
    wf (insert_order o' b) ∧ Inv b'.
Proof.
  intros HInv Hvo Hfresh Hconv Hcm.
  pose proof (convert_market_Some _ _ _ Hconv) as (Hid & _).
  assert (wf (insert_order o' b)) as Hwf.
  { apply insert_order_wf; [apply HInv|by eapply convert_market_valid|].
    by rewrite Hid. }
  destruct (MatchOrders_matched _ Hwf) as (trades & b' & b1 & kb & ka & Hrun & Hm).
  exists trades, b', b1, kb, ka. split_and!; try done.
  constructor; [apply Hm..|].
  destruct (insert_order_fronts o' b HInv Hcm). by apply Hm.
Qed.

(** The id-lookup after an accepted order holds nothing but entries of the
    id-lookup before it and the entry of the new order. *)
Lemma matched_orders_from o b trades b' b1 kb ka id e :
  orders_ b !! GetOrderId o = None →
  matched (insert_order o b) trades b' b1 kb ka →
  orders_ b' !! id = Some e →
  (id = GetOrderId o ∧ e = entry_of o) ∨
  (id ≠ GetOrderId o ∧ orders_ b !! id = Some e).
Proof.
  intros Hfresh Hm He. apply (matched_orders_left _ _ _ _ _ _ Hm) in He.
  apply (without_lookup _ _ _ _ _ (matched_orders _ _ _ _ _ _ Hm)) in He as [_ He].
  rewrite orders_insert_order, lookup_insert in He by done.
  case_decide; [left|right]; naive_solver.
Qed.

Lemma Inv_entry_types b id e :
  Inv b → orders_ b !! id = Some e → entry_type e ≠ FillAndKill.
Proof.
  intros [Hwf _ Hfak] He. apply (wf_index _ Hwf) in He as (o & Ho & _ & ->).
  simpl. by eapply Forall_forall in Hfak.
Qed.

(** C5. AddOrder of a FillAndKill order on a book reached by any sequence
    of requests returns without failure.  If no cross is possible at its
    price it returns no trade and the book unchanged.  In every case the
    book it leaves holds no FillAndKill order, neither in a queue nor in the
    id-lookup; when the identifier was not live before, it is not live after
    and no queue position holds it; and [Size] has not grown. *)
Theorem FillAndKill_never_rests b o :
  reachable b → valid_order o → GetOrderType o = FillAndKill →
  ∃ trades b',
    AddOrder o b = Ok (trades, b') ∧
    (CanMatch (GetSide o) (GetPrice o) b = false → trades = [] ∧ b' = b) ∧
    no_FillAndKill (book_orders b') ∧
    (∀ id e, orders_ b' !! id = Some e → entry_type e ≠ FillAndKill) ∧
    (orders_ b !! GetOrderId o = None →
     orders_ b' !! GetOrderId o = None ∧
     GetOrderId o ∉ ids (book_orders b')) ∧
    (Size b' ≤ Size b)%nat.
Proof.
  intros HInv%reachable_Inv Hvo Ht.
  assert (convert_market o b = Some o) as Hconv.
  { unfold convert_market. rewrite bool_decide_eq_false_2; [done|].
    by rewrite Ht. }
  destruct (AddOrder_cases o b) as [Hrej|Hacc].
  { exists [], b. split_and!; try done; try apply HInv.
    - intros id e. by apply Inv_entry_types.
    - intros Hfresh. split; [done|]. intros (x & Hx & Hid)%elem_of_ids.
      by eapply index_ok_absent; [apply HInv|..]. }
  destruct Hacc as (o' & Hfresh & Hconv' & Hcm & _ & Hadd).
  assert (o' = o) as -> by congruence.
  destruct (AddOrder_accepted o o b HInv Hvo Hfresh Hconv Hcm)
    as (trades & b' & b1 & kb & ka & Hrun & Hm & Hwf & HInv').
  assert (orders_ b' !! GetOrderId o = None) as Hgone.
  { destruct (orders_ b' !! GetOrderId o) as [e|] eqn:He; [|done].
    pose proof (Inv_entry_types _ _ _ HInv' He) as Hne.
    destruct (matched_orders_from _ _ _ _ _ _ _ _ _ Hfresh Hm He)
      as [[_ ->]|[? _]]; done. }
  exists trades, b'. rewrite Hadd. split_and!; try done; try apply HInv'.
  - intros Hcm'. rewrite Hcm in Hcm' by done. done.
  - intros id e. by apply Inv_entry_types.
  - intros _. split; [done|]. intros (x & Hx & Hid)%elem_of_ids.
    by eapply index_ok_absent; [apply HInv'|..].
  - apply map_subseteq_size, map_subseteq_spec. intros id e He.
    destruct (matched_orders_from _ _ _ _ _ _ _ _ _ Hfresh Hm He)
      as [[-> _]|[_ ?]]; [congruence|done].
Qed.

Lemma FillAndKill_never_rests_witness :
  let b := book_after [ReqAdd (new_Order GoodTillCancel 1 Sell 100 4)] in
  let o := new_Order FillAndKill 2 Buy 101 10 in
  ∃ trades b',
    AddOrder o b = Ok (trades, b') ∧
    (CanMatch (GetSide o) (GetPrice o) b = false → trades = [] ∧ b' = b) ∧
    no_FillAndKill (book_orders b') ∧
    (∀ id e, orders_ b' !! id = Some e → entry_type e ≠ FillAndKill) ∧
    (orders_ b !! GetOrderId o = None →
     orders_ b' !! GetOrderId o = None ∧
     GetOrderId o ∉ ids (book_orders b')) ∧
    (Size b' ≤ Size b)%nat.
Proof.
  apply (FillAndKill_never_rests
           (book_after [ReqAdd (new_Order GoodTillCancel 1 Sell 100 4)])
           (new_Order FillAndKill 2 Buy 101 10)).
  - apply reachable_book_after. solve_valid.
  - solve_valid.
  - reflexivity.
Defined.

(** * Market orders *)

Lemma sorted_keys_last cmp {V} (m : list (Price * V)) k v k' :
  comparator cmp → sorted_keys cmp m → last m = Some (k, v) → k' ∈ m.*1 →
  k' = k ∨ cmp k' k = true.
Proof.
  intros Hcmp. induction m as [|[k0 v0] m IH]; intros Hs Hlast Hin; [done|].
  apply sorted_keys_cons in Hs as [Hk0 Hs].
  destruct m as [|[k1 v1] m].
  - simpl in *. injection Hlast as -> ->.
    apply list_elem_of_singleton in Hin. by left.
  - change (last ((k0, v0) :: (k1, v1) :: m)) with (last ((k1, v1) :: m)) in Hlast.
    apply elem_of_cons in Hin as [->|Hin]; [|by apply IH].
    right. eapply Forall_forall in Hk0; [done|].
    apply list_elem_of_fmap. exists (k, v). split; [done|].
    by apply last_Some_elem_of.
Qed.

Lemma convert_market_Market o b worst q :
  GetOrderType o = Market →
  map_rbegin (opposite (GetSide o) b) = Some (worst, q) →
  convert_market o b = Some (ToGoodTillCancel worst o).
Proof.
  intros Ht Hlast. unfold convert_market, opposite in *.
  rewrite bool_decide_eq_true_2 by done.
  destruct (GetSide o); by rewrite Hlast.
Qed.

Lemma convert_market_other o b :
  GetOrderType o ≠ Market → convert_market o b = Some o.
Proof. intros Ht. unfold convert_market. by rewrite bool_decide_eq_false_2. Qed.

(** C6. AddOrder of a Market order: when the opposite side is empty it
    returns no trade and the book unchanged.  Otherwise the order becomes a
    GoodTillCancel order at the price of the last level of the opposite
    side, which is its worst price (the highest ask for a buy, the lowest
    bid for a sell), and the call does what AddOrder does with that limit
    order: when the identifier is not already live, it inserts it and runs
    the matching. *)
Theorem Market_order_conversion o b :
  GetOrderType o = Market →
  (opposite (GetSide o) b = [] → AddOrder o b = Ok ([], b)) ∧
  (∀ worst q, map_rbegin (opposite (GetSide o) b) = Some (worst, q) →
     let limit :=
       mkOrder GoodTillCancel (GetOrderId o) (GetSide o) worst
         (GetInitialQuantity o) (GetRemainingQuantity o) in
     ToGoodTillCancel worst o = limit ∧
     AddOrder o b = AddOrder limit b ∧
     (orders_ b !! GetOrderId o = None →
      AddOrder o b = MatchOrders (insert_order limit b)) ∧
     (wf b → ∀ k, k ∈ (opposite (GetSide o) b).*1 →
        match GetSide o with
        | Buy => k ≤ worst
        | Sell => worst ≤ k
        end)).
Proof.
  intros Ht. split.
  - intros Hempty. unfold AddOrder. case_bool_decide; [done|].
    unfold convert_market, opposite in *. rewrite bool_decide_eq_true_2 by done.
    destruct (GetSide o); by rewrite Hempty.
  - intros worst q Hlast limit.
    pose proof (ToGoodTillCancel_Market worst o Ht) as Hlimit.
    pose proof (convert_market_Market o b worst q Ht Hlast) as Hconv.
    rewrite Hlimit in Hconv. fold limit in Hconv.
    assert (convert_market limit b = Some limit) as Hconv'
      by by apply convert_market_other.
    assert (AddOrder o b = AddOrder limit b) as Heq.
    { unfold AddOrder. rewrite Hconv, Hconv'. done. }
    split_and!; try done.
    + intros Hfresh. rewrite Heq. unfold AddOrder.
      rewrite bool_decide_eq_false_2 by (simpl; by rewrite Hfresh; intros [? ?]).
      rewrite Hconv'. done.
    + intros Hwf k Hk. unfold opposite in *. destruct (GetSide o).
      * destruct (sorted_keys_last less (asks_ b) worst q k comparator_less)
          as [->|Hlt]; [apply Hwf|done..| |]; unfold less in *; lia.
      * destruct (sorted_keys_last greater (bids_ b) worst q k comparator_greater)
          as [->|Hlt]; [apply Hwf|done..| |]; unfold greater in *; lia.
Qed.

Lemma Market_order_conversion_witness :
  let b := book_after [ReqAdd (new_Order GoodTillCancel 1 Sell 99 5);
                       ReqAdd (new_Order GoodTillCancel 2 Sell 101 5)] in
  let o := new_Order Market 3 Buy 0 7 in
  ToGoodTillCancel 101 o = mkOrder GoodTillCancel 3 Buy 101 7 7 ∧
  AddOrder o b = AddOrder (mkOrder GoodTillCancel 3 Buy 101 7 7) b ∧
  AddOrder o b =
  MatchOrders (insert_order (mkOrder GoodTillCancel 3 Buy 101 7 7) b).
Proof.
  pose (b := book_after [ReqAdd (new_Order GoodTillCancel 1 Sell 99 5);
                         ReqAdd (new_Order GoodTillCancel 2 Sell 101 5)]).
  pose (o := new_Order Market 3 Buy 0 7).
  destruct (Market_order_conversion o b eq_refl) as [_ Hsome].
  destruct (Hsome 101 [new_Order GoodTillCancel 2 Sell 101 5] eq_refl)
    as (Hlimit & Hadd & Hmatch & _).
  split_and!; [exact Hlimit|exact Hadd|apply Hmatch; reflexivity].
Defined.

Example Market_buy_sweeps :
  let b := book_after [ReqAdd (new_Order GoodTillCancel 1 Sell 99 5);
                       ReqAdd (new_Order GoodTillCancel 2 Sell 101 5)] in
  (try (trades, b') := AddOrder (new_Order Market 3 Buy 0 7) b in
   Ok (trades, bids_ b', asks_ b')) =
  Ok ([mkTrade (TradeInfo.mk 3 99 5) (TradeInfo.mk 1 99 5);
       mkTrade (TradeInfo.mk 3 101 2) (TradeInfo.mk 2 101 2)],
      [], [(101, [mkOrder GoodTillCancel 2 Sell 101 5 3])]).
Proof. vm_compute. reflexivity. Qed.

(** * Execution price *)

Lemma insert_order_sides o b :
  wf b →
  match GetSide o with
  | Buy =>
      asks_ (insert_order o b) = asks_ b ∧
      flat (bids_ (insert_order o b)) ≡ₚ flat (bids_ b) ++ [o]
  | Sell =>
      bids_ (insert_order o b) = bids_ b ∧
      flat (asks_ (insert_order o b)) ≡ₚ flat (asks_ b) ++ [o]
  end.
Proof.
  intros Hwf. unfold insert_order. destruct (GetSide o); simpl.
  - split; [done|]. apply (push_back_flat greater); [constructor|apply Hwf].
  - split; [done|]. apply (push_back_flat less); [constructor|apply Hwf].
Qed.

(** In a book whose sides do not cross, a bid and an ask that cross cannot
    both have been resting. *)
Lemma uncrossed_resting b bo ao :
  wf b → uncrossed b → bo ∈ flat (bids_ b) → ao ∈ flat (asks_ b) →
  GetPrice bo < GetPrice ao.
Proof.
  intros Hwf Hunc Hbo Hao. apply Hunc.
  - by eapply side_ok_flat; [apply Hwf|].
  - by eapply side_ok_flat; [apply Hwf|].
Qed.

(** The two orders of a trade of an accepted order: the incoming order and
    an order resting on the opposite side. *)
Lemma accepted_trade_orders o b trades b' b1 kb ka t :
  Inv b → matched (insert_order o b) trades b' b1 kb ka → t ∈ trades →
  TradeInfo.price (bid t) = TradeInfo.price (ask t) ∧
  match GetSide o with
  | Buy =>
      TradeInfo.orderId (bid t) = GetOrderId o ∧
      ∃ r, r ∈ flat (asks_ b) ∧ GetOrderId r = TradeInfo.orderId (ask t) ∧
           TradeInfo.price (ask t) = GetPrice r ∧ GetPrice r ≤ GetPrice o
  | Sell =>
      TradeInfo.orderId (ask t) = GetOrderId o ∧
      TradeInfo.price (ask t) = GetPrice o ∧
      ∃ r, r ∈ flat (bids_ b) ∧ GetOrderId r = TradeInfo.orderId (bid t) ∧
           GetPrice o ≤ GetPrice r
  end.
Proof.
  intros [Hwf Hunc _] Hm Ht.
  pose proof (matched_trades _ _ _ _ _ _ Hm) as Htr.
  eapply Forall_forall in Htr; [|done].
  destruct Htr as (_ & i & j & bo & ao & _ & _ & Hbo & Hao & Hidb & Hida & Hpb
                   & Hpa & Hcross).
  apply list_elem_of_lookup_2 in Hbo, Hao.
  split; [congruence|].
  pose proof (insert_order_sides o b Hwf) as Hsides.
  destruct (GetSide o); destruct Hsides as [Hsame Hperm].
  - rewrite Hsame in Hao. rewrite Hperm in Hbo.
    apply elem_of_app in Hbo as [Hbo|Hbo].
    { pose proof (uncrossed_resting b bo ao Hwf Hunc Hbo Hao). lia. }
    apply list_elem_of_singleton in Hbo as ->.
    split; [done|]. exists ao. split_and!; try done.
  - rewrite Hsame in Hbo. rewrite Hperm in Hao.
    apply elem_of_app in Hao as [Hao|Hao].
    { pose proof (uncrossed_resting b bo ao Hwf Hunc Hbo Hao). lia. }
    apply list_elem_of_singleton in Hao as ->.
    split; [done|]. split; [done|]. exists bo. split_and!; try done.
Qed.

(** C3, as the code has it.  Every trade of an AddOrder call carries one
    price on both legs, the limit price of the ask (sell) order of the trade.
    When the incoming order is a buy, the bid leg is the incoming order and
    the price is that of a resting ask.  When the incoming order is a sell,
    the ask leg is the incoming order and the price is its own limit price
    (after the conversion of a market order), which does not exceed the
    price of the resting bid it trades with. *)
Theorem execution_price_is_ask_price b o trades b' t :
  reachable b → valid_order o → AddOrder o b = Ok (trades, b') → t ∈ trades →
  TradeInfo.price (bid t) = TradeInfo.price (ask t) ∧
  ∃ o', convert_market o b = Some o' ∧
    match GetSide o with
    | Buy =>
        TradeInfo.orderId (bid t) = GetOrderId o ∧
        ∃ r, r ∈ flat (asks_ b) ∧ GetOrderId r = TradeInfo.orderId (ask t) ∧
             TradeInfo.price (ask t) = GetPrice r ∧ GetPrice r ≤ GetPrice o'
    | Sell =>
        TradeInfo.orderId (ask t) = GetOrderId o ∧
        TradeInfo.price (ask t) = GetPrice o' ∧
        ∃ r, r ∈ flat (bids_ b) ∧ GetOrderId r = TradeInfo.orderId (bid t) ∧
             GetPrice o' ≤ GetPrice r
    end.
Proof.
  intros HInv%reachable_Inv Hvo Hadd Ht.
  destruct (AddOrder_cases o b) as [Hrej|Hacc].
  { rewrite Hrej in Hadd. injection Hadd as <- <-. by apply elem_of_nil in Ht. }
  destruct Hacc as (o' & Hfresh & Hconv & Hcm & _ & Hrun).
  destruct (AddOrder_accepted o o' b HInv Hvo Hfresh Hconv Hcm)
    as (trades' & b'' & b1 & kb & ka & Hrun' & Hm & _ & _).
  rewrite Hrun, Hrun' in Hadd. injection Hadd as -> ->.
  destruct (accepted_trade_orders o' b trades b' b1 kb ka t HInv Hm Ht)
    as [Hsame Hlegs].
  split; [done|]. exists o'. split; [done|].
  destruct (convert_market_Some _ _ _ Hconv) as (Hid & Hside & _).
  rewrite Hside, Hid in Hlegs. done.
Qed.

Lemma execution_price_is_ask_price_witness :
  let b := book_after [ReqAdd (new_Order GoodTillCancel 1 Buy 100 10)] in
  let o := new_Order GoodTillCancel 2 Sell 99 5 in
  let t := mkTrade (TradeInfo.mk 1 99 5) (TradeInfo.mk 2 99 5) in
  TradeInfo.price (bid t) = TradeInfo.price (ask t) ∧
  ∃ o', convert_market o b = Some o' ∧
    TradeInfo.orderId (ask t) = GetOrderId o ∧
    TradeInfo.price (ask t) = GetPrice o' ∧
    ∃ r, r ∈ flat (bids_ b) ∧ GetOrderId r = TradeInfo.orderId (bid t) ∧
         GetPrice o' ≤ GetPrice r.
Proof.
  apply (execution_price_is_ask_price
           (book_after [ReqAdd (new_Order GoodTillCancel 1 Buy 100 10)])
           (new_Order GoodTillCancel 2 Sell 99 5)
           [mkTrade (TradeInfo.mk 1 99 5) (TradeInfo.mk 2 99 5)]
           (book_after [ReqAdd (new_Order GoodTillCancel 1 Buy 100 10);
                        ReqAdd (new_Order GoodTillCancel 2 Sell 99 5)])).
  - apply reachable_book_after. solve_valid.
  - solve_valid.
  - vm_compute. reflexivity.
  - left.
Defined.

(** C3 as stated fails: a sell at 99 that meets a bid resting at 100 trades
    at 99, the price of the incoming order, not at the price of the resting
    order. *)
Lemma execution_price_not_resting_price :
  let b := book_after [ReqAdd (new_Order GoodTillCancel 1 Buy 100 10)] in
  let t := mkTrade (TradeInfo.mk 1 99 5) (TradeInfo.mk 2 99 5) in
  book_orders b = [new_Order GoodTillCancel 1 Buy 100 10] ∧
  (try (trades, _) := AddOrder (new_Order GoodTillCancel 2 Sell 99 5) b in
   Ok trades) = Ok [t] ∧
  ¬ at_resting_price b t.
Proof.
  split_and!.
  - vm_compute. reflexivity.
  - vm_compute. reflexivity.
  - intros (r & Hr & _ & Hp & _).
    assert (book_orders
              (book_after [ReqAdd (new_Order GoodTillCancel 1 Buy 100 10)]) =
            [new_Order GoodTillCancel 1 Buy 100 10]) as Hbook
      by (vm_compute; reflexivity).
    rewrite Hbook in Hr. apply list_elem_of_singleton in Hr as ->.
    simpl in Hp. discriminate Hp.
Qed.

(** * Price-time priority *)

Section Priority.
Variable cmp : Price → Price → bool.
Hypothesis Hcmp : comparator cmp.
Variable s : Side.

Implicit Types m : list (Price * OrderPointers).

(** The order of [flat] is the price-time order. *)
Lemma flat_buckets m i j x y :
  sorted_keys cmp m → (i < j)%nat →
  flat m !! i = Some x → flat m !! j = Some y →
  (∃ p q i' j', (p, q) ∈ m ∧ q !! i' = Some x ∧ q !! j' = Some y ∧ (i' < j')%nat) ∨
  (∃ px qx py qy, (px, qx) ∈ m ∧ (py, qy) ∈ m ∧ x ∈ qx ∧ y ∈ qy ∧
                  cmp px py = true).
Proof.
  revert i j. induction m as [|[p q] m IH]; intros i j Hs Hij Hx Hy; [done|].
  rewrite flat_cons in Hx, Hy.
  pose proof Hs as [Hp Hs']%sorted_keys_cons.
  apply lookup_app_Some in Hx as [Hx|[Hlx Hx]];
    apply lookup_app_Some in Hy as [Hy|[Hly Hy]].
  - left. exists p, q, i, j. split_and!; try done. left.
  - right. apply list_elem_of_lookup_2, elem_of_flat in Hy as (py & qy & Hqy & Hy).
    exists p, q, py, qy. split_and!; try done.
    + left.
    + by right.
    + by eapply list_elem_of_lookup_2.
    + eapply Forall_forall in Hp; [done|].
      apply list_elem_of_fmap. by exists (py, qy).
  - apply lookup_lt_Some in Hy. lia.
  - destruct (IH (i - length q)%nat (j - length q)%nat) as [Hsame|Hdiff];
      [done|lia|done..| |].
    + left. destruct Hsame as (p' & q' & i' & j' & ? & ?).
      exists p', q', i', j'. split; [by right|done].
    + right. destruct Hdiff as (px & qx & py & qy & ? & ? & ?).
      exists px, qx, py, qy. split_and!; try naive_solver; by right.
Qed.

Lemma flat_priority m i j x y :
  sorted_keys cmp m → side_ok s m → (i < j)%nat →
  flat m !! i = Some x → flat m !! j = Some y →
  price_time_order cmp m x y.
Proof.
  intros Hs Hok Hij Hx Hy.
  destruct (flat_buckets m i j x y Hs Hij Hx Hy)
    as [(p & q & i' & j' & Hq & Hxq & Hyq & Hlt)
       |(px & qx & py & qy & Hqx & Hqy & Hxq & Hyq & Hlt)].
  - destruct (Hok _ _ Hq) as [_ Hprices].
    destruct (Hprices x) as [_ Hpx]; [by eapply list_elem_of_lookup_2|].
    destruct (Hprices y) as [_ Hpy]; [by eapply list_elem_of_lookup_2|].
    right. split; [congruence|]. exists q, i', j'. split_and!; try done.
    rewrite Hpx. apply (map_find_sorted cmp Hcmp); done.
  - destruct (Hok _ _ Hqx) as [_ Hprx]. destruct (Hprx x Hxq) as [_ Hpx].
    destruct (Hok _ _ Hqy) as [_ Hpry]. destruct (Hpry y Hyq) as [_ Hpy].
    left. by rewrite Hpx, Hpy.
Qed.

Lemma price_time_order_irrefl m x y :
  sorted_keys cmp m → NoDup (ids (flat m)) →
  price_time_order cmp m x y → price_time_order cmp m y x → False.
Proof.
  intros Hs Hnd [Hxy|(Hp & q & i & j & Hq & Hi & Hj & Hij)]
    [Hyx|(Hp' & q' & j' & i' & Hq' & Hj' & Hi' & Hji)].
  - pose proof (comparator_trans _ _ _ _ Hcmp Hxy Hyx) as H.
    by rewrite comparator_irrefl in H.
  - rewrite Hp', comparator_irrefl in Hxy; done.
  - rewrite Hp, comparator_irrefl in Hyx; done.
  - rewrite <-Hp, Hq in Hq'. injection Hq' as <-.
    assert (NoDup q) as Hndq.
    { eapply (NoDup_fmap_1 GetOrderId), NoDup_ids_bucket; [|done].
      by eapply map_find_Some. }
    pose proof (NoDup_lookup _ _ _ _ Hndq Hi Hi').
    pose proof (NoDup_lookup _ _ _ _ Hndq Hj Hj'). lia.
Qed.

(** The converse: priority is position in [flat]. *)
Lemma priority_position m x y :
  sorted_keys cmp m → side_ok s m → NoDup (ids (flat m)) →
  x ∈ flat m → y ∈ flat m → price_time_order cmp m x y →
  ∃ i j, (i < j)%nat ∧ flat m !! i = Some x ∧ flat m !! j = Some y.
Proof.
  intros Hs Hok Hnd [i Hi]%list_elem_of_lookup [j Hj]%list_elem_of_lookup Hxy.
  exists i, j. split; [|done].
  destruct (Nat.lt_trichotomy i j) as [?|[->|Hji]]; [done|exfalso..].
  - assert (x = y) as -> by congruence.
    by eapply price_time_order_irrefl.
  - eapply price_time_order_irrefl; [done..|].
    by eapply flat_priority.
Qed.

End Priority.

Lemma matched_priority_asks b trades b' b1 kb ka i j x y :
  wf b → matched b trades b' b1 kb ka → (i < j)%nat →
  flat (asks_ b) !! i = Some x → flat (asks_ b) !! j = Some y →
  GetOrderId y ∈ ask_ids trades →
  (GetOrderId x ∉ ids (flat (asks_ b1))) ∧ (GetOrderId x ∉ ids (flat (asks_ b'))).
Proof.
  intros Hwf Hm Hij Hx Hy Htraded.
  pose proof (wf_nodup _ Hwf) as Hnd. unfold book_orders in Hnd.
  rewrite ids_app in Hnd. apply NoDup_app in Hnd as (_ & _ & Hnd).
  apply list_elem_of_fmap in Htraded as (t & Hid & Ht).
  pose proof (matched_trades _ _ _ _ _ _ Hm) as Htr.
  eapply Forall_forall in Htr; [|done].
  destruct Htr as (_ & _ & j' & _ & ao & _ & Hj' & _ & Hao & _ & Hida & _).
  assert (j' = j) as ->.
  { eapply NoDup_lookup; [exact Hnd| |]; unfold ids; rewrite list_lookup_fmap.
    - by rewrite Hao.
    - rewrite Hy. simpl. congruence. }
  assert (GetOrderId x ∉ ids (flat (asks_ b1))) as Hgone.
  { intros (x' & Hx' & Hidx)%elem_of_ids.
    pose proof (residue_survivors _ _ _ (GetOrderId x)
                  (matched_asks _ _ _ _ _ _ Hm) Hnd) as [Hgone _].
    destruct Hgone as [Hnotin _]; [by eauto|].
    apply Hnotin, elem_of_take. exists i. split; [|lia].
    unfold ids. rewrite list_lookup_fmap. by rewrite Hx. }
  split; [done|]. intros (x' & Hx' & Hidx)%elem_of_ids.
  apply (matched_asks_left _ _ _ _ _ _ Hm) in Hx'.
  apply Hgone, elem_of_ids. eauto.
Qed.

Lemma matched_priority_bids b trades b' b1 kb ka i j x y :
  wf b → matched b trades b' b1 kb ka → (i < j)%nat →
  flat (bids_ b) !! i = Some x → flat (bids_ b) !! j = Some y →
  GetOrderId y ∈ bid_ids trades →
  (GetOrderId x ∉ ids (flat (bids_ b1))) ∧ (GetOrderId x ∉ ids (flat (bids_ b'))).
Proof.
  intros Hwf Hm Hij Hx Hy Htraded.
  pose proof (wf_nodup _ Hwf) as Hnd. unfold book_orders in Hnd.
  rewrite ids_app in Hnd. apply NoDup_app in Hnd as (Hnd & _ & _).
  apply list_elem_of_fmap in Htraded as (t & Hid & Ht).
  pose proof (matched_trades _ _ _ _ _ _ Hm) as Htr.
  eapply Forall_forall in Htr; [|done].
  destruct Htr as (_ & i' & _ & bo & _ & Hi' & _ & Hbo & _ & Hidb & _).
  assert (i' = j) as ->.
  { eapply NoDup_lookup; [exact Hnd| |]; unfold ids; rewrite list_lookup_fmap.
    - by rewrite Hbo.
    - rewrite Hy. simpl. congruence. }
  assert (GetOrderId x ∉ ids (flat (bids_ b1))) as Hgone.
  { intros (x' & Hx' & Hidx)%elem_of_ids.
    pose proof (residue_survivors _ _ _ (GetOrderId x)
                  (matched_bids _ _ _ _ _ _ Hm) Hnd) as [Hgone _].
    destruct Hgone as [Hnotin _]; [by eauto|].
    apply Hnotin, elem_of_take. exists i. split; [|lia].
    unfold ids. rewrite list_lookup_fmap. by rewrite Hx. }
  split; [done|]. intros (x' & Hx' & Hidx)%elem_of_ids.
  apply (matched_bids_left _ _ _ _ _ _ Hm) in Hx'.
  apply Hgone, elem_of_ids. eauto.
Qed.

(** ** Conservation of quantity

    What the trades fill of an order is what leaves its remaining quantity. *)

Lemma filled_bid_app id l k :
  filled_bid id (l ++ k) = filled_bid id l + filled_bid id k.
Proof. unfold filled_bid. induction l; simpl; lia. Qed.

Lemma filled_ask_app id l k :
  filled_ask id (l ++ k) = filled_ask id l + filled_ask id k.
Proof. unfold filled_ask. induction l; simpl; lia. Qed.

Lemma remaining_of_app id l k :
  remaining_of id (l ++ k) = remaining_of id l + remaining_of id k.
Proof. unfold remaining_of. induction l; simpl; lia. Qed.

Lemma remaining_of_absent id l : id ∉ ids l → remaining_of id l = 0.
Proof.
  unfold remaining_of. induction l as [|o l IH]; simpl; [done|].
  rewrite not_elem_of_cons. intros [Hne Hl].
  destruct (Z.eqb_spec (GetOrderId o) id); [done|]. rewrite IH by done. lia.
Qed.

Lemma remaining_of_elem id l o :
  NoDup (ids l) → o ∈ l → GetOrderId o = id →
  remaining_of id l = GetRemainingQuantity o.
Proof.
  intros Hnd Ho <-. apply list_elem_of_split in Ho as (l1 & l2 & ->).
  rewrite ids_app in Hnd. simpl in Hnd.
  apply NoDup_app in Hnd as (_ & Hdisj & [Hnotin _]%NoDup_cons).
  rewrite remaining_of_app.
  rewrite (remaining_of_absent _ l1).
  - unfold remaining_of at 1. simpl. fold (remaining_of (GetOrderId o) l2).
    rewrite Z.eqb_refl, remaining_of_absent by done. lia.
  - intros Hin. apply (Hdisj _ Hin). left.
Qed.

Lemma filled_bid_absent id trades : id ∉ bid_ids trades → filled_bid id trades = 0.
Proof.
  unfold filled_bid, bid_ids. induction trades as [|t l IH]; simpl; [done|].
  rewrite not_elem_of_cons. intros [Hne Hl].
  destruct (Z.eqb_spec (TradeInfo.orderId (bid t)) id); [done|].
  rewrite IH by done. lia.
Qed.

Lemma filled_ask_absent id trades : id ∉ ask_ids trades → filled_ask id trades = 0.
Proof.
  unfold filled_ask, ask_ids. induction trades as [|t l IH]; simpl; [done|].
  rewrite not_elem_of_cons. intros [Hne Hl].
  destruct (Z.eqb_spec (TradeInfo.orderId (ask t)) id); [done|].
  rewrite IH by done. lia.
Qed.

Lemma match_level_conserves fuel bp ap s s' id :
  match_level fuel bp ap s = Ok s' →
  filled_bid id (lv_trades s') + remaining_of id (lv_bids s') =
  filled_bid id (lv_trades s) + remaining_of id (lv_bids s) ∧
  filled_ask id (lv_trades s') + remaining_of id (lv_asks s') =
  filled_ask id (lv_trades s) + remaining_of id (lv_asks s).
Proof.
  revert s. induction fuel as [|fuel IH]; intros [bids asks orders data trades];
    simpl.
  - destruct bids, asks; intros [= <-]; done.
  - destruct bids as [|bid bids']; [by intros [= <-]|].
    destruct asks as [|ask asks']; [by intros [= <-]|].
    rewrite Fill_min_l, Fill_min_r. simpl.
    set (qty := Z.min (GetRemainingQuantity bid) (GetRemainingQuantity ask)).
    intros Hrun. apply IH in Hrun as [Hb Ha]. simpl in Hb, Ha.
    rewrite Hb, Ha, filled_bid_app, filled_ask_app.
    unfold IsFilled. simpl.
    split.
    + destruct (Z.eqb_spec (GetRemainingQuantity bid - qty) 0);
        unfold remaining_of, filled_bid; simpl;
        destruct (Z.eqb_spec (GetOrderId bid) id); lia.
    + destruct (Z.eqb_spec (GetRemainingQuantity ask - qty) 0);
        unfold remaining_of, filled_ask; simpl;
        destruct (Z.eqb_spec (GetOrderId ask) id); lia.
Qed.

Lemma flat_head_after cmp p (q : list Order) rest :
  comparator cmp → sorted_keys cmp ((p, q) :: rest) →
  flat (if bool_decide (q = []) then map_erase p ((p, q) :: rest)
        else (p, q) :: rest) = q ++ flat rest.
Proof.
  intros Hcmp Hs. case_bool_decide as Hnil; [|done].
  subst q. by rewrite (map_erase_head cmp).
Qed.

Lemma sorted_head_after cmp p (q q' : list Order) rest :
  comparator cmp → sorted_keys cmp ((p, q) :: rest) →
  sorted_keys cmp (if bool_decide (q' = []) then map_erase p ((p, q') :: rest)
                   else (p, q') :: rest).
Proof.
  intros Hcmp Hs. case_bool_decide; [|done].
  by apply (map_erase_sorted cmp ((p, q') :: rest)).
Qed.

Lemma match_loop_conserves fuel b trades trades' b' id :
  sorted_keys greater (bids_ b) → sorted_keys less (asks_ b) →
  match_loop fuel b trades = Ok (trades', b') →
  filled_bid id trades' + remaining_of id (flat (bids_ b')) =
  filled_bid id trades + remaining_of id (flat (bids_ b)) ∧
  filled_ask id trades' + remaining_of id (flat (asks_ b')) =
  filled_ask id trades + remaining_of id (flat (asks_ b)).
Proof.
  revert b trades. induction fuel as [|fuel IH];
    intros [bids asks orders data] trades;
    cbn [match_loop bids_ asks_ orders_ data_]; intros Hsb Hsa.
  - destruct bids as [|[bp bq] brest]; [by intros [= <- <-]|].
    destruct asks as [|[ap aq] arest]; [by intros [= <- <-]|].
    destruct (bp <? ap); [by intros [= <- <-]|done].
  - destruct bids as [|[bp bq] brest]; [by intros [= <- <-]|].
    destruct asks as [|[ap aq] arest]; [by intros [= <- <-]|].
    destruct (bp <? ap); [by intros [= <- <-]|].
    intros Hrun. inv_bind Hrun. rename a into s'.
    pose proof (match_level_conserves _ _ _ _ _ id Ha) as [Hb Hk].
    simpl in Hb, Hk.
    apply IH in Hrun as [Hb' Hk']; cbn [bids_ asks_].
    + cbn [bids_ asks_] in Hb', Hk'.
      rewrite (flat_head_after greater) in Hb' by first [exact Hsb|constructor].
      rewrite (flat_head_after less) in Hk' by first [exact Hsa|constructor].
      rewrite !flat_cons, !remaining_of_app in *. lia.
    + apply (sorted_head_after greater _ bq); [constructor|exact Hsb].
    + apply (sorted_head_after less _ aq); [constructor|exact Hsa].
Qed.



(** * Level snapshots *)

Lemma total_app l k : total (l ++ k) = total l + total k.
Proof. unfold total. induction l; simpl; lia. Qed.

Lemma total_remaining_bound l :
  Forall valid_order l →
  0 ≤ total (GetRemainingQuantity <$> l) ≤ Z.of_nat (length l) * (UINT32_MOD - 1).
Proof.
  induction 1 as [|o l [Ho Hi] Hl IH]; [simpl; unfold total; simpl; lia|].
  rewrite fmap_cons. change (total (?x :: ?l)) with (x + total l).
  rewrite length_cons, Nat2Z.inj_succ. lia.
Qed.

Lemma level_quantity_fold l acc :
  fold_left (fun qty o => (qty + GetRemainingQuantity o) mod UINT64_MOD) l
    (acc mod UINT64_MOD) =
  (acc + total (GetRemainingQuantity <$> l)) mod UINT64_MOD.
Proof.
  unfold total. revert acc.
  induction l as [|o l IH]; intros acc; rewrite ?fmap_cons; cbn [fold_left foldr].
  - by rewrite Z.add_0_r.
  - rewrite Zplus_mod_idemp_l, IH. f_equal. lia.
Qed.

(** The 64-bit sum of a queue is exact as long as the queue has no more
    than [2^32] orders. *)
Lemma level_quantity_exact l :
  Forall valid_order l → Z.of_nat (length l) ≤ UINT32_MOD →
  level_quantity l = total (GetRemainingQuantity <$> l).
Proof.
  intros Hv Hlen. unfold level_quantity.
  change 0 with (0 mod UINT64_MOD) at 1. rewrite level_quantity_fold. simpl.
  apply Z.mod_small. pose proof (total_remaining_bound l Hv).
  unfold UINT32_MOD, UINT64_MOD in *. nia.
Qed.

Lemma levels_loop_take depth levels out :
  levels_loop depth levels out =
  out ++ take (N.to_nat depth - length out)
           ((fun pq => (pq.1, level_quantity pq.2)) <$> levels).
Proof.
  revert out. induction levels as [|[p lvl] rest IH]; intros out; simpl.
  - by rewrite take_nil, app_nil_r.
  - destruct (N.leb_spec depth (N.of_nat (length out))) as [Hle|Hlt].
    + replace (N.to_nat depth - length out)%nat with 0%nat by lia.
      by rewrite app_nil_r.
    + rewrite IH, length_app. simpl.
      replace (N.to_nat depth - length out)%nat
        with (S (N.to_nat depth - (length out + 1))) by lia.
      simpl. by rewrite <-app_assoc.
Qed.

(** The number of orders in the queues is the number of live orders. *)
Lemma book_orders_length b : wf b → length (book_orders b) = Size b.
Proof.
  intros Hwf. unfold Size. rewrite <-length_map_to_list.
  rewrite <-(length_fmap GetOrderId), <-(length_fmap fst (map_to_list _)).
  apply Permutation_length, NoDup_Permutation.
  - apply Hwf.
  - apply NoDup_fst_map_to_list.
  - intros id. fold (ids (book_orders b)). rewrite elem_of_ids. split.
    + intros (o & Ho & Hid). apply list_elem_of_fmap.
      exists (id, entry_of o). split; [done|].
      apply elem_of_map_to_list, (wf_index _ Hwf). eauto.
    + intros ([id' e] & -> & He)%list_elem_of_fmap.
      apply elem_of_map_to_list, (wf_index _ Hwf) in He as (o & ? & ? & _).
      eauto.
Qed.

Lemma bucket_length m p q :
  (p, q) ∈ m → (length q ≤ length (flat m))%nat.
Proof.
  intros Hin. apply list_elem_of_split in Hin as (m1 & m2 & ->).
  unfold flat. rewrite fmap_app, join_app. simpl. rewrite !length_app. lia.
Qed.

Lemma levels_exact m (bound : nat) :
  Forall valid_order (flat m) → (length (flat m) ≤ bound)%nat →
  Z.of_nat bound ≤ UINT32_MOD →
  (fun pq => (pq.1, level_quantity pq.2)) <$> m = level_of <$> m.
Proof.
  intros Hv Hlen Hbound. apply list_fmap_ext. intros i [p q] Hi.
  apply list_elem_of_lookup_2 in Hi. unfold level_of. simpl. f_equal.
  apply level_quantity_exact.
  - apply Forall_forall. intros o Ho. eapply Forall_forall in Hv; [done|].
    apply elem_of_flat. eauto.
  - pose proof (bucket_length _ _ _ Hi). lia.
Qed.

Lemma total_levels m :
  total (snd <$> (level_of <$> m)) = total (GetRemainingQuantity <$> flat m).
Proof.
  induction m as [|[p q] m IH]; [done|].
  rewrite flat_cons, fmap_app, total_app, <-IH. done.
Qed.

Lemma live_ids_of_side b s id :
  wf b →
  (∃ o, o ∈ flat (own_side s b) ∧ GetOrderId o = id) ↔
  (∃ e, orders_ b !! id = Some e ∧ entry_side e = s).
Proof.
  intros Hwf. split.
  - intros (o & Ho & Hid). exists (entry_of o). split.
    + apply (wf_index _ Hwf). exists o. split; [|done].
      unfold book_orders. rewrite elem_of_app.
      destruct s; [by left|by right].
    + simpl. destruct s; by eapply side_ok_flat; [apply Hwf|].
  - intros (e & He & Hs). apply (wf_index _ Hwf) in He as (o & Ho & Hid & ->).
    simpl in Hs. exists o. split; [|done].
    unfold book_orders in Ho. apply elem_of_app in Ho as [Ho|Ho].
    + destruct (side_ok_flat _ _ _ (wf_bids_ok _ Hwf) Ho) as [Hside _].
      destruct s; [done|congruence].
    + destruct (side_ok_flat _ _ _ (wf_asks_ok _ Hwf) Ho) as [Hside _].
      destruct s; [congruence|done].
Qed.

Lemma levels_loop_exact depth m (bound : nat) :
  Forall valid_order (flat m) → (length (flat m) ≤ bound)%nat →
  Z.of_nat bound ≤ UINT32_MOD →
  levels_loop depth m [] = take (N.to_nat depth) (level_of <$> m).
Proof.
  intros Hv Hlen Hbound. rewrite levels_loop_take. simpl.
  rewrite Nat.sub_0_r. f_equal. by eapply levels_exact.
Qed.

Lemma take_levels_keys depth (m : list (Price * OrderPointers)) :
  (take depth (level_of <$> m)).*1 = take depth (m.*1).
Proof.
  rewrite fmap_take, <-list_fmap_compose. f_equal.
Qed.

Lemma total_take_all depth m :
  (length m ≤ depth)%nat →
  total (snd <$> take depth (level_of <$> m)) =
  total (GetRemainingQuantity <$> flat m).
Proof.
  intros Hlen. rewrite take_ge by (rewrite length_fmap; lia).
  apply total_levels.
Qed.

Lemma reserve_Ok alloc depth :
  (depth ≤ max_size)%N → depth = 0%N ∨ alloc depth = true →
  reserve alloc depth = Ok tt.
Proof.
  intros Hmax Halloc. unfold reserve.
  destruct (N.ltb_spec max_size depth) as [?|_]; [lia|].
  destruct (N.eqb_spec depth 0) as [?|Hpos]; [done|].
  destruct Halloc as [Hz| ->]; done.
Qed.

Lemma reserve_length_error alloc depth :
  (max_size < depth)%N → reserve alloc depth = Throw length_error.
Proof.
  intros Hmax. unfold reserve.
  destruct (N.ltb_spec max_size depth) as [_|?]; [done|lia].
Qed.

Lemma reserve_bad_alloc alloc depth :
  (0 < depth ≤ max_size)%N → alloc depth = false →
  reserve alloc depth = Throw bad_alloc.
Proof.
  intros [Hpos Hmax] Halloc. unfold reserve.
  destruct (N.ltb_spec max_size depth) as [?|_]; [lia|].
  destruct (N.eqb_spec depth 0) as [?|_]; [lia|].
  by rewrite Halloc.
Qed.

(** C7, as the code has it.  [GetBidLevels] and [GetAskLevels] first
    reserve room for [depth] levels.  For a [depth] beyond [max_size()] of
    the vector that throws [std::length_error], and for a [depth] within it
    that the allocator refuses, [std::bad_alloc]: no snapshot is returned.
    For every other [depth] (zero, or one the allocator grants) they return
    the first [depth] levels of their side (all of them when there are
    fewer), best price first: bids by falling price, asks by rising price.
    Each level carries its price and the sum of the remaining quantities of
    the orders in its queue, which the code obtains by walking the queue:
    the level aggregate [data_] is not consulted, whatever it holds.  When
    [depth] covers the whole side the quantities add up to the remaining
    quantities of the orders in the queues of that side, which are, one for
    each identifier, the live orders of that side in the id-lookup.  (The
    sums are 64-bit; they are exact as long as the book holds no more than
    [2^32] orders.) *)
Theorem levels_walk_the_queues b alloc :
  reachable b → Z.of_nat (Size b) ≤ UINT32_MOD →
  (∀ depth, (depth ≤ max_size)%N → depth = 0%N ∨ alloc depth = true →
     ∃ bids asks,
       GetBidLevels alloc depth b = Ok bids ∧
       GetAskLevels alloc depth b = Ok asks ∧
       bids = take (N.to_nat depth) (level_of <$> bids_ b) ∧
       asks = take (N.to_nat depth) (level_of <$> asks_ b) ∧
       length bids = (N.to_nat depth `min` length (bids_ b))%nat ∧
       length asks = (N.to_nat depth `min` length (asks_ b))%nat ∧
       sorted_keys greater bids ∧
       sorted_keys less asks ∧
       (∀ data, GetBidLevels alloc depth (set_data data b) = Ok bids ∧
                GetAskLevels alloc depth (set_data data b) = Ok asks) ∧
       ((length (bids_ b) ≤ N.to_nat depth)%nat →
        total (snd <$> bids) =
        total (GetRemainingQuantity <$> flat (bids_ b))) ∧
       ((length (asks_ b) ≤ N.to_nat depth)%nat →
        total (snd <$> asks) =
        total (GetRemainingQuantity <$> flat (asks_ b)))) ∧
  (∀ depth, (max_size < depth)%N →
     GetBidLevels alloc depth b = Throw length_error ∧
     GetAskLevels alloc depth b = Throw length_error) ∧
  (∀ depth, (0 < depth ≤ max_size)%N → alloc depth = false →
     GetBidLevels alloc depth b = Throw bad_alloc ∧
     GetAskLevels alloc depth b = Throw bad_alloc) ∧
  (∀ s id, (∃ o, o ∈ flat (own_side s b) ∧ GetOrderId o = id) ↔
           (∃ e, orders_ b !! id = Some e ∧ entry_side e = s)) ∧
  NoDup (ids (book_orders b)).
Proof.
  intros [Hwf _ _]%reachable_Inv Hsize.
  pose proof (book_orders_length b Hwf) as Hlen.
  pose proof (wf_quantities _ Hwf) as Hv.
  unfold book_orders in Hlen, Hv. rewrite length_app in Hlen.
  apply Forall_app in Hv as [Hvb Hva].
  assert (∀ depth, levels_loop depth (bids_ b) [] =
                   take (N.to_nat depth) (level_of <$> bids_ b)) as Hb.
  { intros depth. apply (levels_loop_exact _ _ (Size b)); [done|lia|done]. }
  assert (∀ depth, levels_loop depth (asks_ b) [] =
                   take (N.to_nat depth) (level_of <$> asks_ b)) as Ha.
  { intros depth. apply (levels_loop_exact _ _ (Size b)); [done|lia|done]. }
  split_and!.
  - intros depth Hmax Halloc.
    exists (take (N.to_nat depth) (level_of <$> bids_ b)),
           (take (N.to_nat depth) (level_of <$> asks_ b)).
    unfold GetBidLevels, GetAskLevels.
    rewrite (reserve_Ok _ _ Hmax Halloc). cbn [bind set_data bids_ asks_].
    rewrite Hb, Ha. split_and!; try done.
    + by rewrite length_take, length_fmap.
    + by rewrite length_take, length_fmap.
    + unfold sorted_keys. rewrite take_levels_keys.
      eapply StronglySorted_sublist; [apply sublist_take|apply Hwf].
    + unfold sorted_keys. rewrite take_levels_keys.
      eapply StronglySorted_sublist; [apply sublist_take|apply Hwf].
    + intros Hd. by apply total_take_all.
    + intros Hd. by apply total_take_all.
  - intros depth Hmax. unfold GetBidLevels, GetAskLevels.
    by rewrite (reserve_length_error _ _ Hmax).
  - intros depth Hdepth Halloc. unfold GetBidLevels, GetAskLevels.
    by rewrite (reserve_bad_alloc _ _ Hdepth Halloc).
  - intros s id. by apply live_ids_of_side.
  - apply Hwf.
Qed.

Lemma levels_walk_the_queues_witness :
  let b := book_after [ReqAdd (new_Order GoodTillCancel 1 Sell 100 10);
                       ReqAdd (new_Order GoodTillCancel 2 Buy 100 4);
                       ReqAdd (new_Order GoodTillCancel 3 Sell 102 7)] in
  let alloc : Allocator := fun n => (n <=? 1000)%N in
  (∃ asks,
     GetAskLevels alloc 5 b = Ok asks ∧
     asks = [(100, 6); (102, 7)] ∧
     total (snd <$> asks) = total (GetRemainingQuantity <$> flat (asks_ b))) ∧
  GetAskLevels alloc (2 ^ 64 - 1) b = Throw length_error ∧
  GetAskLevels alloc 1001 b = Throw bad_alloc.
Proof.
  intros b alloc.
  assert (reachable b) as Hb by (apply reachable_book_after; solve_valid).
  assert (Z.of_nat (Size b) ≤ UINT32_MOD) as Hsize by (vm_compute; discriminate).
  destruct (levels_walk_the_queues b alloc Hb Hsize)
    as (Hlevels & Hlength & Hbad & _).
  split_and!.
  - destruct (Hlevels 5%N) as (bids & asks & _ & Hasks & _ & Heq & _ & _ & _ & _
                               & _ & _ & Htotal).
    { vm_compute. discriminate. }
    { right. reflexivity. }
    exists asks. split_and!; [exact Hasks| |].
    + rewrite Heq. vm_compute. reflexivity.
    + apply Htotal. vm_compute. lia.
  - apply Hlength. vm_compute. reflexivity.
  - apply Hbad; [|reflexivity]. split; vm_compute; [reflexivity|discriminate].
Defined.

(** C7 as stated fails, in two ways.  The snapshot is not computed from the
    level aggregate: after a buy of 4 at 100 has been filled against an ask
    of 10 resting at 100, the aggregate holds nothing for the price 100; the
    snapshot walks the queue and reports the 6 that remain.  And not every
    depth gives a snapshot: at the largest [size_t] the call throws
    [std::length_error], even with an allocator that grants every
    request. *)
Lemma levels_not_from_aggregate :
  let b := book_after [ReqAdd (new_Order GoodTillCancel 1 Sell 100 10);
                       ReqAdd (new_Order GoodTillCancel 2 Buy 100 4)] in
  let alloc : Allocator := fun _ => true in
  data_ b = [] ∧
  GetAskLevels alloc 5 b = Ok [(100, 6)] ∧
  levels_from_aggregate 5 (asks_ b) (data_ b) = [(100, 0)] ∧
  GetAskLevels alloc (2 ^ 64 - 1) b = Throw length_error ∧
  GetBidLevels alloc (2 ^ 64 - 1) b = Throw length_error.
Proof. vm_compute. split_and!; reflexivity. Qed.

(** * Locking *)

Lemma sound_AddOrder order : valid_order order → sound_call (call_AddOrder order).
Proof.
  intros Hv. constructor. intros b Hb.
  destruct (AddOrder_Inv order b (reachable_Inv b Hb) Hv) as (trades & b' & Hrun & _).
  exists b', (Done (RTrades trades)). rewrite Hrun. simpl.
  split_and!; [done| |constructor].
  by eapply (reachable_step (ReqAdd order)).
Qed.

Lemma reachable_CancelOrderInternal id b :
  reachable b → ∃ b', CancelOrderInternal id b = Ok b' ∧ reachable b'.
Proof.
  intros Hb.
  destruct (CancelOrderInternal_Inv id b (reachable_Inv b Hb)) as (b' & Hrun & _).
  exists b'. split; [done|].
  eapply (reachable_step (ReqCancel id)); [done..|].
  simpl. unfold CancelOrder. by rewrite Hrun.
Qed.

Lemma sound_call_of op : valid_operation op → sound_call (call_of op).
Proof.
  destruct op as [order|id|modify|alloc depth|alloc depth| |]; simpl; intros Hv.
  - by apply sound_AddOrder.
  - constructor. intros b Hb.
    destruct (reachable_CancelOrderInternal id b Hb) as (b' & -> & Hb').
    simpl. exists b', (Done RVoid). split_and!; [done..|constructor].
  - constructor. intros b Hb.
    destruct (orders_ b !! OrderModify.orderId modify) as [entry|].
    + eexists b, _. split_and!; [done..|].
      constructor. intros b1 Hb1.
      destruct (reachable_CancelOrderInternal (OrderModify.orderId modify) b1 Hb1)
        as (b2 & -> & Hb2).
      simpl. eexists b2, _. split_and!; [done..|].
      apply sound_AddOrder.
      unfold valid_order, OrderModify.ToOrderPointer, new_Order. simpl. lia.
    + exists b, (Done (RTrades [])). split_and!; [done..|constructor].
  - constructor. intros b Hb.
    destruct (GetBidLevels alloc depth b); eexists b, _;
      (split_and!; [done..|constructor]).
  - constructor. intros b Hb.
    destruct (GetAskLevels alloc depth b); eexists b, _;
      (split_and!; [done..|constructor]).
  - constructor. intros b Hb. eexists b, _. split_and!; [done..|constructor].
  - constructor. intros b Hb.
    destruct (cancel_all_Inv (GoodForDay_ids (orders_ b)) b (reachable_Inv b Hb))
      as (b' & Hrun & _).
    exists b', (Done RVoid). unfold PruneSweep. rewrite Hrun. simpl.
    split_and!; [done| |constructor].
    eapply (reachable_step ReqPrune); [done..|].
    simpl. unfold PruneSweep. by rewrite Hrun.
Qed.

Lemma run_section_sound i b calls :
  reachable b → Forall sound_call calls →
  ∃ b' calls', run_section i (b, calls) = Ok (b', calls') ∧
               reachable b' ∧ Forall sound_call calls'.
Proof.
  intros Hb Hcalls. unfold run_section. simpl.
  destruct (calls !! i) as [[r|section]|] eqn:Hi; [by eauto| |by eauto].
  eapply Forall_lookup_1 in Hcalls as Hc; [|done].
  inversion Hc as [|? Hsec]; subst.
  destruct (Hsec b Hb) as (b' & c' & -> & Hb' & Hc').
  simpl. exists b', (<[i := c']> calls). split_and!; [done..|].
  by apply Forall_insert.
Qed.

Lemma interleave_sound schedule b calls :
  reachable b → Forall sound_call calls →
  ∃ b' calls', interleave schedule (b, calls) = Ok (b', calls') ∧
               reachable b' ∧ Forall sound_call calls'.
Proof.
  revert b calls. induction schedule as [|i rest IH]; intros b calls Hb Hcalls.
  - by exists b, calls.
  - destruct (run_section_sound i b calls Hb Hcalls) as (b1 & calls1 & Hrun & Hb1 & Hc1).
    simpl. rewrite Hrun. simpl. by apply IH.
Qed.

Lemma run_call_ModifyOrder modify b :
  run_call (call_ModifyOrder modify) b =
  (try (trades, b') := ModifyOrder modify b in Ok (b', RTrades trades)).
Proof.
  unfold ModifyOrder, CancelOrder. simpl.
  destruct (orders_ b !! OrderModify.orderId modify) as [entry|]; [|done].
  simpl. destruct (CancelOrderInternal _ b) as [b1|]; [|done]. simpl.
  destruct (AddOrder _ b1) as [[trades b2]|]; done.
Qed.

Lemma sections_run_ModifyOrder modify b :
  (sections_run (call_ModifyOrder modify) b ≤ 3)%nat.
Proof.
  simpl. destruct (orders_ b !! OrderModify.orderId modify) as [entry|]; simpl;
    [|lia].
  destruct (CancelOrderInternal _ b) as [b1|]; simpl; [|lia].
  destruct (AddOrder _ b1) as [[trades b2]|]; simpl; lia.
Qed.

(** C10 (defect in the code).  ModifyOrder does not hold the lock for its
    duration, and calls are not totally ordered.  Its [scoped_lock] lives
    in a block that ends after the lookup of the order type; [CancelOrder]
    and [AddOrder] then take the lock again, each for itself, so that a
    ModifyOrder of a live order is three critical sections and other callers
    get the lock in between (with no other caller in between, the three
    make up [ModifyOrder]).  With an order 1 resting at 100:
    - a ModifyOrder of order 1 to the price 99 and a CancelOrder of order 1,
      run one after the other, leave an empty book in either order; when
      CancelOrder gets the lock between the lookup and the cancel of
      ModifyOrder, both calls return and order 1 rests at 99, cancelled and
      live;
    - a Size call reads 1 before the ModifyOrder and 1 after it; when it
      gets the lock between the cancel and the add of ModifyOrder it
      reads 0. *)
Theorem ModifyOrder_not_serialisable :
  let b := book_after [ReqAdd (new_Order GoodTillCancel 1 Buy 100 10)] in
  let modify := call_ModifyOrder (OrderModify.mk 1 Buy 99 10) in
  let cancel := call_CancelOrder 1 in
  (∀ m b0,
     run_call (call_ModifyOrder m) b0 =
     (try (trades, b') := ModifyOrder m b0 in Ok (b', RTrades trades))) ∧
  sections_run modify b = 3%nat ∧
  (try st := run_calls [modify; cancel] b in
   Ok (bids_ st.1, asks_ st.1, Size st.1, st.2)) =
  Ok ([], [], 0%nat, [RTrades []; RVoid]) ∧
  (try st := run_calls [cancel; modify] b in
   Ok (bids_ st.1, asks_ st.1, Size st.1, st.2)) =
  Ok ([], [], 0%nat, [RVoid; RTrades []]) ∧
  (try st := interleave [0; 1; 0; 0]%nat (b, [modify; cancel]) in
   Ok (bids_ st.1, asks_ st.1, Size st.1, results st.2)) =
  Ok ([(99, [new_Order GoodTillCancel 1 Buy 99 10])], [], 1%nat,
      [Some (RTrades []); Some RVoid]) ∧
  (try st := run_calls [modify; call_Size] b in Ok st.2) =
  Ok [RTrades []; RSize 1] ∧
  (try st := run_calls [call_Size; modify] b in Ok st.2) =
  Ok [RSize 1; RTrades []] ∧
  (try st := interleave [0; 0; 1; 0]%nat (b, [modify; call_Size]) in
   Ok (results st.2)) =
  Ok [Some (RTrades []); Some (RSize 0)].
Proof.
  split; [exact run_call_ModifyOrder|].
  vm_compute. split_and!; reflexivity.
Qed.

(** * The level aggregate and FillOrKill *)

(** C2 (defect in the code).  The level aggregate does not follow the
    queues.  [data_] is keyed by price alone and [MatchOrders] erases the
    entry of a price as soon as the bucket of one side at that price is
    empty: after a buy of 4 at 100 is filled against an ask of 10 resting at
    100, the ask rests with 6 and is live in the id-lookup, and the
    aggregate holds nothing for the price 100.  An ask of 1 then recreates
    the entry with that order alone, and a fill of 3 of the first ask by a
    buy at 101 drives its 64-bit quantity below zero: the entry reads one
    order and [2^64 - 2], for two orders with 4 remaining. *)
Theorem level_aggregate_lost :
  let b1 := book_after [ReqAdd (new_Order GoodTillCancel 1 Sell 100 10);
                        ReqAdd (new_Order GoodTillCancel 2 Buy 100 4)] in
  let b2 := book_after [ReqAdd (new_Order GoodTillCancel 1 Sell 100 10);
                        ReqAdd (new_Order GoodTillCancel 2 Buy 100 4);
                        ReqAdd (new_Order GoodTillCancel 3 Sell 100 1);
                        ReqAdd (new_Order GoodTillCancel 4 Buy 101 3)] in
  asks_ b1 = [(100, [mkOrder GoodTillCancel 1 Sell 100 10 6])] ∧
  orders_ b1 !! 1 = Some (mkEntry GoodTillCancel Sell 100) ∧
  data_ b1 = [] ∧
  asks_ b2 = [(100, [mkOrder GoodTillCancel 1 Sell 100 10 3;
                     mkOrder GoodTillCancel 3 Sell 100 1 1])] ∧
  data_ b2 = [(100, LevelData.mk 1 18446744073709551614)].
Proof. vm_compute. split_and!; reflexivity. Qed.

(** C1 (defect in the code).  FillOrKill is not all-or-nothing, because
    [CanFullyFill] reads the level aggregate, which does not follow the
    queues.  With an ask of 6 resting at 100 and
    no aggregate for that price, a FillOrKill buy of 6 at 100 is rejected
    although it could be filled in full.  With asks of 3 and 1 resting at
    100 and an aggregate that reads [2^64 - 2], a FillOrKill buy of 10 at
    100 is accepted: it trades 3 and 1 and then rests in the book with 6
    remaining. *)
Theorem FillOrKill_not_all_or_nothing :
  let b1 := book_after [ReqAdd (new_Order GoodTillCancel 1 Sell 100 10);
                        ReqAdd (new_Order GoodTillCancel 2 Buy 100 4)] in
  let b2 := book_after [ReqAdd (new_Order GoodTillCancel 1 Sell 100 10);
                        ReqAdd (new_Order GoodTillCancel 2 Buy 100 4);
                        ReqAdd (new_Order GoodTillCancel 3 Sell 100 1);
                        ReqAdd (new_Order GoodTillCancel 4 Buy 101 3)] in
  asks_ b1 = [(100, [mkOrder GoodTillCancel 1 Sell 100 10 6])] ∧
  CanFullyFill Buy 100 6 b1 = false ∧
  AddOrder (new_Order FillOrKill 3 Buy 100 6) b1 = Ok ([], b1) ∧
  asks_ b2 = [(100, [mkOrder GoodTillCancel 1 Sell 100 10 3;
                     mkOrder GoodTillCancel 3 Sell 100 1 1])] ∧
  CanFullyFill Buy 100 10 b2 = true ∧
  (try (trades, b') := AddOrder (new_Order FillOrKill 5 Buy 100 10) b2 in
   Ok (trades, bids_ b', asks_ b', Size b')) =
  Ok ([mkTrade (TradeInfo.mk 5 100 3) (TradeInfo.mk 1 100 3);
       mkTrade (TradeInfo.mk 5 100 1) (TradeInfo.mk 3 100 1)],
      [(100, [mkOrder FillOrKill 5 Buy 100 10 6])], [], 1%nat).
Proof. vm_compute. split_and!; reflexivity. Qed.
(** * The book between calls *)

(** Every book that a sequence of requests leaves behind is consistent and
    uncrossed: both sides are sorted by priority with no empty bucket, every
    queued order sits on its own side at its own price, no id is queued
    twice, the id-lookup holds exactly the queued orders, [Size] counts them,
    and the best bid is below the best ask. *)
Theorem book_consistent_and_uncrossed b :
  reachable b →
  sorted_keys greater (bids_ b) ∧ sorted_keys less (asks_ b) ∧
  side_ok Buy (bids_ b) ∧ side_ok Sell (asks_ b) ∧
  NoDup (ids (book_orders b)) ∧
  (∀ id e, orders_ b !! id = Some e ↔
     ∃ o, o ∈ book_orders b ∧ GetOrderId o = id ∧ e = entry_of o) ∧
  Size b = length (book_orders b) ∧
  (∀ pb pa, pb ∈ (bids_ b).*1 → pa ∈ (asks_ b).*1 → pb < pa).
Proof.
  intros Hb. destruct (reachable_Inv b Hb) as [Hwf Hun _].
  split_and!; try apply Hwf.
  - symmetry. by apply book_orders_length.
  - exact Hun.
Qed.

Lemma book_consistent_and_uncrossed_witness :
  let b := book_after [ReqAdd (new_Order GoodTillCancel 1 Sell 101 5);
                       ReqAdd (new_Order GoodTillCancel 2 Buy 99 7);
                       ReqAdd (new_Order GoodTillCancel 3 Buy 101 2)] in
  reachable b ∧ Size b = 2%nat ∧
  (∀ pb pa, pb ∈ (bids_ b).*1 → pa ∈ (asks_ b).*1 → pb < pa).
Proof.
  intros b.
  assert (Hb : reachable b) by (apply reachable_book_after; solve_valid).
  split; [exact Hb|]. split; [reflexivity|].
  apply (book_consistent_and_uncrossed b Hb).
Defined.

(** * The level aggregate *)

(** ** Its counters stay within their types *)

Lemma map_put_Forall {V} (P : Price * V → Prop) cmp k v (m : list (Price * V)) :
  P (k, v) → Forall P m → Forall P (map_put cmp k v m).
Proof.
  intros Hkv. induction m as [|[k' v'] m IH]; intros Hm; simpl.
  - by constructor.
  - apply Forall_cons in Hm as [Hh Hm].
    destruct (k =? k'); [by constructor|].
    destruct (cmp k k'); constructor; auto.
Qed.

Lemma map_erase_Forall {V} (P : Price * V → Prop) k (m : list (Price * V)) :
  Forall P m → Forall P (map_erase k m).
Proof.
  induction m as [|[k' v'] m IH]; intros Hm; simpl; [done|].
  apply Forall_cons in Hm as [Hh Hm].
  destruct (k =? k'); [auto|constructor; auto].
Qed.

Lemma map_find_Forall {V} (P : Price * V → Prop) k v (m : list (Price * V)) :
  Forall P m → map_find k m = Some v → P (k, v).
Proof.
  induction m as [|[k' v'] m IH]; intros Hm; simpl; [done|].
  apply Forall_cons in Hm as [Hh Hm].
  destruct (Z.eqb_spec k k') as [->|_]; [by intros [= <-]|auto].
Qed.

Lemma UINT32_MOD_pos : 0 < UINT32_MOD.
Proof. done. Qed.

Lemma UINT64_MOD_pos : 0 < UINT64_MOD.
Proof. done. Qed.

Lemma OnOrderAdded_in_range o data :
  data_in_range data → data_in_range (OnOrderAdded o data).
Proof.
  intros Hd. apply map_put_Forall; [|done]. simpl.
  split; apply Z.mod_pos_bound; [apply UINT32_MOD_pos|apply UINT64_MOD_pos].
Qed.

Lemma store_level_in_range p ld data :
  0 ≤ LevelData.count ld < UINT32_MOD →
  0 ≤ LevelData.quantity ld < UINT64_MOD →
  data_in_range data → data_in_range (store_level p ld data).
Proof.
  intros Hc Hq Hd. unfold store_level.
  destruct (LevelData.count ld =? 0).
  - by apply map_erase_Forall.
  - by apply map_put_Forall.
Qed.

Lemma OnOrderCancelled_in_range o data :
  data_in_range data → data_in_range (OnOrderCancelled o data).
Proof.
  intros Hd. unfold OnOrderCancelled.
  destruct (map_find (GetPrice o) data) as [ld|]; [|done].
  apply store_level_in_range; [| |done]; simpl;
    apply Z.mod_pos_bound; [apply UINT32_MOD_pos|apply UINT64_MOD_pos].
Qed.

Lemma OnOrderMatched_in_range p qty full data :
  data_in_range data → data_in_range (OnOrderMatched p qty full data).
Proof.
  intros Hd. unfold OnOrderMatched.
  destruct (map_find p data) as [ld|] eqn:Hf; [|done].
  apply (map_find_Forall _ _ _ _ Hd) in Hf as [Hc _]. simpl in Hc.
  apply store_level_in_range; [| |done]; simpl.
  - destruct full; [apply Z.mod_pos_bound, UINT32_MOD_pos|done].
  - apply Z.mod_pos_bound, UINT64_MOD_pos.
Qed.

Lemma match_level_in_range fuel bp ap s s' :
  match_level fuel bp ap s = Ok s' →
  data_in_range (lv_data s) → data_in_range (lv_data s').
Proof.
  revert s. induction fuel as [|fuel IH]; intros [bids asks orders data trades];
    cbn [match_level lv_bids lv_asks lv_orders lv_data lv_trades].
  - destruct bids as [|bid bids]; [by intros [= <-]|].
    destruct asks as [|ask asks]; [by intros [= <-]|done].
  - destruct bids as [|bid bids]; [by intros [= <-]|].
    destruct asks as [|ask asks]; [by intros [= <-]|].
    intros Hrun Hd. inv_bind Hrun. inv_bind Hrun.
    apply IH in Hrun; [done|]. cbn [lv_data].
    by do 2 apply OnOrderMatched_in_range.
Qed.

Lemma match_loop_in_range fuel b trades trades' b' :
  match_loop fuel b trades = Ok (trades', b') →
  data_in_range (data_ b) → data_in_range (data_ b').
Proof.
  revert b trades. induction fuel as [|fuel IH];
    intros [bids asks orders data] trades;
    cbn [match_loop bids_ asks_ orders_ data_].
  - destruct bids as [|[bp bq] brest]; [by intros [= <- <-]|].
    destruct asks as [|[ap aq] arest]; [by intros [= <- <-]|].
    destruct (bp <? ap); [by intros [= <- <-]|done].
  - destruct bids as [|[bp bq] brest]; [by intros [= <- <-]|].
    destruct asks as [|[ap aq] arest]; [by intros [= <- <-]|].
    destruct (bp <? ap); [by intros [= <- <-]|].
    intros Hrun Hd. inv_bind Hrun.
    apply match_level_in_range in Ha; [|done]. cbn [lv_data] in Ha.
    apply IH in Hrun; [done|]. cbn [data_].
    destruct (bool_decide (lv_asks a = [])), (bool_decide (lv_bids a = []));
      repeat apply map_erase_Forall; done.
Qed.

Lemma CancelOrderInternal_in_range id b b' :
  CancelOrderInternal id b = Ok b' →
  data_in_range (data_ b) → data_in_range (data_ b').
Proof.
  unfold CancelOrderInternal.
  destruct (orders_ b !! id) as [e|]; [|by intros [= <-]].
  destruct (entry_side e); intros Hrun Hd; inv_bind Hrun;
    destruct a as [o m]; injection Hrun as <-; simpl;
    by apply OnOrderCancelled_in_range.
Qed.

Lemma MatchOrders_in_range b trades b' :
  MatchOrders b = Ok (trades, b') →
  data_in_range (data_ b) → data_in_range (data_ b').
Proof.
  unfold MatchOrders. intros Hrun Hd.
  inv_bind Hrun. destruct a as [trades1 b1].
  apply match_loop_in_range in Ha; [|done].
  inv_bind Hrun. inv_bind Hrun. injection Hrun as <- <-.
  assert (data_in_range (data_ a)) as Hd2.
  { destruct (front_FillAndKill (bids_ b1)).
    - by eapply CancelOrderInternal_in_range.
    - by injection Ha0 as <-. }
  destruct (front_FillAndKill (asks_ a)).
  - by eapply CancelOrderInternal_in_range.
  - by injection Ha1 as <-.
Qed.

Lemma insert_order_in_range o b :
  data_in_range (data_ b) → data_in_range (data_ (insert_order o b)).
Proof.
  intros Hd. unfold insert_order.
  destruct (GetSide o); simpl; by apply OnOrderAdded_in_range.
Qed.

Lemma AddOrder_in_range o b trades b' :
  AddOrder o b = Ok (trades, b') →
  data_in_range (data_ b) → data_in_range (data_ b').
Proof.
  intros Hrun Hd. destruct (AddOrder_cases o b) as [Hno|(o' & _ & _ & _ & _ & Hadd)].
  - rewrite Hno in Hrun. by injection Hrun as <- <-.
  - rewrite Hadd in Hrun. eapply MatchOrders_in_range; [done|].
    by apply insert_order_in_range.
Qed.

Lemma cancel_all_in_range l b b' :
  cancel_all l b = Ok b' → data_in_range (data_ b) → data_in_range (data_ b').
Proof.
  revert b. induction l as [|id l IH]; intros b; simpl.
  - by intros [= <-].
  - intros Hrun Hd. inv_bind Hrun.
    eapply IH; [done|]. by eapply CancelOrderInternal_in_range.
Qed.

Lemma step_in_range r b trades b' :
  step r b = Ok (trades, b') →
  data_in_range (data_ b) → data_in_range (data_ b').
Proof.
  destruct r as [o|id|m|]; simpl; intros Hrun Hd.
  - by eapply AddOrder_in_range.
  - inv_bind Hrun. injection Hrun as <- <-.
    by eapply CancelOrderInternal_in_range.
  - unfold ModifyOrder in Hrun.
    destruct (orders_ b !! OrderModify.orderId m); [|by injection Hrun as <- <-].
    inv_bind Hrun. eapply AddOrder_in_range; [done|].
    by eapply CancelOrderInternal_in_range.
  - inv_bind Hrun. injection Hrun as <- <-. by eapply cancel_all_in_range.
Qed.

Lemma run_in_range rs b b' :
  run rs b = Ok b' → data_in_range (data_ b) → data_in_range (data_ b').
Proof.
  revert b. induction rs as [|r rs IH]; intros b; simpl.
  - by intros [= <-].
  - intros Hrun Hd. inv_bind Hrun. destruct a as [trades b1].
    eapply IH; [done|]. by eapply step_in_range.
Qed.

Lemma reachable_in_range b : reachable b → data_in_range (data_ b).
Proof.
  intros (rs & _ & Hrun). eapply run_in_range; [done|]. constructor.
Qed.

(** ** What [CanMatch] and [CanFullyFill] decide *)

Lemma within_limit_sorted s limit p k :
  (match s with Buy => less | Sell => greater end) p k = true →
  within_limit s limit k = true → within_limit s limit p = true.
Proof. destruct s; unfold less, greater, within_limit; lia. Qed.

Lemma opposite_sorted s b :
  wf b →
  sorted_keys (match s with Buy => less | Sell => greater end) (opposite s b).
Proof. intros Hwf. destruct s; apply Hwf. Qed.

Lemma opposite_side_ok s b :
  wf b → side_ok (match s with Buy => Sell | Sell => Buy end) (opposite s b).
Proof. intros Hwf. destruct s; apply Hwf. Qed.

Lemma CanMatch_head s limit b :
  CanMatch s limit b =
  match opposite s b with
  | [] => false
  | (best, _) :: _ => within_limit s limit best
  end.
Proof.
  destruct s; unfold CanMatch, map_begin, within_limit; simpl.
  - destruct (asks_ b) as [|[pa q] rest]; simpl; [done|]. lia.
  - by destruct (bids_ b) as [|[pb q] rest].
Qed.

Lemma CanMatch_within s limit b :
  wf b →
  CanMatch s limit b = true ↔
  ∃ o, o ∈ flat (opposite s b) ∧ within_limit s limit (GetPrice o) = true.
Proof.
  intros Hwf. rewrite CanMatch_head.
  pose proof (opposite_sorted s b Hwf) as Hs.
  pose proof (opposite_side_ok s b Hwf) as Hok.
  destruct (opposite s b) as [|[best q] rest].
  - split; [done|]. intros (o & Ho & _). inversion Ho.
  - split.
    + intros Hbest. apply side_ok_cons in Hok as [[Hq Hqo] _].
      destruct q as [|o q]; [done|]. exists o. split.
      * rewrite flat_cons. apply elem_of_app. left. left.
      * destruct (Hqo o) as [_ ->]; [left|done].
    + intros (o & Ho & Hin).
      destruct (side_ok_flat _ _ _ Hok Ho) as [_ Hk].
      destruct (sorted_keys_head_best _ _ _ _ _ Hs Hk) as [<-|Hlt]; [done|].
      by eapply within_limit_sorted.
Qed.

Lemma aggregate_quantity_nonneg data p :
  data_in_range data → 0 ≤ aggregate_quantity data p.
Proof.
  intros Hd. unfold aggregate_quantity.
  destruct (map_find p data) as [ld|] eqn:Hf; [|done].
  by apply (map_find_Forall _ _ _ _ Hd) in Hf as [_ [? _]].
Qed.

Lemma filter_none {A} (P : A → Prop) `{∀ x, Decision (P x)} (l : list A) :
  Forall (fun x => ¬ P x) l → filter P l = [].
Proof.
  induction 1 as [|x l Hx _ IH]; [done|]. by rewrite filter_cons_False.
Qed.

Lemma total_nonneg l : Forall (fun x => 0 ≤ x) l → 0 ≤ total l.
Proof.
  induction 1 as [|x l Hx _ IH]; [done|]. unfold total in *. simpl. lia.
Qed.

Lemma total_aggregate_nonneg data l :
  data_in_range data → 0 ≤ total (aggregate_quantity data <$> l).
Proof.
  intros Hd. apply total_nonneg, Forall_fmap, Forall_forall.
  intros p _. by apply aggregate_quantity_nonneg.
Qed.

(** The walk of [CanFullyFill] adds up the aggregates of the levels it
    passes: with a positive quantity to find, it succeeds exactly when the
    aggregates at the acceptable prices reach that quantity. *)
Lemma fill_walk_spec s limit beyond data (levels : list (Price * OrderPointers)) r :
  (∀ p, beyond p = negb (within_limit s limit p)) →
  sorted_keys (match s with Buy => less | Sell => greater end) levels →
  data_in_range data → 0 < r →
  fill_walk beyond data levels r =
  bool_decide (r ≤ aggregate_within s limit data levels).
Proof.
  intros Hb Hs Hd. unfold aggregate_within. revert r.
  induction levels as [|[p q] rest IH]; intros r Hr.
  - simpl. symmetry. apply bool_decide_eq_false. unfold total. simpl. lia.
  - apply sorted_keys_cons in Hs as [Hp Hs].
    cbn [fill_walk]. rewrite fmap_cons. cbn [fst]. rewrite Hb.
    destruct (within_limit s limit p) eqn:Hw; cbn [negb].
    + rewrite filter_cons_True by done. rewrite fmap_cons.
      fold (aggregate_quantity data p).
      pose proof (aggregate_quantity_nonneg data p Hd) as Hav.
      pose proof (total_aggregate_nonneg data
        (filter (fun p => within_limit s limit p = true) rest.*1) Hd) as Hrest.
      change (total (aggregate_quantity data p :: ?l))
        with (aggregate_quantity data p + total l).
      destruct (Z.geb_spec (aggregate_quantity data p) r) as [Hge|Hlt].
      * symmetry. apply bool_decide_eq_true. lia.
      * assert ((if aggregate_quantity data p >? 0
                 then r - Z.min (aggregate_quantity data p) r else r)
                = r - aggregate_quantity data p) as ->.
        { destruct (Z.gtb_spec (aggregate_quantity data p) 0); lia. }
        destruct (Z.eqb_spec (r - aggregate_quantity data p) 0); [lia|].
        rewrite IH by (done || lia).
        apply bool_decide_ext. lia.
    + rewrite filter_cons_False by (by rewrite Hw).
      assert (filter (fun p => within_limit s limit p = true) rest.*1 = []) as ->.
      { apply filter_none, Forall_forall. intros k Hk Hwk.
        eapply Forall_forall in Hp; [|done].
        rewrite (within_limit_sorted s limit p k Hp Hwk) in Hw. done. }
      symmetry. apply bool_decide_eq_false. unfold total. simpl. lia.
Qed.

Lemma CanFullyFill_walk s limit qty b :
  CanFullyFill s limit qty b =
  CanMatch s limit b &&
  fill_walk (fun p => negb (within_limit s limit p)) (data_ b) (opposite s b) qty.
Proof.
  unfold CanFullyFill. destruct (CanMatch s limit b); simpl; [|done].
  assert (∀ beyond beyond' data (levels : list (Price * OrderPointers)) r,
    (∀ p, beyond p = beyond' p) →
    fill_walk beyond data levels r = fill_walk beyond' data levels r) as Hext.
  { intros beyond beyond' data levels. induction levels as [|[p q] rest IH];
      intros r Hbb; simpl; [done|]. rewrite Hbb.
    destruct (beyond' p); [done|].
    destruct (_ >=? r); [done|]. destruct (_ =? 0); [done|]. by apply IH. }
  destruct s; simpl; apply Hext; intros p; unfold within_limit; lia.
Qed.

(** [CanMatch] holds exactly when some order resting on the other side is
    priced within the limit: the best level of a side is the first of its
    map, and no level of a book between calls is empty. *)
Theorem CanMatch_finds_an_acceptable_order b s limit :
  reachable b →
  CanMatch s limit b = true ↔
  ∃ o, o ∈ flat (opposite s b) ∧ within_limit s limit (GetPrice o) = true.
Proof. intros Hb. apply CanMatch_within, reachable_Inv, Hb. Qed.

Lemma CanMatch_finds_an_acceptable_order_witness :
  let b := book_after [ReqAdd (new_Order GoodTillCancel 1 Sell 101 5);
                       ReqAdd (new_Order GoodTillCancel 2 Sell 99 3)] in
  reachable b ∧
  CanMatch Buy 100 b = true ∧
  ∃ o, o ∈ flat (opposite Buy b) ∧ within_limit Buy 100 (GetPrice o) = true.
Proof.
  intros b.
  assert (Hb : reachable b) by (apply reachable_book_after; solve_valid).
  split; [exact Hb|]. split; [reflexivity|].
  apply (proj1 (CanMatch_finds_an_acceptable_order b Buy 100 Hb)). reflexivity.
Defined.

Lemma CanFullyFill_aggregate b s limit qty :
  reachable b → 0 ≤ qty →
  CanFullyFill s limit qty b =
  CanMatch s limit b &&
  bool_decide (qty ≤ aggregate_within s limit (data_ b) (opposite s b)).
Proof.
  intros Hb Hqty. pose proof (reachable_in_range b Hb) as Hd.
  pose proof (inv_wf b (reachable_Inv b Hb)) as Hwf.
  rewrite CanFullyFill_walk.
  destruct (CanMatch s limit b) eqn:Hcan; simpl; [|done].
  destruct (decide (qty = 0)) as [->|Hne].
  - rewrite CanMatch_head in Hcan. unfold aggregate_within.
    rewrite bool_decide_eq_true_2 by by apply total_aggregate_nonneg.
    destruct (opposite s b) as [|[best q] rest]; [done|].
    cbn [fill_walk]. rewrite Hcan. cbn [negb].
    pose proof (aggregate_quantity_nonneg (data_ b) best Hd) as Hav.
    unfold aggregate_quantity in Hav.
    destruct (Z.geb_spec
      (match map_find best (data_ b) with
       | Some ld => LevelData.quantity ld
       | None => 0
       end) 0); [done|lia].
  - apply fill_walk_spec; [done|by apply opposite_sorted|done|lia].
Qed.

(** [CanFullyFill] compares the quantity with what the level aggregate
    [data_] records: it holds exactly when the order can match and its
    quantity is at most the sum of the aggregates of the levels of the other
    side at prices within the limit.  The queues of those levels are not
    read. *)
Theorem CanFullyFill_reads_the_aggregate b s limit qty :
  reachable b → 0 ≤ qty →
  CanFullyFill s limit qty b =
  CanMatch s limit b &&
  bool_decide (qty ≤ aggregate_within s limit (data_ b) (opposite s b)).
Proof. apply CanFullyFill_aggregate. Qed.

Lemma CanFullyFill_reads_the_aggregate_witness :
  let b := book_after [ReqAdd (new_Order GoodTillCancel 1 Sell 100 10);
                       ReqAdd (new_Order GoodTillCancel 2 Sell 101 5);
                       ReqAdd (new_Order GoodTillCancel 3 Sell 103 5)] in
  reachable b ∧
  aggregate_within Buy 101 (data_ b) (opposite Buy b) = 15 ∧
  CanFullyFill Buy 101 15 b =
  CanMatch Buy 101 b &&
  bool_decide (15 ≤ aggregate_within Buy 101 (data_ b) (opposite Buy b)) ∧
  CanFullyFill Buy 101 16 b =
  CanMatch Buy 101 b &&
  bool_decide (16 ≤ aggregate_within Buy 101 (data_ b) (opposite Buy b)).
Proof.
  intros b.
  assert (Hb : reachable b) by (apply reachable_book_after; solve_valid).
  split; [exact Hb|]. split; [reflexivity|]. split.
  - apply (CanFullyFill_reads_the_aggregate b Buy 101 15 Hb). lia.
  - apply (CanFullyFill_reads_the_aggregate b Buy 101 16 Hb). lia.
Defined.

(** * CancelOrder *)

Lemma comparator_asym cmp a b :
  comparator cmp → cmp a b = true → cmp b a = false.
Proof. destruct 1; unfold less, greater; lia. Qed.

Lemma flat_app m1 m2 : flat (m1 ++ m2) = flat m1 ++ flat m2.
Proof. unfold flat. by rewrite fmap_app, join_app. Qed.

Lemma filter_all {A} (P : A → Prop) `{∀ x, Decision (P x)} (l : list A) :
  Forall P l → filter P l = l.
Proof.
  induction 1 as [|x l Hx _ IH]; [done|].
  rewrite filter_cons_True by done. by f_equal.
Qed.

Lemma filter_id_absent id l :
  id ∉ ids l → filter (fun x => GetOrderId x ≠ id) l = l.
Proof.
  intros Hid. apply filter_all, Forall_forall. intros x Hx Heq.
  apply Hid, elem_of_ids. by exists x.
Qed.

Lemma bucket_in_flat m k q :
  map_find k m = Some q → ∀ x : Order, x ∈ q → x ∈ flat m.
Proof.
  intros Hf x Hx. apply elem_of_flat. exists k, q. split; [|done].
  by apply map_find_Some.
Qed.

Lemma filter_bucket_absent id (m : list (Price * OrderPointers)) k :
  id ∉ ids (flat m) →
  filter (fun x => GetOrderId x ≠ id) (default [] (map_find k m)) =
  default [] (map_find k m).
Proof.
  intros Hid. destruct (map_find k m) as [q|] eqn:Hf; [|done]. simpl.
  apply filter_id_absent. intros Hin. apply Hid.
  apply elem_of_ids in Hin as (x & Hx & <-). apply elem_of_ids.
  exists x. split; [|done]. by eapply bucket_in_flat.
Qed.

(** [c.erase(it)] leaves the other nodes of the list in their order. *)
Lemma list_erase_filter id q o q' :
  NoDup (ids q) → list_erase id q = Some (o, q') →
  q' = filter (fun x => GetOrderId x ≠ id) q ∧ GetOrderId o = id ∧ o ∈ q.
Proof.
  revert o q'. induction q as [|x q IH]; intros o q' Hnd; [done|].
  unfold ids in Hnd. rewrite fmap_cons in Hnd.
  apply NoDup_cons in Hnd as [Hx Hnd]. fold (ids q) in Hx, Hnd.
  cbn [list_erase]. destruct (Z.eqb_spec (GetOrderId x) id) as [Heq|Hne].
  - intros [= <- <-]. rewrite filter_cons_False by (by intros ?).
    rewrite filter_id_absent by by rewrite <-Heq.
    split_and!; [done|done|left].
  - destruct (list_erase id q) as [[x0 q'']|] eqn:He; [|done].
    intros [= <- <-]. destruct (IH _ _ Hnd eq_refl) as (-> & Hid & Hin).
    rewrite filter_cons_True by done. split_and!; [done|done|by right].
Qed.

Section StdMapSplit.
Context {V : Type}.
Variable cmp : Price → Price → bool.
Hypothesis Hcmp : comparator cmp.

(** In a sorted map the entry of a key stands alone: erasing the key and
    assigning to it touch that entry only. *)
Lemma map_find_split (m : list (Price * V)) k v :
  sorted_keys cmp m → map_find k m = Some v →
  ∃ m1 m2, m = m1 ++ (k, v) :: m2 ∧ map_erase k m = m1 ++ m2 ∧
           ∀ v', map_put cmp k v' m = m1 ++ (k, v') :: m2.
Proof.
  induction m as [|[k0 v0] m IH]; intros Hs; [done|].
  cbn [map_find map_erase map_put].
  destruct (Z.eqb_spec k k0) as [->|Hne].
  - intros [= ->]. exists [], m. split_and!; [done| |done].
    simpl. apply map_erase_fresh. by eapply sorted_keys_head_notin.
  - intros Hf. apply sorted_keys_cons in Hs as [Hk0 Hs].
    destruct (IH Hs Hf) as (m1 & m2 & -> & He & Hp).
    exists ((k0, v0) :: m1), m2. split_and!; [done|by rewrite He|].
    intros v'.
    assert (cmp k k0 = false) as ->.
    { apply comparator_asym; [done|]. eapply Forall_forall in Hk0; [done|].
      rewrite fmap_app. apply elem_of_app. right. left. }
    by rewrite Hp.
Qed.

Lemma map_put_same (m : list (Price * V)) k v :
  sorted_keys cmp m → map_find k m = Some v → map_put cmp k v m = m.
Proof.
  intros Hs Hf. destruct (map_find_split m k v Hs Hf) as (m1 & m2 & Hm & _ & Hp).
  by rewrite Hp.
Qed.

Lemma map_put_put (m : list (Price * V)) k v v' :
  map_put cmp k v (map_put cmp k v' m) = map_put cmp k v m.
Proof.
  induction m as [|[k0 v0] m IH]; simpl.
  - by rewrite Z.eqb_refl.
  - destruct (Z.eqb_spec k k0) as [->|Hne]; simpl.
    + by rewrite Z.eqb_refl.
    + destruct (cmp k k0) eqn:Hc; simpl.
      * by rewrite Z.eqb_refl.
      * destruct (Z.eqb_spec k k0); [done|]. by rewrite Hc, IH.
Qed.

Lemma map_erase_put (m : list (Price * V)) k v :
  k ∉ m.*1 → map_erase k (map_put cmp k v m) = m.
Proof.
  induction m as [|[k0 v0] m IH]; simpl.
  - by rewrite Z.eqb_refl.
  - rewrite not_elem_of_cons. intros [Hne Hnin].
    destruct (Z.eqb_spec k k0) as [->|_]; [done|].
    destruct (cmp k k0); simpl.
    + rewrite Z.eqb_refl. destruct (Z.eqb_spec k k0); [done|].
      by rewrite map_erase_fresh.
    + destruct (Z.eqb_spec k k0); [done|]. by rewrite IH.
Qed.

End StdMapSplit.

(** Taking a node out of its queue leaves every queue of the side as it
    was, but for that node. *)
Lemma erase_from_side_filter cmp s id p m o m' :
  comparator cmp → sorted_keys cmp m → side_ok s m → NoDup (ids (flat m)) →
  erase_from_side cmp id p m = Ok (o, m') →
  GetOrderId o = id ∧ o ∈ flat m ∧
  flat m' = filter (fun x => GetOrderId x ≠ id) (flat m) ∧
  ∀ k, default [] (map_find k m') =
       filter (fun x => GetOrderId x ≠ id) (default [] (map_find k m)).
Proof.
  intros Hcmp Hs Hok Hnd. unfold erase_from_side.
  destruct (map_find p m) as [c|] eqn:Hf; [|done].
  destruct (list_erase id c) as [[o0 c']|] eqn:He; [|done].
  intros [= <- <-].
  assert (NoDup (ids c)) as Hndc.
  { eapply NoDup_ids_bucket; [|done]. by apply map_find_Some. }
  destruct (list_erase_filter id c o0 c' Hndc He) as (Hc' & Hid & Hin).
  assert (o0 ∈ flat m) as Hino by by eapply bucket_in_flat.
  assert (∀ k q x, k ≠ p → map_find k m = Some q → x ∈ q → GetOrderId x ≠ id)
    as Hother.
  { intros k q x Hk Hq Hx Hidx. apply Hk.
    assert (x = o0) as ->.
    { apply (NoDup_ids_inj (flat m)); [done|by eapply bucket_in_flat|done|congruence]. }
    destruct (Hok k q) as [_ Hkq]; [by apply map_find_Some|].
    destruct (Hok p c) as [_ Hpc]; [by apply map_find_Some|].
    destruct (Hkq o0 Hx) as [_ <-]. by destruct (Hpc o0 Hin) as [_ <-]. }
  split_and!; [done|done| |].
  - destruct (map_find_split cmp Hcmp m p c Hs Hf) as (m1 & m2 & Hm & Herase & Hput).
    assert (flat (if bool_decide (c' = []) then map_erase p m
                  else map_put cmp p c' m) = flat m1 ++ c' ++ flat m2) as ->.
    { case_bool_decide as Hnil.
      - by rewrite Herase, Hnil, flat_app.
      - by rewrite Hput, flat_app, flat_cons. }
    rewrite Hm, flat_app, flat_cons, !filter_app, <-Hc'.
    assert (∀ m0, (∀ k q, (k, q) ∈ m0 → k ≠ p ∧ map_find k m = Some q) →
                  filter (fun x => GetOrderId x ≠ id) (flat m0) = flat m0) as Hrest.
    { intros m0 Hm0. apply filter_all, Forall_forall. intros x Hx.
      apply elem_of_flat in Hx as (k & q & Hkq & Hx).
      destruct (Hm0 k q Hkq) as [Hk Hq]. by eapply Hother. }
    assert (NoDup (m.*1)) as Hkeys by by eapply sorted_keys_NoDup.
    rewrite Hm, fmap_app, fmap_cons in Hkeys. simpl in Hkeys.
    apply NoDup_app in Hkeys as (_ & Hk1 & Hk2).
    apply NoDup_cons in Hk2 as [Hk2 _].
    rewrite !Hrest; [done| |].
    + intros k q Hkq. split.
      * intros ->. apply Hk2, list_elem_of_fmap. by exists (p, q).
      * eapply map_find_sorted; [done|done|]. rewrite Hm.
        apply elem_of_app. right. by right.
    + intros k q Hkq. split.
      * intros ->. eapply Hk1; [|left]. apply list_elem_of_fmap. by exists (p, q).
      * eapply map_find_sorted; [done|done|]. rewrite Hm.
        apply elem_of_app. by left.
  - intros k.
    assert (map_find k (if bool_decide (c' = []) then map_erase p m
                        else map_put cmp p c' m) =
            if decide (k = p) then (if bool_decide (c' = []) then None else Some c')
            else map_find k m) as ->.
    { case_bool_decide; [apply map_find_erase|apply map_find_put]. }
    case_decide as Hk.
    + subst k. rewrite Hf. simpl. rewrite <-Hc'. by case_bool_decide; subst.
    + destruct (map_find k m) as [q|] eqn:Hq; [|done]. simpl.
      symmetry. apply filter_all, Forall_forall. intros x Hx. by eapply Hother.
Qed.

Lemma CancelOrderInternal_filter id b b' :
  wf b → CancelOrderInternal id b = Ok b' →
  orders_ b' = delete id (orders_ b) ∧
  flat (bids_ b') = filter (fun x => GetOrderId x ≠ id) (flat (bids_ b)) ∧
  flat (asks_ b') = filter (fun x => GetOrderId x ≠ id) (flat (asks_ b)) ∧
  (∀ k, default [] (map_find k (bids_ b')) =
        filter (fun x => GetOrderId x ≠ id) (default [] (map_find k (bids_ b)))) ∧
  (∀ k, default [] (map_find k (asks_ b')) =
        filter (fun x => GetOrderId x ≠ id) (default [] (map_find k (asks_ b)))).
Proof.
  intros Hwf. unfold CancelOrderInternal.
  pose proof (wf_nodup b Hwf) as Hnd. unfold book_orders in Hnd.
  rewrite ids_app in Hnd. apply NoDup_app in Hnd as (Hndb & Hdisj & Hnda).
  destruct (orders_ b !! id) as [e|] eqn:Hlook.
  - destruct (entry_side e); intros Hrun; inv_bind Hrun;
      destruct a as [o m]; injection Hrun as <-; cbn [bids_ asks_ orders_].
    + eapply erase_from_side_filter in Ha as (Hid & Hin & Hflat & Hb);
        [|constructor|apply Hwf|apply Hwf|done].
      assert (id ∉ ids (flat (asks_ b))) as Hno.
      { intros Hin'. eapply Hdisj; [|done]. apply elem_of_ids. by exists o. }
      split_and!; [done|done| |done|].
      * by rewrite filter_id_absent.
      * intros k. by rewrite filter_bucket_absent.
    + eapply erase_from_side_filter in Ha as (Hid & Hin & Hflat & Hb);
        [|constructor|apply Hwf|apply Hwf|done].
      assert (id ∉ ids (flat (bids_ b))) as Hno.
      { intros Hin'. eapply Hdisj; [done|]. apply elem_of_ids. by exists o. }
      split_and!; [done| |done| |done].
      * by rewrite filter_id_absent.
      * intros k. by rewrite filter_bucket_absent.
  - intros [= <-].
    assert (id ∉ ids (book_orders b)) as Hno.
    { intros (o & Ho & Hid)%elem_of_ids.
      by eapply (index_ok_absent b id o); [apply Hwf|..]. }
    unfold book_orders in Hno. rewrite ids_app in Hno.
    apply not_elem_of_app in Hno as [Hnob Hnoa].
    split_and!.
    + by rewrite delete_id.
    + by rewrite filter_id_absent.
    + by rewrite filter_id_absent.
    + intros k. by rewrite filter_bucket_absent.
    + intros k. by rewrite filter_bucket_absent.
Qed.

(** A cancellation takes the order of that identifier out of its queue and
    out of the id-lookup, and leaves every other order where it stood: the
    orders of each side keep their priority order, level by level. *)
Theorem CancelOrder_keeps_the_other_orders b id :
  reachable b →
  ∃ b', CancelOrder id b = Ok b' ∧ reachable b' ∧
    orders_ b' = delete id (orders_ b) ∧
    flat (bids_ b') = filter (fun x => GetOrderId x ≠ id) (flat (bids_ b)) ∧
    flat (asks_ b') = filter (fun x => GetOrderId x ≠ id) (flat (asks_ b)) ∧
    (∀ k, default [] (map_find k (bids_ b')) =
          filter (fun x => GetOrderId x ≠ id)
            (default [] (map_find k (bids_ b)))) ∧
    (∀ k, default [] (map_find k (asks_ b')) =
          filter (fun x => GetOrderId x ≠ id)
            (default [] (map_find k (asks_ b)))) ∧
    (is_Some (orders_ b !! id) → S (Size b') = Size b).
Proof.
  intros Hb. destruct (reachable_CancelOrderInternal id b Hb) as (b' & Hrun & Hb').
  exists b'. split; [done|]. split; [done|].
  destruct (CancelOrderInternal_filter id b b') as (Ho & Hfb & Hfa & Hkb & Hka);
    [apply reachable_Inv, Hb|done|].
  split_and!; try done.
  intros [e He]. unfold Size. rewrite Ho, map_size_delete, He.
  assert (size (orders_ b) ≠ 0%nat); [|lia].
  intros Hsz. apply map_size_empty_iff in Hsz. by rewrite Hsz in He.
Qed.

Lemma CancelOrder_keeps_the_other_orders_witness :
  let b := book_after [ReqAdd (new_Order GoodTillCancel 1 Buy 100 5);
                       ReqAdd (new_Order GoodTillCancel 2 Buy 100 6);
                       ReqAdd (new_Order GoodTillCancel 3 Buy 100 7)] in
  reachable b ∧
  ∃ b', CancelOrder 2 b = Ok b' ∧
    flat (bids_ b') = [new_Order GoodTillCancel 1 Buy 100 5;
                       new_Order GoodTillCancel 3 Buy 100 7] ∧
    S (Size b') = Size b.
Proof.
  intros b.
  assert (Hb : reachable b) by (apply reachable_book_after; solve_valid).
  split; [exact Hb|].
  destruct (CancelOrder_keeps_the_other_orders b 2 Hb)
    as (b' & Hrun & _ & _ & Hbids & _ & _ & _ & Hsize).
  exists b'. split; [exact Hrun|]. split.
  - rewrite Hbids. reflexivity.
  - apply Hsize. by eexists.
Defined.

(** * Orders that do not match *)

Lemma match_loop_exit fuel b trades :
  loop_exit b → match_loop fuel b trades = Ok (trades, b).
Proof.
  unfold loop_exit. destruct fuel, b as [bids asks orders data]; simpl;
    destruct bids as [|[bp bq] brest]; try done;
    destruct asks as [|[ap aq] arest]; try done;
    intros Hlt; by destruct (Z.ltb_spec bp ap); [|lia].
Qed.

Lemma uncrossed_loop_exit b : uncrossed b → loop_exit b.
Proof.
  intros Hun. unfold loop_exit.
  destruct (bids_ b) as [|[bp bq] brest] eqn:Hbids; [done|].
  destruct (asks_ b) as [|[ap aq] arest] eqn:Hasks; [done|].
  apply Hun; [rewrite Hbids|rewrite Hasks]; left.
Qed.

Lemma front_FillAndKill_none m :
  no_FillAndKill (flat m) → front_FillAndKill m = None.
Proof.
  destruct m as [|[p [|o q]] rest]; [done..|]. rewrite flat_cons. simpl.
  intros Hno. apply Forall_cons in Hno as [Ho _]. by rewrite bool_decide_eq_false_2.
Qed.

(** On a book that is not crossed and holds no FillAndKill order,
    [MatchOrders] does nothing. *)
Lemma MatchOrders_quiet b :
  uncrossed b → no_FillAndKill (book_orders b) → MatchOrders b = Ok ([], b).
Proof.
  intros Hun Hno. unfold book_orders in Hno. apply Forall_app in Hno as [Hnb Hna].
  unfold MatchOrders. rewrite match_loop_exit by by apply uncrossed_loop_exit.
  simpl. rewrite front_FillAndKill_none by done. simpl.
  by rewrite front_FillAndKill_none.
Qed.

Lemma insert_order_uncrossed o b :
  wf b → uncrossed b → CanMatch (GetSide o) (GetPrice o) b = false →
  uncrossed (insert_order o b).
Proof.
  intros Hwf Hun Hcan. rewrite CanMatch_head in Hcan.
  unfold insert_order, uncrossed.
  destruct (GetSide o) eqn:Hside; cbn [bids_ asks_ opposite] in *; intros pb pa Hpb Hpa.
  - apply push_back_keys in Hpb as [->|Hpb]; [|by apply Hun].
    destruct (asks_ b) as [|[best q] rest] eqn:Hasks; [inversion Hpa|].
    destruct (sorted_keys_head_best less best q rest pa) as [->|Hlt].
    + rewrite <-Hasks. apply Hwf.
    + done.
    + unfold within_limit in Hcan. lia.
    + unfold within_limit, less in *. lia.
  - apply push_back_keys in Hpa as [->|Hpa]; [|by apply Hun].
    destruct (bids_ b) as [|[best q] rest] eqn:Hbids; [inversion Hpb|].
    destruct (sorted_keys_head_best greater best q rest pb) as [->|Hlt].
    + rewrite <-Hbids. apply Hwf.
    + done.
    + unfold within_limit in Hcan. lia.
    + unfold within_limit, greater in *. lia.
Qed.

Lemma own_side_insert o b :
  map_find (GetPrice o) (own_side (GetSide o) (insert_order o b)) =
  Some (default [] (map_find (GetPrice o) (own_side (GetSide o) b)) ++ [o]) ∧
  (∀ k, k ≠ GetPrice o →
     map_find k (own_side (GetSide o) (insert_order o b)) =
     map_find k (own_side (GetSide o) b)) ∧
  opposite (GetSide o) (insert_order o b) = opposite (GetSide o) b.
Proof.
  unfold insert_order. destruct (GetSide o); cbn [own_side opposite bids_ asks_];
    (split_and!; [apply push_back_find| |done]);
    intros k Hk; by apply push_back_find_ne.
Qed.

(** A GoodTillCancel or GoodForDay order that cannot match is inserted, and
    nothing else happens. *)
Lemma AddOrder_rests b o :
  Inv b → orders_ b !! GetOrderId o = None →
  GetOrderType o = GoodTillCancel ∨ GetOrderType o = GoodForDay →
  CanMatch (GetSide o) (GetPrice o) b = false →
  AddOrder o b = Ok ([], insert_order o b) ∧
  orders_ (insert_order o b) = <[GetOrderId o := entry_of o]> (orders_ b) ∧
  Size (insert_order o b) = S (Size b).
Proof.
  intros [Hwf Hun Hno] Hfresh Hty Hcan. split_and!.
  - unfold AddOrder. rewrite bool_decide_eq_false_2 by (rewrite Hfresh; by intros [? ?]).
    rewrite convert_market_other by (destruct Hty as [-> | ->]; done).
    rewrite (bool_decide_eq_false_2 (GetOrderType o = FillAndKill))
      by (destruct Hty as [-> | ->]; done).
    rewrite (bool_decide_eq_false_2 (GetOrderType o = FillOrKill))
      by (destruct Hty as [-> | ->]; done).
    cbn [andb]. apply MatchOrders_quiet.
    + by apply insert_order_uncrossed.
    + unfold no_FillAndKill. rewrite book_orders_insert by done.
      constructor; [destruct Hty as [-> | ->]; done|done].
  - by apply orders_insert_order.
  - unfold Size. rewrite orders_insert_order by done.
    by apply map_size_insert_None.
Qed.

Theorem unmatched_order_rests b o :
  reachable b → orders_ b !! GetOrderId o = None →
  GetOrderType o = GoodTillCancel ∨ GetOrderType o = GoodForDay →
  CanMatch (GetSide o) (GetPrice o) b = false →
  ∃ b', AddOrder o b = Ok ([], b') ∧
    map_find (GetPrice o) (own_side (GetSide o) b') =
    Some (default [] (map_find (GetPrice o) (own_side (GetSide o) b)) ++ [o]) ∧
    (∀ k, k ≠ GetPrice o →
       map_find k (own_side (GetSide o) b') = map_find k (own_side (GetSide o) b)) ∧
    opposite (GetSide o) b' = opposite (GetSide o) b ∧
    orders_ b' = <[GetOrderId o := entry_of o]> (orders_ b) ∧
    Size b' = S (Size b).
Proof.
  intros Hb Hfresh Hty Hcan.
  destruct (AddOrder_rests b o (reachable_Inv b Hb) Hfresh Hty Hcan)
    as (Hadd & Horders & Hsize).
  destruct (own_side_insert o b) as (Hq & Hother & Hopp).
  exists (insert_order o b). by split_and!.
Qed.

Lemma unmatched_order_rests_witness :
  let b := book_after [ReqAdd (new_Order GoodTillCancel 1 Buy 100 5);
                       ReqAdd (new_Order GoodTillCancel 2 Sell 102 6)] in
  let o := new_Order GoodForDay 3 Buy 100 7 in
  reachable b ∧
  ∃ b', AddOrder o b = Ok ([], b') ∧
    map_find 100 (bids_ b') = Some [new_Order GoodTillCancel 1 Buy 100 5; o] ∧
    asks_ b' = asks_ b ∧ Size b' = 3%nat.
Proof.
  intros b o.
  assert (Hb : reachable b) by (apply reachable_book_after; solve_valid).
  split; [exact Hb|].
  destruct (unmatched_order_rests b o Hb)
    as (b' & Hadd & Hq & _ & Hopp & _ & Hsize);
    [reflexivity|by right|reflexivity|].
  exists b'. split; [exact Hadd|]. split; [exact Hq|]. split; [exact Hopp|].
  exact Hsize.
Defined.

(** ** Adding and cancelling *)

Lemma list_erase_last o q :
  GetOrderId o ∉ ids q → list_erase (GetOrderId o) (q ++ [o]) = Some (o, q).
Proof.
  induction q as [|x q IH]; intros Hid; simpl.
  - by rewrite Z.eqb_refl.
  - unfold ids in Hid. rewrite fmap_cons in Hid.
    apply not_elem_of_cons in Hid as [Hne Hid].
    destruct (Z.eqb_spec (GetOrderId x) (GetOrderId o)); [done|].
    by rewrite IH.
Qed.

(** Erasing the node that [push_back] has just appended gives the side
    back as it was. *)
Lemma erase_push_back cmp s o m :
  comparator cmp → sorted_keys cmp m → side_ok s m →
  GetOrderId o ∉ ids (flat m) →
  erase_from_side cmp (GetOrderId o) (GetPrice o) (push_back cmp o m) = Ok (o, m).
Proof.
  intros Hcmp Hs Hok Hid. unfold erase_from_side.
  rewrite push_back_find. unfold push_back.
  destruct (map_find (GetPrice o) m) as [q|] eqn:Hf; simpl.
  - rewrite list_erase_last.
    + destruct (Hok (GetPrice o) q) as [Hq _]; [by apply map_find_Some|].
      rewrite bool_decide_eq_false_2 by done.
      by rewrite (map_put_put cmp), (map_put_same cmp Hcmp).
    + intros Hin. apply Hid. apply elem_of_ids in Hin as (x & Hx & Hidx).
      apply elem_of_ids. exists x. split; [|done]. by eapply bucket_in_flat.
  - rewrite Z.eqb_refl. simpl. rewrite (map_erase_put cmp); [done|].
    by apply map_find_None.
Qed.

(** Adding an order that rests and cancelling it again gives back the two
    sides and the id-lookup as they were. *)
Theorem add_then_cancel_restores_the_queues b o :
  reachable b → orders_ b !! GetOrderId o = None →
  GetOrderType o = GoodTillCancel ∨ GetOrderType o = GoodForDay →
  CanMatch (GetSide o) (GetPrice o) b = false →
  ∃ b1 b2,
    AddOrder o b = Ok ([], b1) ∧ CancelOrder (GetOrderId o) b1 = Ok b2 ∧
    bids_ b2 = bids_ b ∧ asks_ b2 = asks_ b ∧ orders_ b2 = orders_ b.
Proof.
  intros Hb Hfresh Hty Hcan. pose proof (reachable_Inv b Hb) as HInv.
  pose proof (inv_wf b HInv) as Hwf.
  destruct (AddOrder_rests b o HInv Hfresh Hty Hcan) as (Hadd & Horders & _).
  assert (GetOrderId o ∉ ids (book_orders b)) as Hid.
  { intros (x & Hx & Hidx)%elem_of_ids.
    by eapply (index_ok_absent b (GetOrderId o) x); [apply Hwf|..]. }
  unfold book_orders in Hid. rewrite ids_app in Hid.
  apply not_elem_of_app in Hid as [Hidb Hida].
  exists (insert_order o b). eexists. split; [done|].
  unfold CancelOrder, CancelOrderInternal.
  rewrite Horders, lookup_insert_eq, delete_insert_id by done.
  unfold insert_order, entry_of.
  destruct (GetSide o); cbn [entry_side entry_price bids_ asks_].
  - rewrite (erase_push_back greater Buy); [|constructor|apply Hwf..|done].
    simpl. by split_and!.
  - rewrite (erase_push_back less Sell); [|constructor|apply Hwf..|done].
    simpl. by split_and!.
Qed.

Lemma add_then_cancel_restores_the_queues_witness :
  let b := book_after [ReqAdd (new_Order GoodTillCancel 1 Buy 100 5);
                       ReqAdd (new_Order GoodTillCancel 2 Sell 102 6)] in
  let o := new_Order GoodTillCancel 3 Sell 102 7 in
  reachable b ∧
  ∃ b1 b2,
    AddOrder o b = Ok ([], b1) ∧ CancelOrder 3 b1 = Ok b2 ∧
    bids_ b2 = bids_ b ∧ asks_ b2 = asks_ b ∧ orders_ b2 = orders_ b.
Proof.
  intros b o.
  assert (Hb : reachable b) by (apply reachable_book_after; solve_valid).
  split; [exact Hb|].
  apply (add_then_cancel_restores_the_queues b o Hb);
    [reflexivity|by left|reflexivity].
Defined.

(** * ModifyOrder *)

(** A modification whose new price does not match takes the order out and
    appends a new order of the same type, with the side, the price and the
    whole quantity of the request, at the back of the queue of that price:
    the order loses its place in time priority even when its price is the
    one it had, and what had been filled of it is forgotten. *)
Theorem ModifyOrder_moves_to_the_back b modify e :
  reachable b →
  orders_ b !! OrderModify.orderId modify = Some e →
  entry_type e = GoodTillCancel ∨ entry_type e = GoodForDay →
  let id := OrderModify.orderId modify in
  let s := OrderModify.side modify in
  let p := OrderModify.price modify in
  let o := new_Order (entry_type e) id s p (OrderModify.quantity modify) in
  ∃ b1, CancelOrder id b = Ok b1 ∧
    (CanMatch s p b1 = false →
     ∃ b', ModifyOrder modify b = Ok ([], b') ∧
       map_find p (own_side s b') =
       Some (filter (fun x => GetOrderId x ≠ id)
               (default [] (map_find p (own_side s b))) ++ [o]) ∧
       orders_ b' !! id = Some (entry_of o) ∧
       Size b' = Size b).
Proof.
  intros Hb He Hty. cbv zeta.
  set (id := OrderModify.orderId modify) in *.
  set (o := new_Order (entry_type e) id (OrderModify.side modify)
              (OrderModify.price modify) (OrderModify.quantity modify)).
  destruct (reachable_CancelOrderInternal id b Hb) as (b1 & Hrun & Hb1).
  exists b1. split; [done|]. intros Hcan.
  destruct (CancelOrderInternal_filter id b b1) as (Ho & _ & _ & Hkb & Hka);
    [apply reachable_Inv, Hb|done|].
  assert (orders_ b1 !! GetOrderId o = None) as Hfresh.
  { rewrite Ho. apply lookup_delete_eq. }
  destruct (AddOrder_rests b1 o (reachable_Inv b1 Hb1) Hfresh Hty Hcan)
    as (Hadd & Horders & Hsize).
  destruct (own_side_insert o b1) as (Hq & _ & _).
  exists (insert_order o b1). split_and!.
  - unfold ModifyOrder. fold id. rewrite He. unfold CancelOrder.
    rewrite Hrun. exact Hadd.
  - etrans; [exact Hq|]. f_equal. f_equal.
    cbn [GetSide GetPrice o new_Order].
    destruct (OrderModify.side modify); [apply Hkb|apply Hka].
  - rewrite Horders. apply lookup_insert_eq.
  - rewrite Hsize. unfold Size. rewrite Ho, map_size_delete, He.
    assert (size (orders_ b) ≠ 0%nat); [|lia].
    intros Hsz. apply map_size_empty_iff in Hsz. rewrite Hsz in He. done.
Qed.

Lemma ModifyOrder_moves_to_the_back_witness :
  let b := book_after [ReqAdd (new_Order GoodTillCancel 1 Buy 100 5);
                       ReqAdd (new_Order GoodTillCancel 2 Buy 100 6);
                       ReqAdd (new_Order GoodTillCancel 3 Sell 100 2)] in
  let modify := OrderModify.mk 1 Buy 100 5 in
  reachable b ∧
  bids_ b = [(100, [mkOrder GoodTillCancel 1 Buy 100 5 3;
                    new_Order GoodTillCancel 2 Buy 100 6])] ∧
  ∃ b', ModifyOrder modify b = Ok ([], b') ∧
    map_find 100 (bids_ b') =
    Some [new_Order GoodTillCancel 2 Buy 100 6;
          new_Order GoodTillCancel 1 Buy 100 5].
Proof.
  intros b modify.
  assert (Hb : reachable b) by (apply reachable_book_after; solve_valid).
  split; [exact Hb|]. split; [reflexivity|].
  destruct (ModifyOrder_moves_to_the_back b modify
              (mkEntry GoodTillCancel Buy 100) Hb)
    as (b1 & Hcancel & Hmod); [reflexivity|by left|].
  destruct Hmod as (b' & Hrun & Hq & _).
  - assert (Hb1 : Ok b1 = CancelOrder 1 b) by (symmetry; exact Hcancel).
    vm_compute in Hb1. injection Hb1 as ->. reflexivity.
  - exists b'. split; [exact Hrun|]. etrans; [exact Hq|]. reflexivity.
Defined.

(** * The expiration sweep *)

Lemma filter_ext_in {A} (P Q : A → Prop) `{∀ x, Decision (P x)}
    `{∀ x, Decision (Q x)} (l : list A) :
  (∀ x, x ∈ l → P x ↔ Q x) → filter P l = filter Q l.
Proof.
  induction l as [|x l IH]; intros HPQ; [done|].
  rewrite !filter_cons.
  rewrite IH by (intros y Hy; apply HPQ; by right).
  destruct (decide (P x)) as [HP|HP], (decide (Q x)) as [HQ|HQ]; try done.
  - destruct HQ. apply HPQ; [left|done].
  - destruct HP. apply HPQ; [left|done].
Qed.

Lemma cancel_all_filter l b b' :
  wf b → cancel_all l b = Ok b' →
  wf b' ∧ without l (orders_ b) (orders_ b') ∧
  flat (bids_ b') = filter (fun x => GetOrderId x ∉ l) (flat (bids_ b)) ∧
  flat (asks_ b') = filter (fun x => GetOrderId x ∉ l) (flat (asks_ b)).
Proof.
  revert b. induction l as [|id l IH]; intros b Hwf; simpl.
  - intros [= <-]. split_and!; [done|apply without_nil|..];
      symmetry; apply filter_all, Forall_forall; intros x _; apply not_elem_of_nil.
  - intros Hrun. inv_bind Hrun.
    destruct (CancelOrderInternal_spec id b Hwf) as (b1 & Hb1 & Hwf1 & _).
    rewrite Hb1 in Ha. injection Ha as <-.
    destruct (CancelOrderInternal_filter id b b1 Hwf Hb1) as (Ho & Hfb & Hfa & _).
    destruct (IH b1 Hwf1 Hrun) as (Hwf' & Hw & Hb' & Ha').
    split_and!; [done| | |].
    + change (id :: l) with ([id] ++ l). eapply without_trans; [|done].
      rewrite Ho. apply without_delete.
    + rewrite Hb', Hfb, list_filter_filter. apply list_filter_iff.
      intros x. rewrite not_elem_of_cons. tauto.
    + rewrite Ha', Hfa, list_filter_filter. apply list_filter_iff.
      intros x. rewrite not_elem_of_cons. tauto.
Qed.

Lemma elem_of_GoodForDay_ids orders id :
  id ∈ GoodForDay_ids orders ↔
  ∃ e, orders !! id = Some e ∧ entry_type e = GoodForDay.
Proof.
  unfold GoodForDay_ids. rewrite list_elem_of_omap. split.
  - intros ([id' e] & Hin & Hsome). apply elem_of_map_to_list in Hin.
    case_bool_decide; [|done]. injection Hsome as ->. by exists e.
  - intros (e & Hlook & Hty). exists (id, e). split.
    + by apply elem_of_map_to_list.
    + by rewrite bool_decide_eq_true_2.
Qed.

Lemma GoodForDay_ids_order b x :
  wf b → x ∈ book_orders b →
  GetOrderId x ∈ GoodForDay_ids (orders_ b) ↔ GetOrderType x = GoodForDay.
Proof.
  intros Hwf Hx. rewrite elem_of_GoodForDay_ids. split.
  - intros (e & Hlook & Hty). apply (wf_index b Hwf) in Hlook as (x' & Hx' & Hid & ->).
    assert (x' = x) as ->; [|done].
    eapply NoDup_ids_inj; [apply Hwf|done..].
  - intros Hty. exists (entry_of x). split; [|done].
    apply (wf_index b Hwf). by exists x.
Qed.

(** The sweep cancels the GoodForDay orders and nothing else: every other
    order keeps its place, with what remains of it, and a second sweep finds
    nothing to cancel. *)
Theorem PruneSweep_cancels_the_GoodForDay_orders b :
  reachable b →
  ∃ b', PruneSweep b = Ok b' ∧ reachable b' ∧
    flat (bids_ b') =
    filter (fun x => GetOrderType x ≠ GoodForDay) (flat (bids_ b)) ∧
    flat (asks_ b') =
    filter (fun x => GetOrderType x ≠ GoodForDay) (flat (asks_ b)) ∧
    (∀ id e, orders_ b' !! id = Some e ↔
       orders_ b !! id = Some e ∧ entry_type e ≠ GoodForDay) ∧
    PruneSweep b' = Ok b'.
Proof.
  intros Hb. pose proof (inv_wf b (reachable_Inv b Hb)) as Hwf.
  destruct (step_Inv ReqPrune b (reachable_Inv b Hb) I) as (trades & b' & Hstep & _).
  pose proof (reachable_step ReqPrune b trades b' Hb I Hstep) as Hb'.
  simpl in Hstep. inv_bind Hstep. injection Hstep as _ <-.
  rename Ha into Hrun. exists a. split; [done|]. split; [done|].
  destruct (cancel_all_filter _ b a Hwf Hrun) as (_ & Hw & Hfb & Hfa).
  assert (∀ id e, orders_ a !! id = Some e ↔
            orders_ b !! id = Some e ∧ entry_type e ≠ GoodForDay) as Horders.
  { intros id e. rewrite (without_lookup _ _ _ _ _ Hw), elem_of_GoodForDay_ids.
    split.
    - intros [Hno Hlook]. split; [done|]. intros Hty. apply Hno. by exists e.
    - intros [Hlook Hty]. split; [|done]. intros (e' & Hlook' & Hty').
      congruence. }
  split_and!; [| |done|].
  - rewrite Hfb. apply filter_ext_in. intros x Hx.
    rewrite (GoodForDay_ids_order b x Hwf); [done|].
    apply elem_of_app. by left.
  - rewrite Hfa. apply filter_ext_in. intros x Hx.
    rewrite (GoodForDay_ids_order b x Hwf); [done|].
    apply elem_of_app. by right.
  - unfold PruneSweep.
    assert (GoodForDay_ids (orders_ a) = []) as ->; [|done].
    destruct (GoodForDay_ids (orders_ a)) as [|id l] eqn:Hids; [done|].
    assert (id ∈ GoodForDay_ids (orders_ a)) as Hin by (rewrite Hids; left).
    apply elem_of_GoodForDay_ids in Hin as (e & Hlook & Hty).
    apply Horders in Hlook as [_ Hne]. done.
Qed.

Lemma PruneSweep_cancels_the_GoodForDay_orders_witness :
  let b := book_after [ReqAdd (new_Order GoodForDay 1 Buy 100 5);
                       ReqAdd (new_Order GoodTillCancel 2 Buy 100 6);
                       ReqAdd (new_Order GoodForDay 3 Sell 102 7)] in
  reachable b ∧
  ∃ b', PruneSweep b = Ok b' ∧
    flat (bids_ b') = [new_Order GoodTillCancel 2 Buy 100 6] ∧
    flat (asks_ b') = [] ∧ PruneSweep b' = Ok b'.
Proof.
  intros b.
  assert (Hb : reachable b) by (apply reachable_book_after; solve_valid).
  split; [exact Hb|].
  destruct (PruneSweep_cancels_the_GoodForDay_orders b Hb)
    as (b' & Hrun & _ & Hbids & Hasks & _ & Hagain).
  exists b'. split; [exact Hrun|]. split; [|split].
  - rewrite Hbids. reflexivity.
  - rewrite Hasks. reflexivity.
  - exact Hagain.
Defined.

(** * How much an order trades *)

Lemma total_cons x l : total (x :: l) = x + total l.
Proof. done. Qed.

Lemma total_fmap_add {A} (f g : A → Z) (l : list A) :
  total ((fun x => f x + g x) <$> l) = total (f <$> l) + total (g <$> l).
Proof.
  induction l as [|x l IH]; [done|].
  rewrite !fmap_cons, !total_cons, IH. lia.
Qed.

Lemma total_fmap_ext {A} (f g : A → Z) (l : list A) :
  (∀ x, x ∈ l → f x = g x) → total (f <$> l) = total (g <$> l).
Proof.
  induction l as [|x l IH]; intros Hfg; [done|].
  rewrite !fmap_cons, !total_cons, IH, Hfg; [done|left|].
  intros y Hy. apply Hfg. by right.
Qed.

Lemma total_fmap_zero {A} (f : A → Z) (l : list A) :
  (∀ x, x ∈ l → f x = 0) → total (f <$> l) = 0.
Proof.
  induction l as [|x l IH]; intros Hf; [done|].
  rewrite fmap_cons, total_cons, IH, Hf; [done|left|].
  intros y Hy. apply Hf. by right.
Qed.

Lemma total_fmap_nonneg {A} (f : A → Z) (l : list A) :
  (∀ x, x ∈ l → 0 ≤ f x) → 0 ≤ total (f <$> l).
Proof.
  intros Hf. apply total_nonneg, Forall_fmap, Forall_forall. intros x Hx.
  by apply Hf.
Qed.

Lemma total_indicator W a q :
  NoDup (ids W) →
  total ((fun x => if a =? GetOrderId x then q else 0) <$> W) =
  if bool_decide (a ∈ ids W) then q else 0.
Proof.
  induction W as [|x W IH]; intros Hnd; [done|].
  unfold ids in Hnd. rewrite fmap_cons in Hnd.
  apply NoDup_cons in Hnd as [Hx Hnd]. fold (ids W) in Hx, Hnd.
  rewrite fmap_cons, total_cons, IH by done.
  unfold ids. rewrite fmap_cons. fold (ids W).
  destruct (Z.eqb_spec a (GetOrderId x)) as [->|Hne];
    repeat case_bool_decide; try lia; exfalso;
    rewrite ?elem_of_cons, ?not_elem_of_cons in *; naive_solver.
Qed.

(** What the trades have filled of the orders of [W], added up, is what
    they have exchanged, when every trade has its leg [leg] in [W]. *)
Lemma sum_filled (leg : Trade → TradeInfo.t) W trades :
  NoDup (ids W) →
  Forall (fun t => TradeInfo.orderId (leg t) ∈ ids W) trades →
  total ((fun x =>
            foldr (fun t acc =>
                     (if TradeInfo.orderId (leg t) =? GetOrderId x
                      then TradeInfo.quantity (leg t) else 0) + acc) 0 trades)
         <$> W) =
  total ((fun t => TradeInfo.quantity (leg t)) <$> trades).
Proof.
  intros Hnd. induction 1 as [|t trades Ht _ IH].
  - by apply total_fmap_zero.
  - cbn [foldr].
    rewrite (total_fmap_add
               (fun x => if TradeInfo.orderId (leg t) =? GetOrderId x
                         then TradeInfo.quantity (leg t) else 0)).
    rewrite IH, total_indicator by done.
    rewrite bool_decide_eq_true_2 by done. by rewrite fmap_cons, total_cons.
Qed.

Lemma filled_bid_all id trades :
  Forall (fun t => TradeInfo.orderId (bid t) = id) trades →
  filled_bid id trades = traded_quantity trades.
Proof.
  induction 1 as [|t trades Ht _ IH]; [done|].
  unfold filled_bid, traded_quantity in *. cbn [foldr].
  rewrite fmap_cons, total_cons, IH, Ht, Z.eqb_refl. done.
Qed.

Lemma filled_ask_all id trades :
  Forall (fun t => TradeInfo.orderId (ask t) = id ∧
                   TradeInfo.quantity (bid t) = TradeInfo.quantity (ask t)) trades →
  filled_ask id trades = traded_quantity trades.
Proof.
  induction 1 as [|t trades [Ht Hq] _ IH]; [done|].
  unfold filled_ask, traded_quantity in *. cbn [foldr].
  rewrite fmap_cons, total_cons, IH, Ht, Hq, Z.eqb_refl. done.
Qed.

Lemma traded_quantity_asks trades :
  Forall (fun t => TradeInfo.quantity (bid t) = TradeInfo.quantity (ask t)) trades →
  total ((fun t => TradeInfo.quantity (ask t)) <$> trades) = traded_quantity trades.
Proof.
  intros Hq. unfold traded_quantity. apply total_fmap_ext.
  intros t Ht. eapply Forall_forall in Hq; [|done]. done.
Qed.

Lemma remaining_of_nonneg id l :
  Forall valid_order l → 0 ≤ remaining_of id l.
Proof.
  induction 1 as [|x l [[Hx _] _] _ IH]; [done|].
  unfold remaining_of in *. cbn [foldr].
  destruct (GetOrderId x =? id); lia.
Qed.

Lemma NoDup_ids_filter (P : Order → Prop) `{∀ x, Decision (P x)} l :
  NoDup (ids l) → NoDup (ids (filter P l)).
Proof.
  intros Hnd. eapply sublist_NoDup; [done|].
  unfold ids. apply fmap_sublist, sublist_filter.
Qed.

Lemma NoDup_ids_app_l l k : NoDup (ids (l ++ k)) → NoDup (ids l).
Proof. rewrite ids_app. by intros (? & _ & _)%NoDup_app. Qed.

Lemma NoDup_ids_app_r l k : NoDup (ids (l ++ k)) → NoDup (ids k).
Proof. rewrite ids_app. by intros (_ & _ & ?)%NoDup_app. Qed.

(** The arithmetic of a fill: [R] is what is left of the order, [S] what is
    left of the orders it could trade with. *)
Lemma fill_amount traded rem R L S :
  traded = rem - R → traded = L - S → 0 ≤ R → 0 ≤ S → (0 < R → S = 0) →
  traded = Z.min rem L.
Proof. intros -> Heq HR HS HRS. destruct (decide (R = 0)); lia. Qed.

Lemma match_loop_uncrossed b trades b1 :
  wf b → match_loop (match_loop_bound b) b [] = Ok (trades, b1) → uncrossed b1.
Proof.
  intros Hwf Hrun.
  destruct (match_loop_wf (match_loop_bound b) b [] Hwf)
    as (b2 & kb & ka & new & Hrun' & _ & Hun & _);
    [unfold match_loop_bound; lia|].
  rewrite Hrun in Hrun'. by injection Hrun' as _ ->.
Qed.

Lemma remaining_of_present id l :
  0 < remaining_of id l → ∃ y, y ∈ l ∧ GetOrderId y = id.
Proof.
  intros HR. destruct (decide (id ∈ ids l)) as [Hin|Hno].
  - by apply elem_of_ids.
  - rewrite remaining_of_absent in HR by done. lia.
Qed.

(** A buy that goes through [MatchOrders] trades the smaller of its
    quantity and of what the asks within its limit offer. *)
Lemma matched_fill_Buy b o trades b' b1 kb ka :
  Inv b → valid_order o → orders_ b !! GetOrderId o = None → GetSide o = Buy →
  matched (insert_order o b) trades b' b1 kb ka →
  traded_quantity trades =
  Z.min (GetRemainingQuantity o) (liquidity Buy (GetPrice o) (flat (asks_ b))) ∧
  remaining_of (GetOrderId o) (book_orders b1) =
  GetRemainingQuantity o - traded_quantity trades.
Proof.
  intros HInv Hvalid Hfresh Hside Hm.
  pose proof (inv_wf b HInv) as Hwf.
  pose proof (insert_order_wf o b Hwf Hvalid Hfresh) as Hwf0.
  pose proof (insert_order_sides o b Hwf) as Hsides. rewrite Hside in Hsides.
  destruct Hsides as [Hasks Hbids].
  pose proof (matched_wf_loop _ _ _ _ _ _ Hm) as Hwf1.
  pose proof (match_loop_uncrossed _ _ _ Hwf0 (matched_loop _ _ _ _ _ _ Hm)) as Hun1.
  pose proof (fun id => match_loop_conserves _ _ _ _ _ id
                (wf_bids_sorted _ Hwf0) (wf_asks_sorted _ Hwf0)
                (matched_loop _ _ _ _ _ _ Hm)) as Hcons.
  pose proof (NoDup_ids_app_l _ _ (wf_nodup _ Hwf0)) as Hndb0.
  pose proof (NoDup_ids_app_r _ _ (wf_nodup _ Hwf)) as Hnda.
  pose proof (wf_quantities _ Hwf1) as Hq1. unfold book_orders in Hq1.
  apply Forall_app in Hq1 as [Hqb1 Hqa1].
  assert (o ∈ flat (bids_ (insert_order o b))) as Ho0.
  { rewrite Hbids. apply elem_of_app. right. left. }
  assert (Forall (fun t =>
            TradeInfo.orderId (bid t) = GetOrderId o ∧
            TradeInfo.quantity (bid t) = TradeInfo.quantity (ask t) ∧
            ∃ r, r ∈ flat (asks_ b) ∧ GetOrderId r = TradeInfo.orderId (ask t) ∧
                 GetPrice r ≤ GetPrice o) trades) as Htr.
  { apply Forall_forall. intros t Ht.
    pose proof (accepted_trade_orders o b trades b' b1 kb ka t HInv Hm Ht)
      as [_ Hacc].
    rewrite Hside in Hacc. destruct Hacc as (Hbid & r & Hr & Hidr & _ & Hle).
    pose proof (matched_trades _ _ _ _ _ _ Hm) as Hlt.
    eapply Forall_forall in Hlt; [|done]. destruct Hlt as [Hq _].
    split_and!; [done|done|]. by exists r. }
  (* the order itself *)
  destruct (Hcons (GetOrderId o)) as [Hown _].
  change (filled_bid (GetOrderId o) []) with 0 in Hown.
  rewrite (remaining_of_elem _ _ o Hndb0 Ho0 eq_refl) in Hown.
  rewrite filled_bid_all in Hown
    by (eapply Forall_impl; [exact Htr|]; by intros t [? _]).
  pose proof (remaining_of_nonneg (GetOrderId o) _ Hqb1) as HR.
  (* the asks within the limit *)
  unfold liquidity.
  set (W := filter (fun x => within_limit Buy (GetPrice o) (GetPrice x) = true)
              (flat (asks_ b))).
  assert (∀ x, x ∈ W → x ∈ flat (asks_ b) ∧ GetPrice x ≤ GetPrice o) as HWin.
  { intros x Hx. apply list_elem_of_filter in Hx as [Hw Hx]. split; [done|].
    unfold within_limit in Hw. lia. }
  assert (total ((fun x => filled_ask (GetOrderId x) trades) <$> W) +
          total ((fun x => remaining_of (GetOrderId x) (flat (asks_ b1))) <$> W) =
          total (GetRemainingQuantity <$> W)) as Hsum.
  { rewrite <-total_fmap_add. apply total_fmap_ext. intros x Hx.
    destruct (Hcons (GetOrderId x)) as [_ Hopp]. rewrite Hopp, Hasks.
    change (filled_ask (GetOrderId x) []) with 0.
    rewrite (remaining_of_elem _ _ x Hnda); [done|by apply HWin|done]. }
  assert (total ((fun x => filled_ask (GetOrderId x) trades) <$> W) =
          traded_quantity trades) as Hfilled.
  { etrans; [apply (sum_filled ask W trades)|apply traded_quantity_asks].
    - by apply NoDup_ids_filter.
    - eapply Forall_impl; [exact Htr|]. intros t (_ & _ & r & Hr & Hidr & Hle).
      apply elem_of_ids. exists r. split; [|done].
      apply list_elem_of_filter. split; [|done]. unfold within_limit. lia.
    - eapply Forall_impl; [exact Htr|]. by intros t (_ & ? & _). }
  rewrite Hfilled in Hsum.
  assert (0 ≤ total ((fun x => remaining_of (GetOrderId x) (flat (asks_ b1))) <$> W))
    as HS.
  { apply total_fmap_nonneg. intros x _. by apply remaining_of_nonneg. }
  assert (∀ z, z ∈ flat (asks_ b1) →
            ∃ z0, z0 ∈ flat (asks_ b) ∧ GetOrderId z0 = GetOrderId z ∧
                  GetPrice z0 = GetPrice z) as Hasks1.
  { intros z Hz.
    destruct (residue_elem_of _ _ _ z (matched_asks _ _ _ _ _ _ Hm) Hz)
      as (z0 & Hz0 & Hsame).
    rewrite Hasks in Hz0. apply same_order_fields in Hsame.
    exists z0. by split_and!; [|apply Hsame..]. }
  split.
  - apply (fill_amount _ _ (remaining_of (GetOrderId o) (flat (bids_ b1))) _
             (total ((fun x => remaining_of (GetOrderId x) (flat (asks_ b1))) <$> W)));
      [lia|lia|done|done|].
    intros HRpos. apply remaining_of_present in HRpos as (y & Hy & Hidy).
    destruct (residue_elem_of _ _ _ y (matched_bids _ _ _ _ _ _ Hm) Hy)
      as (y0 & Hy0 & Hsame).
    apply same_order_fields in Hsame as (_ & Hid0 & _ & Hprice0 & _).
    assert (y0 = o) as ->.
    { apply (NoDup_ids_inj (flat (bids_ (insert_order o b)))); [done..|congruence]. }
    apply total_fmap_zero. intros x Hx. apply remaining_of_absent.
    intros (z & Hz & Hidz)%elem_of_ids.
    destruct (Hasks1 z Hz) as (z0 & Hz0 & Hidz0 & Hpz0).
    destruct (HWin x Hx) as [Hxin Hxle].
    assert (z0 = x) as ->.
    { apply (NoDup_ids_inj (flat (asks_ b))); [done..|congruence]. }
    pose proof (uncrossed_resting b1 y z Hwf1 Hun1 Hy Hz). lia.
  - unfold book_orders. rewrite remaining_of_app.
    rewrite (remaining_of_absent _ (flat (asks_ b1))); [lia|].
    intros (z & Hz & Hidz)%elem_of_ids.
    destruct (Hasks1 z Hz) as (z0 & Hz0 & Hidz0 & _).
    eapply (index_ok_absent b (GetOrderId o) z0); [apply Hwf|done| |congruence].
    apply elem_of_app. by right.
Qed.

(** The same for a sell, against the bids within its limit. *)
Lemma matched_fill_Sell b o trades b' b1 kb ka :
  Inv b → valid_order o → orders_ b !! GetOrderId o = None → GetSide o = Sell →
  matched (insert_order o b) trades b' b1 kb ka →
  traded_quantity trades =
  Z.min (GetRemainingQuantity o) (liquidity Sell (GetPrice o) (flat (bids_ b))) ∧
  remaining_of (GetOrderId o) (book_orders b1) =
  GetRemainingQuantity o - traded_quantity trades.
Proof.
  intros HInv Hvalid Hfresh Hside Hm.
  pose proof (inv_wf b HInv) as Hwf.
  pose proof (insert_order_wf o b Hwf Hvalid Hfresh) as Hwf0.
  pose proof (insert_order_sides o b Hwf) as Hsides. rewrite Hside in Hsides.
  destruct Hsides as [Hbids Hasks].
  pose proof (matched_wf_loop _ _ _ _ _ _ Hm) as Hwf1.
  pose proof (match_loop_uncrossed _ _ _ Hwf0 (matched_loop _ _ _ _ _ _ Hm)) as Hun1.
  pose proof (fun id => match_loop_conserves _ _ _ _ _ id
                (wf_bids_sorted _ Hwf0) (wf_asks_sorted _ Hwf0)
                (matched_loop _ _ _ _ _ _ Hm)) as Hcons.
  pose proof (NoDup_ids_app_r _ _ (wf_nodup _ Hwf0)) as Hnda0.
  pose proof (NoDup_ids_app_l _ _ (wf_nodup _ Hwf)) as Hndb.
  pose proof (wf_quantities _ Hwf1) as Hq1. unfold book_orders in Hq1.
  apply Forall_app in Hq1 as [Hqb1 Hqa1].
  assert (o ∈ flat (asks_ (insert_order o b))) as Ho0.
  { rewrite Hasks. apply elem_of_app. right. left. }
  assert (Forall (fun t =>
            TradeInfo.orderId (ask t) = GetOrderId o ∧
            TradeInfo.quantity (bid t) = TradeInfo.quantity (ask t) ∧
            ∃ r, r ∈ flat (bids_ b) ∧ GetOrderId r = TradeInfo.orderId (bid t) ∧
                 GetPrice o ≤ GetPrice r) trades) as Htr.
  { apply Forall_forall. intros t Ht.
    pose proof (accepted_trade_orders o b trades b' b1 kb ka t HInv Hm Ht)
      as [_ Hacc].
    rewrite Hside in Hacc. destruct Hacc as (Hask & _ & r & Hr & Hidr & Hle).
    pose proof (matched_trades _ _ _ _ _ _ Hm) as Hlt.
    eapply Forall_forall in Hlt; [|done]. destruct Hlt as [Hq _].
    split_and!; [done|done|]. by exists r. }
  (* the order itself *)
  destruct (Hcons (GetOrderId o)) as [_ Hown].
  change (filled_ask (GetOrderId o) []) with 0 in Hown.
  rewrite (remaining_of_elem _ _ o Hnda0 Ho0 eq_refl) in Hown.
  rewrite filled_ask_all in Hown
    by (eapply Forall_impl; [exact Htr|]; by intros t (? & ? & _)).
  pose proof (remaining_of_nonneg (GetOrderId o) _ Hqa1) as HR.
  (* the bids within the limit *)
  unfold liquidity.
  set (W := filter (fun x => within_limit Sell (GetPrice o) (GetPrice x) = true)
              (flat (bids_ b))).
  assert (∀ x, x ∈ W → x ∈ flat (bids_ b) ∧ GetPrice o ≤ GetPrice x) as HWin.
  { intros x Hx. apply list_elem_of_filter in Hx as [Hw Hx]. split; [done|].
    unfold within_limit in Hw. lia. }
  assert (total ((fun x => filled_bid (GetOrderId x) trades) <$> W) +
          total ((fun x => remaining_of (GetOrderId x) (flat (bids_ b1))) <$> W) =
          total (GetRemainingQuantity <$> W)) as Hsum.
  { rewrite <-total_fmap_add. apply total_fmap_ext. intros x Hx.
    destruct (Hcons (GetOrderId x)) as [Hopp _]. rewrite Hopp, Hbids.
    change (filled_bid (GetOrderId x) []) with 0.
    rewrite (remaining_of_elem _ _ x Hndb); [done|by apply HWin|done]. }
  assert (total ((fun x => filled_bid (GetOrderId x) trades) <$> W) =
          traded_quantity trades) as Hfilled.
  { apply (sum_filled bid W trades).
    - by apply NoDup_ids_filter.
    - eapply Forall_impl; [exact Htr|]. intros t (_ & _ & r & Hr & Hidr & Hle).
      apply elem_of_ids. exists r. split; [|done].
      apply list_elem_of_filter. split; [|done]. unfold within_limit. lia. }
  rewrite Hfilled in Hsum.
  assert (0 ≤ total ((fun x => remaining_of (GetOrderId x) (flat (bids_ b1))) <$> W))
    as HS.
  { apply total_fmap_nonneg. intros x _. by apply remaining_of_nonneg. }
  assert (∀ y, y ∈ flat (bids_ b1) →
            ∃ y0, y0 ∈ flat (bids_ b) ∧ GetOrderId y0 = GetOrderId y ∧
                  GetPrice y0 = GetPrice y) as Hbids1.
  { intros y Hy.
    destruct (residue_elem_of _ _ _ y (matched_bids _ _ _ _ _ _ Hm) Hy)
      as (y0 & Hy0 & Hsame).
    rewrite Hbids in Hy0. apply same_order_fields in Hsame.
    exists y0. by split_and!; [|apply Hsame..]. }
  split.
  - apply (fill_amount _ _ (remaining_of (GetOrderId o) (flat (asks_ b1))) _
             (total ((fun x => remaining_of (GetOrderId x) (flat (bids_ b1))) <$> W)));
      [lia|lia|done|done|].
    intros HRpos. apply remaining_of_present in HRpos as (z & Hz & Hidz).
    destruct (residue_elem_of _ _ _ z (matched_asks _ _ _ _ _ _ Hm) Hz)
      as (z0 & Hz0 & Hsame).
    apply same_order_fields in Hsame as (_ & Hid0 & _ & Hprice0 & _).
    assert (z0 = o) as ->.
    { apply (NoDup_ids_inj (flat (asks_ (insert_order o b)))); [done..|congruence]. }
    apply total_fmap_zero. intros x Hx. apply remaining_of_absent.
    intros (y & Hy & Hidy)%elem_of_ids.
    destruct (Hbids1 y Hy) as (y0 & Hy0 & Hidy0 & Hpy0).
    destruct (HWin x Hx) as [Hxin Hxle].
    assert (y0 = x) as ->.
    { apply (NoDup_ids_inj (flat (bids_ b))); [done..|congruence]. }
    pose proof (uncrossed_resting b1 y z Hwf1 Hun1 Hy Hz). lia.
  - unfold book_orders. rewrite remaining_of_app.
    rewrite (remaining_of_absent _ (flat (bids_ b1))); [lia|].
    intros (y & Hy & Hidy)%elem_of_ids.
    destruct (Hbids1 y Hy) as (y0 & Hy0 & Hidy0 & _).
    eapply (index_ok_absent b (GetOrderId o) y0); [apply Hwf|done| |congruence].
    apply elem_of_app. by left.
Qed.

Lemma matched_fill b o trades b' b1 kb ka :
  Inv b → valid_order o → orders_ b !! GetOrderId o = None →
  matched (insert_order o b) trades b' b1 kb ka →
  traded_quantity trades =
  Z.min (GetRemainingQuantity o)
    (liquidity (GetSide o) (GetPrice o) (flat (opposite (GetSide o) b))) ∧
  remaining_of (GetOrderId o) (book_orders b1) =
  GetRemainingQuantity o - traded_quantity trades.
Proof.
  intros HInv Hvalid Hfresh Hm. destruct (GetSide o) eqn:Hside.
  - by eapply matched_fill_Buy.
  - by eapply matched_fill_Sell.
Qed.

Lemma liquidity_none s limit b :
  wf b → CanMatch s limit b = false →
  liquidity s limit (flat (opposite s b)) = 0.
Proof.
  intros Hwf Hcan. unfold liquidity.
  rewrite filter_none; [done|]. apply Forall_forall. intros x Hx Hw.
  assert (CanMatch s limit b = true) as Hyes; [|congruence].
  apply CanMatch_within; [done|]. by exists x.
Qed.

Lemma AddOrder_fill_amount b o o' trades b' :
  reachable b → valid_order o → orders_ b !! GetOrderId o = None →
  convert_market o b = Some o' →
  (GetOrderType o' = FillOrKill →
   CanFullyFill (GetSide o') (GetPrice o') (GetInitialQuantity o') b = true) →
  AddOrder o b = Ok (trades, b') →
  traded_quantity trades =
  Z.min (GetRemainingQuantity o)
    (liquidity (GetSide o) (GetPrice o') (flat (opposite (GetSide o) b))) ∧
  (GetOrderType o' ≠ FillAndKill →
   remaining_of (GetOrderId o) (book_orders b') =
   GetRemainingQuantity o - traded_quantity trades).
Proof.
  intros Hb Hvalid Hfresh Hconv Hfok Hadd.
  pose proof (reachable_Inv b Hb) as HInv.
  destruct (convert_market_Some o b o' Hconv) as (Hid & Hside & _ & Hrem & _ & _).
  pose proof (convert_market_valid o b o' Hconv Hvalid) as Hvalid'.
  unfold AddOrder in Hadd.
  rewrite bool_decide_eq_false_2 in Hadd by (rewrite Hfresh; by intros [? ?]).
  rewrite Hconv in Hadd.
  destruct (bool_decide (GetOrderType o' = FillAndKill)
            && negb (CanMatch (GetSide o') (GetPrice o') b)) eqn:Hfak.
  - injection Hadd as <- <-.
    apply andb_prop in Hfak as [Hty Hcan].
    apply bool_decide_eq_true in Hty. apply negb_true_iff in Hcan.
    rewrite <-Hside, liquidity_none by (done || apply HInv).
    split; [|done]. destruct Hvalid as [[? _] _].
    change (traded_quantity []) with 0. lia.
  - destruct (bool_decide (GetOrderType o' = FillOrKill)
              && negb (CanFullyFill (GetSide o') (GetPrice o')
                         (GetInitialQuantity o') b)) eqn:Hfok'.
    { apply andb_prop in Hfok' as [Hty Hcan].
      apply bool_decide_eq_true in Hty. rewrite (Hfok Hty) in Hcan. done. }
    assert (GetOrderType o' = FillAndKill →
            CanMatch (GetSide o') (GetPrice o') b = true) as Hcan.
    { intros Hty. rewrite bool_decide_eq_true_2 in Hfak by done.
      by destruct (CanMatch (GetSide o') (GetPrice o') b). }
    destruct (AddOrder_accepted o o' b HInv Hvalid Hfresh Hconv Hcan)
      as (trades2 & b2 & b1 & kb & ka & Hrun & Hm & Hwf0 & _).
    rewrite Hrun in Hadd. injection Hadd as -> ->.
    rewrite <-Hid in Hfresh.
    destruct (matched_fill b o' trades b' b1 kb ka HInv Hvalid' Hfresh Hm)
      as [Htraded Hrest].
    rewrite Hside, Hrem in Htraded. split; [done|].
    intros Hty. rewrite <-Hid, <-Hrem, <-Hrest. f_equal. f_equal.
    apply (matched_loop_only _ _ _ _ _ _ Hm).
    unfold no_FillAndKill. rewrite book_orders_insert by apply HInv.
    constructor; [done|apply HInv].
Qed.

(** An order that [AddOrder] accepts trades as much as the book allows: the
    trades of the call exchange the smaller of the quantity of the order and
    of what the orders of the other side within its limit price offer (for a
    market order, the limit is the price it was given by the conversion).
    Unless it is a FillAndKill order, what is left of it rests in the
    book. *)
Theorem AddOrder_fills_what_the_book_offers b o o' trades b' :
  reachable b → valid_order o → orders_ b !! GetOrderId o = None →
  convert_market o b = Some o' →
  (GetOrderType o' = FillOrKill →
   CanFullyFill (GetSide o') (GetPrice o') (GetInitialQuantity o') b = true) →
  AddOrder o b = Ok (trades, b') →
  traded_quantity trades =
  Z.min (GetRemainingQuantity o)
    (liquidity (GetSide o) (GetPrice o') (flat (opposite (GetSide o) b))) ∧
  (GetOrderType o' ≠ FillAndKill →
   remaining_of (GetOrderId o) (book_orders b') =
   GetRemainingQuantity o - traded_quantity trades).
Proof. apply AddOrder_fill_amount. Qed.

Lemma AddOrder_fills_what_the_book_offers_witness :
  let b := book_after [ReqAdd (new_Order GoodTillCancel 1 Sell 100 5);
                       ReqAdd (new_Order GoodTillCancel 2 Sell 101 4);
                       ReqAdd (new_Order GoodTillCancel 3 Sell 103 9)] in
  let o := new_Order GoodTillCancel 4 Buy 101 12 in
  reachable b ∧
  liquidity Buy 101 (flat (asks_ b)) = 9 ∧
  ∃ trades b',
    AddOrder o b = Ok (trades, b') ∧
    traded_quantity trades = 9 ∧
    remaining_of 4 (book_orders b') = 3.
Proof.
  intros b o.
  assert (Hb : reachable b) by (apply reachable_book_after; solve_valid).
  split; [exact Hb|]. split; [reflexivity|].
  destruct (AddOrder_Inv o b (reachable_Inv b Hb)) as (trades & b' & Hadd & _);
    [solve_valid|].
  exists trades, b'. split; [exact Hadd|].
  destruct (AddOrder_fills_what_the_book_offers b o o trades b' Hb)
    as [Htraded Hrest];
    [solve_valid|reflexivity|reflexivity|discriminate|exact Hadd|].
  split; [exact Htraded|]. etrans; [apply Hrest; discriminate|].
  rewrite Htraded. reflexivity.
Defined.

(** ** Where the orders of a book come from *)

Lemma residue_elem_of_le k l l' o' :
  residue k l l' → o' ∈ l' →
  ∃ o, o ∈ l ∧ same_order o o' ∧
       GetRemainingQuantity o' ≤ GetRemainingQuantity o.
Proof.
  induction 1 as [l|o q l Hq|k o l l' _ IH]; intros Hin.
  - exists o'. split_and!; [done|apply same_order_refl|lia].
  - apply elem_of_cons in Hin as [->|Hin].
    + exists o. split_and!; [left|apply same_order_set_remaining|simpl; lia].
    + exists o'. split_and!; [by right|apply same_order_refl|lia].
  - destruct (IH Hin) as (x & Hx & Hsame & Hle). exists x.
    split_and!; [by right|done|done].
Qed.

(** Every order that [MatchOrders] leaves in the book was in the book it
    started from, with at least the quantity it has now. *)
Lemma matched_provenance b trades b' b1 kb ka x :
  matched b trades b' b1 kb ka → x ∈ book_orders b' →
  ∃ x0, x0 ∈ book_orders b ∧ same_order x0 x ∧
        GetRemainingQuantity x ≤ GetRemainingQuantity x0.
Proof.
  intros Hm Hx. unfold book_orders in *. apply elem_of_app in Hx as [Hx|Hx].
  - apply (matched_bids_left _ _ _ _ _ _ Hm) in Hx.
    destruct (residue_elem_of_le _ _ _ x (matched_bids _ _ _ _ _ _ Hm) Hx)
      as (x0 & Hx0 & Hsame & Hle).
    exists x0. split_and!; [|done..]. apply elem_of_app. by left.
  - apply (matched_asks_left _ _ _ _ _ _ Hm) in Hx.
    destruct (residue_elem_of_le _ _ _ x (matched_asks _ _ _ _ _ _ Hm) Hx)
      as (x0 & Hx0 & Hsame & Hle).
    exists x0. split_and!; [|done..]. apply elem_of_app. by right.
Qed.

(** What [AddOrder] leaves in the book under the identifier of the order it
    was given is that order, as converted. *)
Lemma AddOrder_own_order b o o' trades b' x :
  Inv b → valid_order o → orders_ b !! GetOrderId o = None →
  convert_market o b = Some o' → AddOrder o b = Ok (trades, b') →
  x ∈ book_orders b' → GetOrderId x = GetOrderId o → same_order o' x.
Proof.
  intros HInv Hvalid Hfresh Hconv Hadd Hx Hid.
  pose proof (inv_wf b HInv) as Hwf.
  destruct (AddOrder_cases o b) as [Hno|(o2 & _ & Hconv2 & Hcan & _ & Hrun)].
  - rewrite Hno in Hadd. injection Hadd as _ <-.
    by destruct (index_ok_absent b (GetOrderId o) x (wf_index b Hwf) Hfresh Hx).
  - rewrite Hconv in Hconv2. injection Hconv2 as <-.
    destruct (AddOrder_accepted o o' b HInv Hvalid Hfresh Hconv Hcan)
      as (trades2 & b2 & b1 & kb & ka & Hrun2 & Hm & Hwf0 & _).
    rewrite Hrun, Hrun2 in Hadd. injection Hadd as -> ->.
    destruct (matched_provenance _ _ _ _ _ _ x Hm Hx) as (x0 & Hx0 & Hsame & _).
    destruct (convert_market_Some o b o' Hconv) as (Hid' & _).
    assert (x0 = o') as ->; [|done].
    apply (NoDup_ids_inj (book_orders (insert_order o' b))); [apply Hwf0|done| |].
    + rewrite book_orders_insert by done. left.
    + apply same_order_id in Hsame. congruence.
Qed.

(** ** Market orders *)

Lemma liquidity_all s worst q b :
  wf b → map_rbegin (opposite s b) = Some (worst, q) →
  liquidity s worst (flat (opposite s b)) =
  total (GetRemainingQuantity <$> flat (opposite s b)).
Proof.
  intros Hwf Hlast. unfold liquidity. rewrite filter_all; [done|].
  apply Forall_forall. intros x Hx.
  destruct (side_ok_flat _ _ _ (opposite_side_ok s b Hwf) Hx) as [_ Hk].
  pose proof (opposite_sorted s b Hwf) as Hs.
  assert (comparator match s with Buy => less | Sell => greater end) as Hcmp
    by (destruct s; constructor).
  destruct (sorted_keys_last _ _ _ _ (GetPrice x) Hcmp Hs Hlast Hk)
    as [->|Hlt]; destruct s; unfold within_limit, less, greater in *; lia.
Qed.

(** A market order trades the smaller of its quantity and of everything
    that rests on the other side.  What is left of it rests in the book as
    a GoodTillCancel order at the worst price of the other side. *)
Theorem Market_order_takes_what_rests b o worst q trades b' :
  reachable b → valid_order o → orders_ b !! GetOrderId o = None →
  GetOrderType o = Market →
  map_rbegin (opposite (GetSide o) b) = Some (worst, q) →
  AddOrder o b = Ok (trades, b') →
  traded_quantity trades =
  Z.min (GetRemainingQuantity o)
    (total (GetRemainingQuantity <$> flat (opposite (GetSide o) b))) ∧
  remaining_of (GetOrderId o) (book_orders b') =
  GetRemainingQuantity o - traded_quantity trades ∧
  (∀ x, x ∈ book_orders b' → GetOrderId x = GetOrderId o →
     GetOrderType x = GoodTillCancel ∧ GetPrice x = worst).
Proof.
  intros Hb Hvalid Hfresh Hty Hlast Hadd.
  pose proof (reachable_Inv b Hb) as HInv.
  pose proof (convert_market_Market o b worst q Hty Hlast) as Hconv.
  pose proof (ToGoodTillCancel_Market worst o Hty) as Hlimit.
  destruct (AddOrder_fill_amount b o _ trades b' Hb Hvalid Hfresh Hconv)
    as [Htraded Hrest]; [by rewrite Hlimit|done|].
  rewrite Hlimit in Htraded, Hrest. cbn [GetPrice GetOrderType] in Htraded, Hrest.
  rewrite (liquidity_all _ _ q) in Htraded by (done || apply HInv).
  split_and!; [done|by apply Hrest|].
  intros x Hx Hid.
  pose proof (AddOrder_own_order b o _ trades b' x HInv Hvalid Hfresh Hconv Hadd
                Hx Hid) as Hsame.
  rewrite Hlimit in Hsame.
  apply same_order_fields in Hsame as (Ht & _ & _ & Hp & _). by split.
Qed.

Lemma Market_order_takes_what_rests_witness :
  let b := book_after [ReqAdd (new_Order GoodTillCancel 1 Sell 99 5);
                       ReqAdd (new_Order GoodTillCancel 2 Sell 101 5)] in
  let o := new_Order Market 3 Buy 0 12 in
  reachable b ∧
  ∃ trades b',
    AddOrder o b = Ok (trades, b') ∧
    traded_quantity trades = 10 ∧
    remaining_of 3 (book_orders b') = 2 ∧
    (∀ x, x ∈ book_orders b' → GetOrderId x = 3 →
       GetOrderType x = GoodTillCancel ∧ GetPrice x = 101).
Proof.
  intros b o.
  assert (Hb : reachable b) by (apply reachable_book_after; solve_valid).
  split; [exact Hb|].
  destruct (AddOrder_Inv o b (reachable_Inv b Hb)) as (trades & b' & Hadd & _);
    [solve_valid|].
  exists trades, b'. split; [exact Hadd|].
  destruct (Market_order_takes_what_rests b o 101
              [new_Order GoodTillCancel 2 Sell 101 5] trades b' Hb)
    as (Htraded & Hrest & Hown);
    [solve_valid|reflexivity|reflexivity|reflexivity|exact Hadd|].
  split; [exact Htraded|]. split; [|exact Hown].
  etrans; [exact Hrest|]. rewrite Htraded. reflexivity.
Defined.

(** ** FillOrKill orders *)

(** When the level aggregate agrees with the queues at the prices within
    the limit, a FillOrKill order is all or nothing: it is filled in full if
    the orders resting at those prices offer its quantity, and is rejected
    without effect if they do not. *)
Theorem FillOrKill_exact_when_the_aggregate_agrees b o trades b' :
  reachable b → valid_order o →
  GetRemainingQuantity o = GetInitialQuantity o →
  orders_ b !! GetOrderId o = None → GetOrderType o = FillOrKill →
  aggregate_within (GetSide o) (GetPrice o) (data_ b) (opposite (GetSide o) b) =
  liquidity (GetSide o) (GetPrice o) (flat (opposite (GetSide o) b)) →
  AddOrder o b = Ok (trades, b') →
  if CanMatch (GetSide o) (GetPrice o) b
     && bool_decide (GetInitialQuantity o ≤
                     liquidity (GetSide o) (GetPrice o)
                       (flat (opposite (GetSide o) b)))
  then traded_quantity trades = GetInitialQuantity o ∧
       remaining_of (GetOrderId o) (book_orders b') = 0
  else trades = [] ∧ b' = b.
Proof.
  intros Hb Hvalid Hnew Hfresh Hty Hagree Hadd.
  assert (GetOrderType o ≠ Market) as Hnm by by rewrite Hty.
  pose proof (convert_market_other o b Hnm) as Hconv.
  pose proof (CanFullyFill_aggregate b (GetSide o) (GetPrice o)
                (GetInitialQuantity o) Hb) as Hfull.
  rewrite Hagree in Hfull.
  destruct (CanMatch (GetSide o) (GetPrice o) b
            && bool_decide (GetInitialQuantity o ≤
                            liquidity (GetSide o) (GetPrice o)
                              (flat (opposite (GetSide o) b)))) eqn:Hok.
  - destruct (AddOrder_fill_amount b o o trades b' Hb Hvalid Hfresh Hconv)
      as [Htraded Hrest]; [intros _; apply Hfull; destruct Hvalid; lia|done|].
    apply andb_prop in Hok as [_ Hle]. apply bool_decide_eq_true in Hle.
    assert (traded_quantity trades = GetInitialQuantity o) as Heq by lia.
    split; [done|]. rewrite Hrest by by rewrite Hty. lia.
  - unfold AddOrder in Hadd.
    rewrite bool_decide_eq_false_2 in Hadd by (rewrite Hfresh; by intros [? ?]).
    rewrite Hconv in Hadd.
    rewrite (bool_decide_eq_false_2 (GetOrderType o = FillAndKill)) in Hadd
      by by rewrite Hty.
    rewrite (bool_decide_eq_true_2 (GetOrderType o = FillOrKill)) in Hadd by done.
    rewrite Hfull in Hadd by (destruct Hvalid; lia).
    cbn [andb negb] in Hadd. by injection Hadd as <- <-.
Qed.

Lemma FillOrKill_exact_when_the_aggregate_agrees_witness :
  let b := book_after [ReqAdd (new_Order GoodTillCancel 1 Sell 100 5);
                       ReqAdd (new_Order GoodTillCancel 2 Sell 101 4)] in
  let o := new_Order FillOrKill 3 Buy 101 9 in
  reachable b ∧
  ∃ trades b',
    AddOrder o b = Ok (trades, b') ∧
    traded_quantity trades = 9 ∧ remaining_of 3 (book_orders b') = 0.
Proof.
  intros b o.
  assert (Hb : reachable b) by (apply reachable_book_after; solve_valid).
  split; [exact Hb|].
  destruct (AddOrder_Inv o b (reachable_Inv b Hb)) as (trades & b' & Hadd & _);
    [solve_valid|].
  exists trades, b'. split; [exact Hadd|].
  apply (FillOrKill_exact_when_the_aggregate_agrees b o trades b' Hb);
    [solve_valid|reflexivity|reflexivity|reflexivity|reflexivity|exact Hadd].
Defined.

(** * Resting orders are left alone *)

Lemma AddOrder_provenance b o trades b' x :
  Inv b → valid_order o → AddOrder o b = Ok (trades, b') → x ∈ book_orders b' →
  (∃ x0, x0 ∈ book_orders b ∧ same_order x0 x ∧
         GetRemainingQuantity x ≤ GetRemainingQuantity x0) ∨
  (∃ o', convert_market o b = Some o' ∧ same_order o' x ∧
         GetRemainingQuantity x ≤ GetRemainingQuantity o').
Proof.
  intros HInv Hvalid Hadd Hx. pose proof (inv_wf b HInv) as Hwf.
  destruct (AddOrder_cases o b) as [Hno|(o' & Hfresh & Hconv & Hcan & _ & Hrun)].
  - rewrite Hno in Hadd. injection Hadd as _ <-. left. exists x.
    split_and!; [done|apply same_order_refl|lia].
  - destruct (AddOrder_accepted o o' b HInv Hvalid Hfresh Hconv Hcan)
      as (trades2 & b2 & b1 & kb & ka & Hrun2 & Hm & _).
    rewrite Hrun, Hrun2 in Hadd. injection Hadd as -> ->.
    destruct (matched_provenance _ _ _ _ _ _ x Hm Hx) as (x0 & Hx0 & Hsame & Hle).
    rewrite book_orders_insert in Hx0 by done.
    apply elem_of_cons in Hx0 as [->|Hx0].
    + right. by exists o'.
    + left. by exists x0.
Qed.

Lemma CancelOrderInternal_provenance b id b' x :
  wf b → CancelOrderInternal id b = Ok b' → x ∈ book_orders b' →
  x ∈ book_orders b.
Proof.
  intros Hwf Hrun Hx.
  destruct (CancelOrderInternal_filter id b b' Hwf Hrun) as (_ & Hfb & Hfa & _).
  unfold book_orders in *. rewrite Hfb, Hfa in Hx.
  apply elem_of_app in Hx as [Hx|Hx]; apply list_elem_of_filter in Hx as [_ Hx];
    apply elem_of_app; [by left|by right].
Qed.

Lemma cancel_all_provenance l b b' x :
  wf b → cancel_all l b = Ok b' → x ∈ book_orders b' → x ∈ book_orders b.
Proof.
  intros Hwf Hrun Hx.
  destruct (cancel_all_filter l b b' Hwf Hrun) as (_ & _ & Hfb & Hfa).
  unfold book_orders in *. rewrite Hfb, Hfa in Hx.
  apply elem_of_app in Hx as [Hx|Hx]; apply list_elem_of_filter in Hx as [_ Hx];
    apply elem_of_app; [by left|by right].
Qed.

(** No call changes the type, the side, the price or the initial quantity
    of an order that rests in the book, and none raises its remaining
    quantity: an order of the book after a call either was in the book
    before it, or carries the identifier of the order that the call added
    or modified. *)
Theorem resting_orders_only_shrink r b trades b' x :
  reachable b → valid_request r → step r b = Ok (trades, b') →
  x ∈ book_orders b' →
  (∃ x0, x0 ∈ book_orders b ∧ same_order x0 x ∧
         GetRemainingQuantity x ≤ GetRemainingQuantity x0) ∨
  match r with
  | ReqAdd o => GetOrderId x = GetOrderId o
  | ReqModify m => GetOrderId x = OrderModify.orderId m
  | _ => False
  end.
Proof.
  intros Hb Hr Hstep Hx. pose proof (reachable_Inv b Hb) as HInv.
  pose proof (inv_wf b HInv) as Hwf.
  assert (∀ y, y ∈ book_orders b →
            ∃ x0, x0 ∈ book_orders b ∧ same_order x0 y ∧
                  GetRemainingQuantity y ≤ GetRemainingQuantity x0) as Hself.
  { intros y Hy. exists y. split_and!; [done|apply same_order_refl|lia]. }
  destruct r as [o|id|m|]; simpl in Hstep, Hr.
  - destruct (AddOrder_provenance b o trades b' x HInv Hr Hstep Hx)
      as [Hold|(o' & Hconv & Hsame & _)]; [by left|right].
    apply same_order_id in Hsame.
    destruct (convert_market_Some o b o' Hconv) as (Hid & _). congruence.
  - inv_bind Hstep. injection Hstep as _ <-. left. apply Hself.
    by eapply CancelOrderInternal_provenance.
  - unfold ModifyOrder in Hstep.
    destruct (orders_ b !! OrderModify.orderId m) as [e|] eqn:He.
    + inv_bind Hstep. unfold CancelOrder in Ha.
      destruct (CancelOrderInternal_Inv (OrderModify.orderId m) b HInv)
        as (b1 & Hb1 & HInv1).
      rewrite Hb1 in Ha. injection Ha as <-.
      assert (valid_order (OrderModify.ToOrderPointer m (entry_type e))) as Hv.
      { unfold valid_order. simpl. lia. }
      destruct (AddOrder_provenance b1 _ trades b' x HInv1 Hv Hstep Hx)
        as [(x0 & Hx0 & Hsame & Hle)|(o' & Hconv & Hsame & _)].
      * left. exists x0. split_and!; [|done..].
        by eapply CancelOrderInternal_provenance.
      * right. apply same_order_id in Hsame.
        destruct (convert_market_Some _ b1 o' Hconv) as (Hid & _).
        rewrite <-Hsame, Hid. done.
    + injection Hstep as _ <-. left. by apply Hself.
  - inv_bind Hstep. injection Hstep as _ <-. left. apply Hself.
    by eapply cancel_all_provenance.
Qed.

Lemma resting_orders_only_shrink_witness :
  let b := book_after [ReqAdd (new_Order GoodTillCancel 1 Sell 100 5);
                       ReqAdd (new_Order GoodTillCancel 2 Sell 101 4)] in
  let r := ReqAdd (new_Order GoodTillCancel 3 Buy 100 2) in
  let x := mkOrder GoodTillCancel 1 Sell 100 5 3 in
  reachable b ∧
  ∃ trades b', step r b = Ok (trades, b') ∧ x ∈ book_orders b' ∧
    ((∃ x0, x0 ∈ book_orders b ∧ same_order x0 x ∧
            GetRemainingQuantity x ≤ GetRemainingQuantity x0) ∨
     GetOrderId x = 3).
Proof.
  intros b r x.
  assert (Hb : reachable b) by (apply reachable_book_after; solve_valid).
  split; [exact Hb|].
  destruct (step_Inv r b (reachable_Inv b Hb)) as (trades & b' & Hstep & _);
    [solve_valid|].
  exists trades, b'. split; [exact Hstep|].
  assert (Hx : x ∈ book_orders b').
  { assert (Hb' : Ok (trades, b') = step r b) by (symmetry; exact Hstep).
    vm_compute in Hb'. injection Hb' as _ ->. left. }
  split; [exact Hx|].
  apply (resting_orders_only_shrink r b trades b' x Hb); [solve_valid|done|done].
Defined.

(** ** The types of the orders that rest *)

Lemma convert_market_not_Market o b o' :
  convert_market o b = Some o' → GetOrderType o' ≠ Market.
Proof.
  unfold convert_market. case_bool_decide as Hty.
  - destruct (GetSide o);
      [destruct (map_rbegin (asks_ b)) as [[worst q]|]
      |destruct (map_rbegin (bids_ b)) as [[worst q]|]];
      intros [= <-]; by rewrite ToGoodTillCancel_Market.
  - by intros [= <-].
Qed.

Lemma step_no_Market r b trades b' :
  Inv b → valid_request r →
  Forall (fun x => GetOrderType x ≠ Market) (book_orders b) →
  step r b = Ok (trades, b') →
  Forall (fun x => GetOrderType x ≠ Market) (book_orders b').
Proof.
  intros HInv Hr HP Hstep. pose proof (inv_wf b HInv) as Hwf.
  apply Forall_forall. intros x Hx.
  destruct r as [o|id|m|]; simpl in Hstep, Hr.
  - destruct (AddOrder_provenance b o trades b' x HInv Hr Hstep Hx)
      as [(x0 & Hx0 & Hsame & _)|(o' & Hconv & Hsame & _)];
      apply same_order_fields in Hsame as (<- & _).
    + by eapply Forall_forall in HP.
    + by eapply convert_market_not_Market.
  - inv_bind Hstep. injection Hstep as _ <-.
    eapply Forall_forall in HP; [done|].
    by eapply CancelOrderInternal_provenance.
  - unfold ModifyOrder in Hstep.
    destruct (orders_ b !! OrderModify.orderId m) as [e|] eqn:He.
    + inv_bind Hstep. unfold CancelOrder in Ha.
      destruct (CancelOrderInternal_Inv (OrderModify.orderId m) b HInv)
        as (b1 & Hb1 & HInv1).
      rewrite Hb1 in Ha. injection Ha as <-.
      assert (valid_order (OrderModify.ToOrderPointer m (entry_type e))) as Hv.
      { unfold valid_order. simpl. lia. }
      destruct (AddOrder_provenance b1 _ trades b' x HInv1 Hv Hstep Hx)
        as [(x0 & Hx0 & Hsame & _)|(o' & Hconv & Hsame & _)];
        apply same_order_fields in Hsame as (<- & _).
      * eapply Forall_forall in HP; [done|].
        by eapply CancelOrderInternal_provenance.
      * by eapply convert_market_not_Market.
    + injection Hstep as _ <-. by eapply Forall_forall in HP.
  - inv_bind Hstep. injection Hstep as _ <-.
    eapply Forall_forall in HP; [done|]. by eapply cancel_all_provenance.
Qed.

Lemma run_no_Market rs b b' :
  Inv b → Forall valid_request rs →
  Forall (fun x => GetOrderType x ≠ Market) (book_orders b) →
  run rs b = Ok b' →
  Forall (fun x => GetOrderType x ≠ Market) (book_orders b').
Proof.
  revert b. induction rs as [|r rs IH]; intros b HInv Hrs HP; simpl.
  - by intros [= <-].
  - apply Forall_cons in Hrs as [Hr Hrs]. intros Hrun. inv_bind Hrun.
    destruct a as [trades b1].
    destruct (step_Inv r b HInv Hr) as (trades' & b1' & Hstep & HInv1).
    rewrite Hstep in Ha. injection Ha as -> ->.
    eapply (IH b1); [done|done| |done].
    exact (step_no_Market r b trades b1 HInv Hr HP Hstep).
Qed.

(** Only GoodTillCancel, FillOrKill and GoodForDay orders rest in the book
    between calls: a market order is converted before it is inserted, and
    what is left of a FillAndKill order is cancelled before [AddOrder]
    returns. *)
Theorem Market_and_FillAndKill_orders_never_rest b :
  reachable b →
  (∀ x, x ∈ book_orders b →
     GetOrderType x = GoodTillCancel ∨ GetOrderType x = FillOrKill ∨
     GetOrderType x = GoodForDay) ∧
  (∀ id e, orders_ b !! id = Some e →
     entry_type e = GoodTillCancel ∨ entry_type e = FillOrKill ∨
     entry_type e = GoodForDay).
Proof.
  intros Hb. pose proof (reachable_Inv b Hb) as HInv.
  assert (∀ x, x ∈ book_orders b →
            GetOrderType x = GoodTillCancel ∨ GetOrderType x = FillOrKill ∨
            GetOrderType x = GoodForDay) as Hty.
  { intros x Hx. destruct Hb as (rs & Hrs & Hrun).
    pose proof (run_no_Market rs empty_book b Inv_empty Hrs) as HnM.
    eapply Forall_forall in HnM; [|constructor|done|done].
    pose proof (inv_no_FillAndKill b HInv) as HnF.
    eapply Forall_forall in HnF; [|done].
    destruct (GetOrderType x); tauto. }
  split; [done|]. intros id e He.
  apply (wf_index b (inv_wf b HInv)) in He as (x & Hx & _ & ->).
  by apply Hty.
Qed.

Lemma Market_and_FillAndKill_orders_never_rest_witness :
  let b := book_after [ReqAdd (new_Order GoodTillCancel 1 Sell 100 5);
                       ReqAdd (new_Order Market 2 Buy 0 8)] in
  reachable b ∧
  book_orders b = [mkOrder GoodTillCancel 2 Buy 100 8 3] ∧
  (∀ x, x ∈ book_orders b →
     GetOrderType x = GoodTillCancel ∨ GetOrderType x = FillOrKill ∨
     GetOrderType x = GoodForDay).
Proof.
  intros b.
  assert (Hb : reachable b) by (apply reachable_book_after; solve_valid).
  split; [exact Hb|]. split; [reflexivity|].
  apply (Market_and_FillAndKill_orders_never_rest b Hb).
Defined.

(** * Level snapshots at any depth *)

Lemma level_quantity_mod l :
  level_quantity l = total (GetRemainingQuantity <$> l) mod UINT64_MOD.
Proof.
  unfold level_quantity.
  change 0 with (0 mod UINT64_MOD) at 1. by rewrite level_quantity_fold.
Qed.

(** For every book, every allocator and every depth.  A depth beyond
    [max_size()] of the vector gives [std::length_error] and a depth within
    it that the allocator refuses gives [std::bad_alloc], whatever the book
    holds.  Every other depth gives the snapshot of a side: its first
    [depth] levels in the order of the map, each with its price and the
    remaining quantities of its queue added up in 64 bits.  Depth zero gives
    nothing (and asks nothing of the allocator), a depth beyond the number
    of levels gives them all, and a smaller depth gives a prefix of what a
    larger one gives. *)
Theorem levels_at_any_depth b alloc depth :
  let level := fun pq : Price * OrderPointers =>
    (pq.1, total (GetRemainingQuantity <$> pq.2) mod UINT64_MOD) in
  ((max_size < depth)%N →
   GetBidLevels alloc depth b = Throw length_error ∧
   GetAskLevels alloc depth b = Throw length_error) ∧
  ((0 < depth ≤ max_size)%N → alloc depth = false →
   GetBidLevels alloc depth b = Throw bad_alloc ∧
   GetAskLevels alloc depth b = Throw bad_alloc) ∧
  ((depth ≤ max_size)%N → depth = 0%N ∨ alloc depth = true →
   GetBidLevels alloc depth b = Ok (take (N.to_nat depth) (level <$> bids_ b)) ∧
   GetAskLevels alloc depth b = Ok (take (N.to_nat depth) (level <$> asks_ b)) ∧
   (∀ depth' bids asks,
      (depth ≤ depth')%N →
      GetBidLevels alloc depth' b = Ok bids →
      GetAskLevels alloc depth' b = Ok asks →
      GetBidLevels alloc depth b = Ok (take (N.to_nat depth) bids) ∧
      GetAskLevels alloc depth b = Ok (take (N.to_nat depth) asks)) ∧
   ((N.of_nat (length (bids_ b)) ≤ depth)%N →
    GetBidLevels alloc depth b = Ok (level <$> bids_ b)) ∧
   ((N.of_nat (length (asks_ b)) ≤ depth)%N →
    GetAskLevels alloc depth b = Ok (level <$> asks_ b))) ∧
  GetBidLevels alloc 0 b = Ok [] ∧ GetAskLevels alloc 0 b = Ok [].
Proof.
  intros level.
  assert (∀ d m, levels_loop d m [] = take (N.to_nat d) (level <$> m)) as Hloop.
  { intros d m. rewrite levels_loop_take. simpl. rewrite Nat.sub_0_r.
    f_equal. apply list_fmap_ext. intros _ [p q] _. unfold level. simpl.
    by rewrite level_quantity_mod. }
  assert (∀ d, (d ≤ max_size)%N → d = 0%N ∨ alloc d = true →
               GetBidLevels alloc d b = Ok (take (N.to_nat d) (level <$> bids_ b)) ∧
               GetAskLevels alloc d b = Ok (take (N.to_nat d) (level <$> asks_ b)))
    as Hlevels.
  { intros d Hmax Halloc. unfold GetBidLevels, GetAskLevels.
    rewrite (reserve_Ok _ _ Hmax Halloc). cbn [bind]. by rewrite !Hloop. }
  split_and!.
  - intros Hmax. unfold GetBidLevels, GetAskLevels.
    by rewrite (reserve_length_error _ _ Hmax).
  - intros Hdepth Halloc. unfold GetBidLevels, GetAskLevels.
    by rewrite (reserve_bad_alloc _ _ Hdepth Halloc).
  - intros Hmax Halloc. destruct (Hlevels depth Hmax Halloc) as [Hb Ha].
    split_and!; try done.
    + intros depth' bids asks Hle Hbids Hasks.
      unfold GetBidLevels, GetAskLevels in Hbids, Hasks.
      destruct (reserve alloc depth'); [|done]. cbn [bind] in Hbids, Hasks.
      injection Hbids as <-. injection Hasks as <-.
      rewrite Hb, Ha, !Hloop, !take_take.
      by rewrite Nat.min_l by lia.
    + intros Hlen. rewrite Hb. f_equal. apply take_ge. rewrite length_fmap. lia.
    + intros Hlen. rewrite Ha. f_equal. apply take_ge. rewrite length_fmap. lia.
  - apply Hlevels; [lia|by left].
  - apply Hlevels; [lia|by left].
Qed.

(** * The level aggregate before the first trade *)

Lemma match_level_prefix fuel bp ap s s' :
  match_level fuel bp ap s = Ok s' → ∃ new, lv_trades s' = lv_trades s ++ new.
Proof.
  revert s. induction fuel as [|fuel IH]; intros [bids asks orders data trades];
    cbn [match_level lv_bids lv_asks lv_orders lv_data lv_trades].
  - destruct bids as [|bid bids]; [intros [= <-]; exists []; by rewrite app_nil_r|].
    destruct asks as [|ask asks]; [intros [= <-]; exists []; by rewrite app_nil_r|done].
  - destruct bids as [|bid bids]; [intros [= <-]; exists []; by rewrite app_nil_r|].
    destruct asks as [|ask asks]; [intros [= <-]; exists []; by rewrite app_nil_r|].
    intros Hrun. inv_bind Hrun. inv_bind Hrun.
    apply IH in Hrun as [new Hnew]. cbn [lv_trades] in Hnew.
    rewrite Hnew, <-app_assoc. by eexists.
Qed.

Lemma match_loop_prefix fuel b trades trades' b' :
  match_loop fuel b trades = Ok (trades', b') → ∃ new, trades' = trades ++ new.
Proof.
  revert b trades. induction fuel as [|fuel IH];
    intros [bids asks orders data] trades;
    cbn [match_loop bids_ asks_ orders_ data_].
  - destruct bids as [|[bp bq] brest];
      [intros [= <- <-]; exists []; by rewrite app_nil_r|].
    destruct asks as [|[ap aq] arest];
      [intros [= <- <-]; exists []; by rewrite app_nil_r|].
    destruct (bp <? ap); [intros [= <- <-]; exists []; by rewrite app_nil_r|done].
  - destruct bids as [|[bp bq] brest];
      [intros [= <- <-]; exists []; by rewrite app_nil_r|].
    destruct asks as [|[ap aq] arest];
      [intros [= <- <-]; exists []; by rewrite app_nil_r|].
    destruct (bp <? ap); [intros [= <- <-]; exists []; by rewrite app_nil_r|].
    intros Hrun. inv_bind Hrun.
    apply match_level_prefix in Ha as [new1 Hnew1]. cbn [lv_trades] in Hnew1.
    apply IH in Hrun as [new2 ->]. rewrite Hnew1, <-app_assoc. by eexists.
Qed.

(** When the best bid and the best ask cross, the loop makes a trade. *)
Lemma match_loop_crossing fuel bp bq brest ap aq arest orders data trades' b' :
  ap ≤ bp → bq ≠ [] → aq ≠ [] →
  match_loop fuel (mkBook ((bp, bq) :: brest) ((ap, aq) :: arest) orders data) []
  = Ok (trades', b') →
  trades' ≠ [].
Proof.
  intros Hle Hbq Haq. destruct fuel as [|fuel];
    cbn [match_loop bids_ asks_ orders_ data_];
    destruct (Z.ltb_spec bp ap); try lia; [done|].
  intros Hrun. inv_bind Hrun.
  apply match_loop_prefix in Hrun as [new2 ->].
  destruct bq as [|bid bq]; [done|]. destruct aq as [|ask aq]; [done|].
  cbn [match_level_bound length Nat.add match_level lv_bids lv_asks lv_trades
       lv_orders lv_data] in Ha.
  inv_bind Ha. inv_bind Ha.
  apply match_level_prefix in Ha as [new1 Hnew1]. cbn [lv_trades] in Hnew1.
  rewrite Hnew1. simpl. done.
Qed.

Lemma CanMatch_worst s worst q b :
  wf b → map_rbegin (opposite s b) = Some (worst, q) → CanMatch s worst b = true.
Proof.
  intros Hwf Hlast. rewrite CanMatch_head.
  pose proof (opposite_sorted s b Hwf) as Hs.
  assert (comparator match s with Buy => less | Sell => greater end) as Hcmp
    by (destruct s; constructor).
  destruct (opposite s b) as [|[best q0] rest] eqn:Hopp; [done|].
  destruct (sorted_keys_last _ _ _ _ best Hcmp Hs Hlast) as [->|Hlt]; [left|..];
    destruct s; unfold within_limit, less, greater in *; lia.
Qed.

(** An order that can match makes [MatchOrders] trade. *)
Lemma MatchOrders_crossing o b trades b' :
  wf b → wf (insert_order o b) →
  CanMatch (GetSide o) (GetPrice o) b = true →
  MatchOrders (insert_order o b) = Ok (trades, b') → trades ≠ [].
Proof.
  intros Hwf Hwf0 Hcan Hrun. unfold MatchOrders in Hrun. inv_bind Hrun.
  destruct a as [trades1 b1]. inv_bind Hrun. inv_bind Hrun.
  injection Hrun as <- _. rewrite CanMatch_head in Hcan.
  pose proof (wf_bids_sorted _ Hwf0) as Hsb. pose proof (wf_asks_sorted _ Hwf0) as Hsa.
  pose proof (wf_bids_ok _ Hwf0) as Hokb. pose proof (wf_asks_ok _ Hwf0) as Hoka.
  destruct (insert_order o b) as [bids asks orders data] eqn:Hins.
  cbn [bids_ asks_] in *.
  assert (bids = bids_ (insert_order o b)) as Hbids by by rewrite Hins.
  assert (asks = asks_ (insert_order o b)) as Hasks by by rewrite Hins.
  unfold insert_order in Hbids, Hasks.
  destruct (GetSide o); cbn [bids_ asks_ opposite] in *.
  - destruct (asks_ b) as [|[ap aq] arest] eqn:Hab; [done|]. subst asks.
    assert (GetPrice o ∈ bids.*1) as Hk.
    { rewrite Hbids. apply push_back_keys. by left. }
    destruct bids as [|[bp bq] brest]; [inversion Hk|].
    eapply (match_loop_crossing _ bp bq brest ap aq arest); [| | |done].
    + destruct (sorted_keys_head_best _ _ _ _ _ Hsb Hk) as [Heq|Hgt];
        unfold within_limit, greater in *; lia.
    + apply side_ok_cons in Hokb as [[? _] _]. done.
    + apply side_ok_cons in Hoka as [[? _] _]. done.
  - destruct (bids_ b) as [|[bp bq] brest] eqn:Hbb; [done|]. subst bids.
    assert (GetPrice o ∈ asks.*1) as Hk.
    { rewrite Hasks. apply push_back_keys. by left. }
    destruct asks as [|[ap aq] arest]; [inversion Hk|].
    eapply (match_loop_crossing _ bp bq brest ap aq arest); [| | |done].
    + destruct (sorted_keys_head_best _ _ _ _ _ Hsa Hk) as [Heq|Hlt];
        unfold within_limit, less in *; lia.
    + apply side_ok_cons in Hokb as [[? _] _]. done.
    + apply side_ok_cons in Hoka as [[? _] _]. done.
Qed.

(** An [AddOrder] that returns no trade has rejected the order, or has let
    it rest. *)
Lemma AddOrder_no_trade b o b' :
  Inv b → valid_order o → AddOrder o b = Ok ([], b') →
  b' = b ∨
  (b' = insert_order o b ∧ orders_ b !! GetOrderId o = None ∧
   (GetOrderType o = GoodTillCancel ∨ GetOrderType o = GoodForDay) ∧
   CanMatch (GetSide o) (GetPrice o) b = false).
Proof.
  intros HInv Hvalid Hadd. pose proof (inv_wf b HInv) as Hwf.
  destruct (AddOrder_cases o b) as [Hno|(o' & Hfresh & Hconv & Hfak & Hfok & Hrun)].
  { rewrite Hno in Hadd. injection Hadd as <-. by left. }
  rewrite Hrun in Hadd.
  pose proof (convert_market_valid o b o' Hconv Hvalid) as Hvalid'.
  destruct (convert_market_Some o b o' Hconv) as (Hid & Hside & _ & _ & _ & Hsame).
  assert (wf (insert_order o' b)) as Hwf0.
  { apply insert_order_wf; [done|done|by rewrite Hid]. }
  destruct (CanMatch (GetSide o') (GetPrice o') b) eqn:Hcan.
  { by destruct (MatchOrders_crossing o' b [] b' Hwf Hwf0 Hcan Hadd). }
  destruct (decide (GetOrderType o = Market)) as [Hm|Hnm].
  { exfalso. unfold convert_market in Hconv.
    rewrite bool_decide_eq_true_2 in Hconv by done.
    assert (∃ worst q, map_rbegin (opposite (GetSide o) b) = Some (worst, q) ∧
                       o' = ToGoodTillCancel worst o) as (worst & q & Hlast & ->).
    { destruct (GetSide o); cbn [opposite];
        [destruct (map_rbegin (asks_ b)) as [[worst q]|]
        |destruct (map_rbegin (bids_ b)) as [[worst q]|]]; try done;
        injection Hconv as <-; by exists worst, q. }
    rewrite ToGoodTillCancel_Market in Hcan by done. cbn [GetSide GetPrice] in Hcan.
    by rewrite (CanMatch_worst _ _ q b Hwf Hlast) in Hcan. }
  rewrite (Hsame Hnm) in *. right.
  assert (GetOrderType o = GoodTillCancel ∨ GetOrderType o = GoodForDay) as Hty.
  { destruct (GetOrderType o) eqn:Ht; try tauto.
    - by specialize (Hfak eq_refl).
    - specialize (Hfok eq_refl). unfold CanFullyFill in Hfok.
      by rewrite Hcan in Hfok. }
  destruct (AddOrder_rests b o HInv Hfresh Hty Hcan) as (Hadd' & _).
  rewrite Hrun, Hadd in Hadd'. injection Hadd' as ->. done.
Qed.

(** ** The orders at a price *)

Lemma total_Permutation l l' : l ≡ₚ l' → total l = total l'.
Proof.
  induction 1 as [|x l l' _ IH|x y l|l l' l'' _ IH1 _ IH2];
    rewrite ?total_cons in *; lia.
Qed.

Lemma level_data_default q :
  default LevelData.zero (level_data q) =
  LevelData.mk (Z.of_nat (length q)) (total (GetRemainingQuantity <$> q)).
Proof. by destruct q. Qed.

Lemma level_data_Permutation q q' : q ≡ₚ q' → level_data q = level_data q'.
Proof.
  intros Hq. pose proof (Permutation_length Hq) as Hlen.
  assert (total (GetRemainingQuantity <$> q) = total (GetRemainingQuantity <$> q'))
    as Htot by by apply total_Permutation, fmap_Permutation.
  destruct q, q'; simpl in *; try done. by rewrite Htot, Hlen.
Qed.

Lemma bucket_sublist (m : list (Price * OrderPointers)) k :
  default [] (map_find k m) `sublist_of` flat m.
Proof.
  induction m as [|[k0 v] m IH]; simpl; [done|]. rewrite flat_cons.
  destruct (k =? k0); simpl.
  - apply sublist_inserts_r. done.
  - by apply sublist_inserts_l.
Qed.

Lemma orders_at_sublist p b : orders_at p b `sublist_of` book_orders b.
Proof. apply sublist_app; apply bucket_sublist. Qed.

Lemma orders_at_length p b :
  wf b → (length (orders_at p b) ≤ Size b)%nat.
Proof.
  intros Hwf. rewrite <-book_orders_length by done.
  apply sublist_length, orders_at_sublist.
Qed.

Lemma orders_at_valid p b : wf b → Forall valid_order (orders_at p b).
Proof.
  intros Hwf. apply Forall_forall. intros x Hx.
  pose proof (wf_quantities b Hwf) as Hq. eapply Forall_forall in Hq; [done|].
  by eapply sublist_subseteq; [apply orders_at_sublist|].
Qed.

Lemma orders_at_NoDup p b : wf b → NoDup (ids (orders_at p b)).
Proof.
  intros Hwf. eapply sublist_NoDup; [apply Hwf|].
  unfold ids. apply fmap_sublist, orders_at_sublist.
Qed.

Lemma orders_at_price p b x :
  wf b → x ∈ orders_at p b → GetPrice x = p ∧ x ∈ book_orders b.
Proof.
  intros Hwf Hx. split.
  - unfold orders_at in Hx. apply elem_of_app in Hx as [Hx|Hx].
    + destruct (map_find p (bids_ b)) as [q|] eqn:Hf; [|inversion Hx].
      destruct (wf_bids_ok b Hwf p q) as [_ Hq]; [by apply map_find_Some|].
      by destruct (Hq x Hx).
    + destruct (map_find p (asks_ b)) as [q|] eqn:Hf; [|inversion Hx].
      destruct (wf_asks_ok b Hwf p q) as [_ Hq]; [by apply map_find_Some|].
      by destruct (Hq x Hx).
  - by eapply sublist_subseteq; [apply orders_at_sublist|].
Qed.

Lemma order_at_its_price b x :
  wf b → x ∈ book_orders b → x ∈ orders_at (GetPrice x) b.
Proof.
  intros Hwf Hx. unfold book_orders in Hx. unfold orders_at.
  apply elem_of_app in Hx as [Hx|Hx]; apply elem_of_app; [left|right];
    apply elem_of_flat in Hx as (k & q & Hkq & Hx).
  - destruct (wf_bids_ok b Hwf k q Hkq) as [_ Hq]. destruct (Hq x Hx) as [_ ->].
    erewrite (map_find_sorted greater); [done|constructor|apply Hwf|done].
  - destruct (wf_asks_ok b Hwf k q Hkq) as [_ Hq]. destruct (Hq x Hx) as [_ ->].
    erewrite (map_find_sorted less); [done|constructor|apply Hwf|done].
Qed.

Lemma orders_at_bound p b :
  wf b →
  0 ≤ total (GetRemainingQuantity <$> orders_at p b)
    ≤ Z.of_nat (Size b) * (UINT32_MOD - 1).
Proof.
  intros Hwf.
  pose proof (total_remaining_bound _ (orders_at_valid p b Hwf)) as Hb.
  pose proof (orders_at_length p b Hwf). unfold UINT32_MOD in *. nia.
Qed.

Lemma insert_order_data o b :
  data_ (insert_order o b) = OnOrderAdded o (data_ b).
Proof. unfold insert_order. by destruct (GetSide o). Qed.

Lemma orders_at_insert o b p :
  orders_at p (insert_order o b) ≡ₚ
  (if decide (p = GetPrice o) then [o] else []) ++ orders_at p b.
Proof.
  unfold orders_at, insert_order.
  destruct (GetSide o); cbn [bids_ asks_]; case_decide as Hp; subst;
    rewrite ?push_back_find, ?push_back_find_ne by done; simpl; [|done| |done].
  - rewrite <-app_assoc. simpl. by rewrite <-Permutation_middle.
  - rewrite app_assoc. by rewrite Permutation_app_comm.
Qed.

(** ** [OnOrderAdded] and [OnOrderCancelled] keep the aggregate exact *)

Lemma insert_order_data_exact o b :
  wf b → valid_order o → GetRemainingQuantity o = GetInitialQuantity o →
  Z.of_nat (Size b) + 1 < UINT32_MOD →
  data_exact b → data_exact (insert_order o b).
Proof.
  intros Hwf [[Hrem0 _] Hinit] Hnew Hsize Hd p.
  rewrite (level_data_Permutation _ _ (orders_at_insert o b p)).
  rewrite insert_order_data. unfold OnOrderAdded.
  rewrite map_find_put, (Hd (GetPrice o)), level_data_default.
  cbn [LevelData.count LevelData.quantity].
  case_decide as Hp; [subst p|by rewrite Hd].
  pose proof (orders_at_length (GetPrice o) b Hwf) as Hlen.
  pose proof (orders_at_bound (GetPrice o) b Hwf) as Hbound.
  cbn [app level_data length]. rewrite fmap_cons, total_cons. f_equal. f_equal.
  - rewrite Z.mod_small by lia. lia.
  - rewrite Z.mod_small; [lia|]. unfold UINT32_MOD, UINT64_MOD in *. nia.
Qed.

Lemma perm_filter_id q o :
  NoDup (ids q) → o ∈ q →
  q ≡ₚ o :: filter (fun x => GetOrderId x ≠ GetOrderId o) q.
Proof.
  induction q as [|x q IH]; intros Hnd Hin; [inversion Hin|].
  unfold ids in Hnd. rewrite fmap_cons in Hnd.
  apply NoDup_cons in Hnd as [Hx Hnd]. fold (ids q) in Hx, Hnd.
  apply elem_of_cons in Hin as [->|Hin].
  - rewrite filter_cons_False by (by intros ?). by rewrite filter_id_absent.
  - assert (GetOrderId x ≠ GetOrderId o) as Hne.
    { intros Heq. apply Hx. rewrite Heq. apply elem_of_ids. by exists o. }
    rewrite filter_cons_True by done. rewrite (IH Hnd Hin) at 1. apply perm_swap.
Qed.

Lemma CancelOrderInternal_data id b b' :
  wf b → CancelOrderInternal id b = Ok b' →
  b' = b ∨
  ∃ o, o ∈ book_orders b ∧ GetOrderId o = id ∧
       data_ b' = OnOrderCancelled o (data_ b).
Proof.
  intros Hwf. unfold CancelOrderInternal.
  pose proof (wf_nodup b Hwf) as Hnd.
  destruct (orders_ b !! id) as [e|]; [|intros [= <-]; by left].
  destruct (entry_side e); intros Hrun; inv_bind Hrun;
    destruct a as [o m]; injection Hrun as <-; right; exists o; cbn [data_].
  - eapply erase_from_side_filter in Ha as (Hid & Hin & _);
      [|constructor|apply Hwf|apply Hwf|by eapply NoDup_ids_app_l].
    split_and!; [|done..]. apply elem_of_app. by left.
  - eapply erase_from_side_filter in Ha as (Hid & Hin & _);
      [|constructor|apply Hwf|apply Hwf|by eapply NoDup_ids_app_r].
    split_and!; [|done..]. apply elem_of_app. by right.
Qed.

Lemma CancelOrderInternal_data_exact id b b' :
  wf b → Z.of_nat (Size b) < UINT32_MOD → data_exact b →
  CancelOrderInternal id b = Ok b' → data_exact b'.
Proof.
  intros Hwf Hsize Hd Hrun.
  destruct (CancelOrderInternal_data id b b' Hwf Hrun)
    as [->|(o & Ho & Hid & Hdata)]; [done|].
  destruct (CancelOrderInternal_filter id b b' Hwf Hrun) as (_ & _ & _ & Hkb & Hka).
  assert (∀ p, orders_at p b' =
               filter (fun x => GetOrderId x ≠ id) (orders_at p b)) as Hat.
  { intros p. unfold orders_at. by rewrite Hkb, Hka, filter_app. }
  pose proof (order_at_its_price b o Hwf Ho) as Hin.
  pose proof (perm_filter_id _ o (orders_at_NoDup (GetPrice o) b Hwf) Hin) as Hperm.
  rewrite Hid, <-Hat in Hperm.
  pose proof (Permutation_length Hperm) as Hlen.
  pose proof (total_Permutation _ _ (fmap_Permutation GetRemainingQuantity _ _ Hperm))
    as Htot.
  rewrite fmap_cons, total_cons in Htot. simpl in Hlen.
  pose proof (orders_at_length (GetPrice o) b Hwf) as Hle.
  pose proof (total_remaining_bound (orders_at (GetPrice o) b')) as Hb'.
  assert (Forall valid_order (orders_at (GetPrice o) b')) as Hv'.
  { rewrite Hat. apply Forall_forall. intros x Hx.
    apply list_elem_of_filter in Hx as [_ Hx].
    pose proof (orders_at_valid (GetPrice o) b Hwf) as Hv.
    by eapply Forall_forall in Hv. }
  specialize (Hb' Hv').
  assert (∀ p, p ≠ GetPrice o → orders_at p b' = orders_at p b) as Hother.
  { intros p Hp. rewrite Hat. apply filter_all, Forall_forall. intros x Hx Hidx.
    destruct (orders_at_price p b x Hwf Hx) as [Hpx Hxb].
    assert (x = o) as ->; [|done].
    apply (NoDup_ids_inj (book_orders b)); [apply Hwf|done..|congruence]. }
  intros p. rewrite Hdata. unfold OnOrderCancelled.
  rewrite (Hd (GetPrice o)).
  assert (level_data (orders_at (GetPrice o) b) =
          Some (LevelData.mk (Z.of_nat (length (orders_at (GetPrice o) b)))
                  (total (GetRemainingQuantity <$> orders_at (GetPrice o) b))))
    as -> by (destruct (orders_at (GetPrice o) b); [inversion Hin|done]).
  unfold store_level.
  cbn [LevelData.count LevelData.quantity].
  assert ((Z.of_nat (length (orders_at (GetPrice o) b)) - 1) mod UINT32_MOD =
          Z.of_nat (length (orders_at (GetPrice o) b'))) as ->.
  { rewrite Z.mod_small by lia. lia. }
  assert ((total (GetRemainingQuantity <$> orders_at (GetPrice o) b)
           - GetRemainingQuantity o) mod UINT64_MOD =
          total (GetRemainingQuantity <$> orders_at (GetPrice o) b')) as ->.
  { rewrite Htot. replace (_ + _ - _) with
      (total (GetRemainingQuantity <$> orders_at (GetPrice o) b')) by lia.
    apply Z.mod_small. unfold UINT32_MOD, UINT64_MOD in *. nia. }
  destruct (Z.eqb_spec (Z.of_nat (length (orders_at (GetPrice o) b'))) 0) as [H0|H0].
  - rewrite map_find_erase. case_decide as Hp.
    + subst p. destruct (orders_at (GetPrice o) b'); [done|simpl in H0; lia].
    + by rewrite Hd, Hother.
  - rewrite map_find_put. case_decide as Hp.
    + subst p. by destruct (orders_at (GetPrice o) b').
    + by rewrite Hd, Hother.
Qed.

Lemma CancelOrderInternal_size id b b' :
  wf b → CancelOrderInternal id b = Ok b' → (Size b' ≤ Size b)%nat.
Proof.
  intros Hwf Hrun.
  destruct (CancelOrderInternal_filter id b b' Hwf Hrun) as (Ho & _).
  unfold Size. rewrite Ho, map_size_delete.
  destruct (orders_ b !! id); simpl; lia.
Qed.

Lemma cancel_all_data_exact l b b' :
  Inv b → Z.of_nat (Size b) < UINT32_MOD → data_exact b →
  cancel_all l b = Ok b' → data_exact b' ∧ (Size b' ≤ Size b)%nat.
Proof.
  revert b. induction l as [|id l IH]; intros b HInv Hsize Hd; simpl.
  - by intros [= <-].
  - intros Hrun. inv_bind Hrun.
    destruct (CancelOrderInternal_Inv id b HInv) as (b1 & Hb1 & HInv1).
    rewrite Hb1 in Ha. injection Ha as <-.
    pose proof (CancelOrderInternal_size id b b1 (inv_wf b HInv) Hb1) as Hle.
    destruct (IH b1 HInv1) as [Hd' Hle']; [lia| |done|].
    + by eapply CancelOrderInternal_data_exact; [apply HInv|..].
    + split; [done|lia].
Qed.

Lemma AddOrder_quiet b o b' :
  Inv b → valid_order o → GetRemainingQuantity o = GetInitialQuantity o →
  Z.of_nat (Size b) + 1 < UINT32_MOD → data_exact b →
  AddOrder o b = Ok ([], b') → data_exact b' ∧ (Size b' ≤ S (Size b))%nat.
Proof.
  intros HInv Hvalid Hnew Hsize Hd Hadd.
  destruct (AddOrder_no_trade b o b' HInv Hvalid Hadd)
    as [->|(-> & Hfresh & Hty & Hcan)]; [split; [done|lia]|].
  split.
  - by apply insert_order_data_exact; [apply HInv|..].
  - destruct (AddOrder_rests b o HInv Hfresh Hty Hcan) as (_ & _ & ->). lia.
Qed.

(** A request that makes no trade keeps the aggregate exact. *)
Lemma step_quiet r b b' :
  Inv b → valid_request r → new_order_request r →
  Z.of_nat (Size b) + 1 < UINT32_MOD → data_exact b →
  step r b = Ok ([], b') → data_exact b' ∧ (Size b' ≤ S (Size b))%nat.
Proof.
  intros HInv Hr Hnew Hsize Hd Hstep. pose proof (inv_wf b HInv) as Hwf.
  destruct r as [o|id|m|]; simpl in Hstep, Hr, Hnew.
  - by apply (AddOrder_quiet b o b').
  - inv_bind Hstep. injection Hstep as <-. rename a into b'.
    unfold CancelOrder in Ha. split.
    + eapply CancelOrderInternal_data_exact; [done| |done|done]. lia.
    + pose proof (CancelOrderInternal_size id b b' Hwf Ha). lia.
  - unfold ModifyOrder in Hstep.
    destruct (orders_ b !! OrderModify.orderId m) as [e|];
      [|injection Hstep as <-; split; [done|lia]].
    inv_bind Hstep. unfold CancelOrder in Ha.
    destruct (CancelOrderInternal_Inv (OrderModify.orderId m) b HInv)
      as (b1 & Hb1 & HInv1).
    rewrite Hb1 in Ha. injection Ha as <-.
    pose proof (CancelOrderInternal_size _ b b1 Hwf Hb1) as Hle.
    assert (valid_order (OrderModify.ToOrderPointer m (entry_type e))) as Hv.
    { unfold valid_order. simpl. lia. }
    assert (data_exact b1) as Hd1.
    { eapply CancelOrderInternal_data_exact; [done| |done|done]. lia. }
    destruct (AddOrder_quiet b1 _ b' HInv1 Hv eq_refl) as [Hd' Hle'];
      [lia|done|done|]. split; [done|lia].
  - inv_bind Hstep. injection Hstep as <-. rename a into b'.
    destruct (cancel_all_data_exact (GoodForDay_ids (orders_ b)) b b' HInv)
      as [Hd' Hle]; [lia|done|done|]. split; [done|lia].
Qed.

Lemma run_quiet rs b b' :
  Inv b → Forall valid_request rs → Forall new_order_request rs →
  Z.of_nat (Size b) + Z.of_nat (length rs) < UINT32_MOD → data_exact b →
  run_trades rs b = Ok ([], b') → data_exact b' ∧ run rs b = Ok b'.
Proof.
  revert b. induction rs as [|r rs IH]; intros b HInv Hrs Hnew Hsize Hd; simpl.
  - by intros [= <-].
  - apply Forall_cons in Hrs as [Hr Hrs]. apply Forall_cons in Hnew as [Hn Hnew].
    simpl in Hsize. intros Hrun. inv_bind Hrun. destruct a as [trades b1].
    inv_bind Hrun. destruct a as [trades' b2]. injection Hrun as Htr <-.
    apply app_eq_nil in Htr as [-> ->].
    destruct (step_Inv r b HInv Hr) as (trades2 & b1' & Hstep & HInv1).
    rewrite Hstep in Ha. injection Ha as -> ->.
    destruct (step_quiet r b b1 HInv Hr Hn) as [Hd1 Hle]; [lia|done|done|].
    rewrite Hstep. simpl. apply (IH b1); try done. lia.
Qed.

Lemma level_data_quantity q :
  q ≠ [] →
  match level_data q with
  | Some ld => LevelData.quantity ld
  | None => 0
  end = total (GetRemainingQuantity <$> q).
Proof. by destruct q. Qed.

Lemma aggregate_of_levels s limit side data (m : list (Price * OrderPointers)) :
  side_ok side m →
  (∀ p q, (p, q) ∈ m →
     aggregate_quantity data p = total (GetRemainingQuantity <$> q)) →
  aggregate_within s limit data m = liquidity s limit (flat m).
Proof.
  unfold aggregate_within, liquidity.
  induction m as [|[p q] m IH]; intros Hok Hagg; [done|].
  apply side_ok_cons in Hok as [[_ Hq] Hok].
  rewrite fmap_cons, flat_cons, filter_app, fmap_app, total_app. cbn [fst].
  rewrite <-IH; [|done|intros p' q' Hin; apply Hagg; by right].
  destruct (within_limit s limit p) eqn:Hw.
  - rewrite filter_cons_True by done. rewrite fmap_cons, total_cons.
    rewrite (Hagg p q) by left. f_equal. f_equal. f_equal.
    symmetry. apply filter_all, Forall_forall. intros x Hx.
    by destruct (Hq x Hx) as [_ ->].
  - rewrite filter_cons_False by (by rewrite Hw).
    rewrite (filter_none (fun o => within_limit s limit (GetPrice o) = true) q);
      [rewrite fmap_nil; change (total []) with 0; lia|].
    apply Forall_forall. intros x Hx.
    destruct (Hq x Hx) as [_ ->]. by rewrite Hw.
Qed.

Lemma aggregate_agrees s limit b :
  wf b → uncrossed b → data_exact b →
  aggregate_within s limit (data_ b) (opposite s b) =
  liquidity s limit (flat (opposite s b)).
Proof.
  intros Hwf Hun Hd.
  apply (aggregate_of_levels _ _ _ _ _ (opposite_side_ok s b Hwf)).
  intros p q Hpq. unfold aggregate_quantity. rewrite Hd.
  pose proof (opposite_side_ok s b Hwf p q Hpq) as [Hq _].
  assert (orders_at p b = q) as ->; [|by apply level_data_quantity].
  assert (p ∈ (opposite s b).*1) as Hk.
  { apply list_elem_of_fmap. by exists (p, q). }
  unfold orders_at. destruct s; cbn [opposite] in *.
  - assert (map_find p (asks_ b) = Some q) as ->
      by (eapply (map_find_sorted less); [constructor|apply Hwf|done]).
    destruct (map_find p (bids_ b)) as [q'|] eqn:Hf; [|done].
    assert (p ∈ (bids_ b).*1) as Hk'.
    { apply map_find_Some in Hf. apply list_elem_of_fmap. by exists (p, q'). }
    pose proof (Hun p p Hk' Hk). lia.
  - assert (map_find p (bids_ b) = Some q) as ->
      by (eapply (map_find_sorted greater); [constructor|apply Hwf|done]).
    destruct (map_find p (asks_ b)) as [q'|] eqn:Hf; [|simpl; by rewrite app_nil_r].
    assert (p ∈ (asks_ b).*1) as Hk'.
    { apply map_find_Some in Hf. apply list_elem_of_fmap. by exists (p, q'). }
    pose proof (Hun p p Hk Hk'). lia.
Qed.

(** As long as no trade has been made, the level aggregate is exact: for
    every price it holds the number of the orders resting there and the sum
    of their remaining quantities, and holds nothing for a price without
    orders.  [CanFullyFill] then compares the quantity with what the queues
    offer.  (The requests are fewer than [2^32], so that the counters do not
    wrap.) *)
Theorem aggregate_exact_before_the_first_trade rs b :
  Forall valid_request rs → Forall new_order_request rs →
  Z.of_nat (length rs) < UINT32_MOD →
  run_trades rs empty_book = Ok ([], b) →
  reachable b ∧
  (∀ p, map_find p (data_ b) = level_data (orders_at p b)) ∧
  (∀ s limit qty, 0 ≤ qty →
     aggregate_within s limit (data_ b) (opposite s b) =
     liquidity s limit (flat (opposite s b)) ∧
     CanFullyFill s limit qty b =
     CanMatch s limit b &&
     bool_decide (qty ≤ liquidity s limit (flat (opposite s b)))).
Proof.
  intros Hrs Hnew Hlen Hrun.
  destruct (run_quiet rs empty_book b Inv_empty Hrs Hnew) as [Hd Hrun'];
    [done|by intros p|done|].
  assert (reachable b) as Hb by by exists rs.
  pose proof (reachable_Inv b Hb) as HInv.
  split_and!; [done|done|]. intros s limit qty Hqty.
  pose proof (aggregate_agrees s limit b (inv_wf b HInv) (inv_uncrossed b HInv) Hd)
    as Hagree.
  split; [done|]. rewrite <-Hagree. by apply CanFullyFill_aggregate.
Qed.

Lemma aggregate_exact_before_the_first_trade_witness :
  let rs := [ReqAdd (new_Order GoodTillCancel 1 Sell 101 5);
             ReqAdd (new_Order GoodTillCancel 2 Sell 101 4);
             ReqAdd (new_Order GoodForDay 3 Buy 99 7);
             ReqCancel 1;
             ReqModify (OrderModify.mk 3 Buy 100 6)] in
  ∃ b, run_trades rs empty_book = Ok ([], b) ∧
    map_find 101 (data_ b) = Some (LevelData.mk 1 4) ∧
    map_find 100 (data_ b) = Some (LevelData.mk 1 6) ∧
    map_find 99 (data_ b) = None ∧
    CanFullyFill Buy 101 4 b = true ∧ CanFullyFill Buy 101 5 b = false.
Proof.
  intros rs. eexists. split; [vm_compute; reflexivity|].
  match goal with |- context [data_ ?b] => set (b0 := b) end.
  destruct (aggregate_exact_before_the_first_trade rs b0)
    as (_ & Hdata & Hfill);
    [solve_valid|repeat constructor|vm_compute; reflexivity
    |vm_compute; reflexivity|].
  split; [exact (Hdata 101)|]. split; [exact (Hdata 100)|].
  split; [exact (Hdata 99)|].
  split.
  - destruct (Hfill Buy 101 4) as [_ ->]; [lia|]. reflexivity.
  - destruct (Hfill Buy 101 5) as [_ ->]; [lia|]. reflexivity.
Defined.

(** * Conservation of quantity *)

Lemma remaining_of_Permutation id l l' :
  l ≡ₚ l' → remaining_of id l = remaining_of id l'.
Proof.
  unfold remaining_of.
  induction 1 as [|x l l' _ IH|x y l|l l' l'' _ IH1 _ IH2]; simpl; lia.
Qed.

Lemma remaining_of_cons id x l :
  remaining_of id (x :: l) =
  (if GetOrderId x =? id then GetRemainingQuantity x else 0) + remaining_of id l.
Proof. done. Qed.

Lemma remaining_of_filter id (P : Order → Prop) `{∀ x, Decision (P x)} l :
  (∀ x, x ∈ l → GetOrderId x = id → P x) →
  remaining_of id (filter P l) = remaining_of id l.
Proof.
  induction l as [|x l IH]; intros HP; [done|].
  rewrite filter_cons, remaining_of_cons.
  rewrite <-IH by (intros y Hy; apply HP; by right).
  destruct (decide (P x)) as [Hx|Hx]; [by rewrite remaining_of_cons|].
  destruct (Z.eqb_spec (GetOrderId x) id) as [Heq|Hne]; [|lia].
  destruct Hx. apply HP; [left|done].
Qed.

(** The pass over the fronts at the end of [MatchOrders] takes out
    FillAndKill orders only. *)
Lemma cancel_front_keeps b m :
  wf b →
  ∃ b',
    match front_FillAndKill m with
    | Some id => CancelOrderInternal id b
    | None => Ok b
    end = Ok b' ∧ wf b' ∧
    ∃ X : list OrderId,
      flat (bids_ b') = filter (fun x => GetOrderId x ∉ X) (flat (bids_ b)) ∧
      flat (asks_ b') = filter (fun x => GetOrderId x ∉ X) (flat (asks_ b)) ∧
      ∀ id, id ∈ X → ∃ p o q rest, m = (p, o :: q) :: rest ∧
                       GetOrderType o = FillAndKill ∧ id = GetOrderId o.
Proof.
  intros Hwf. destruct (front_FillAndKill m) as [id|] eqn:Hfront.
  - destruct (CancelOrderInternal_spec id b Hwf) as (b' & Hrun & Hwf' & _).
    exists b'. split; [done|]. split; [done|]. exists [id].
    destruct (CancelOrderInternal_filter id b b' Hwf Hrun) as (_ & Hfb & Hfa & _).
    split_and!.
    + rewrite Hfb. apply list_filter_iff. intros x.
      rewrite list_elem_of_singleton. done.
    + rewrite Hfa. apply list_filter_iff. intros x.
      rewrite list_elem_of_singleton. done.
    + intros id' ->%list_elem_of_singleton. by apply front_FillAndKill_Some.
  - exists b. split; [done|]. split; [done|]. exists [].
    split_and!.
    + symmetry. apply filter_all, Forall_forall. intros x _. apply not_elem_of_nil.
    + symmetry. apply filter_all, Forall_forall. intros x _. apply not_elem_of_nil.
    + intros id Hin. inversion Hin.
Qed.

(** What [MatchOrders] leaves of an order that is not a FillAndKill order
    is what its loop leaves of it. *)
Lemma MatchOrders_remaining b trades b' x :
  wf b → MatchOrders b = Ok (trades, b') → x ∈ book_orders b →
  GetOrderType x ≠ FillAndKill →
  filled_bid (GetOrderId x) trades + filled_ask (GetOrderId x) trades +
  remaining_of (GetOrderId x) (book_orders b') =
  GetRemainingQuantity x.
Proof.
  intros Hwf Hrun Hx Hty.
  destruct (MatchOrders_matched b Hwf) as (trades0 & b0' & b1 & kb & ka & Hrun0 & Hm).
  rewrite Hrun in Hrun0. injection Hrun0 as <- <-.
  pose proof (matched_loop _ _ _ _ _ _ Hm) as Hloop.
  pose proof (matched_wf_loop _ _ _ _ _ _ Hm) as Hwf1.
  destruct (match_loop_conserves _ _ _ _ _ (GetOrderId x)
              (wf_bids_sorted _ Hwf) (wf_asks_sorted _ Hwf) Hloop) as [Hcb Hca].
  change (filled_bid (GetOrderId x) []) with 0 in Hcb.
  change (filled_ask (GetOrderId x) []) with 0 in Hca.
  assert (remaining_of (GetOrderId x) (book_orders b) = GetRemainingQuantity x)
    as Hrem by (apply remaining_of_elem; [apply Hwf|done..]).
  unfold book_orders in Hrem. rewrite remaining_of_app in Hrem.
  assert (∀ y, y ∈ book_orders b1 → GetOrderId y = GetOrderId x →
               GetOrderType y ≠ FillAndKill) as Hsame.
  { intros y Hy Hid.
    assert (∃ y0, y0 ∈ book_orders b ∧ same_order y0 y) as (y0 & Hy0 & Hs).
    { unfold book_orders in *. apply elem_of_app in Hy as [Hy|Hy].
      - destruct (residue_elem_of _ _ _ y (matched_bids _ _ _ _ _ _ Hm) Hy)
          as (y0 & Hy0 & Hs). exists y0. split; [|done]. apply elem_of_app. by left.
      - destruct (residue_elem_of _ _ _ y (matched_asks _ _ _ _ _ _ Hm) Hy)
          as (y0 & Hy0 & Hs). exists y0. split; [|done]. apply elem_of_app. by right. }
    assert (y0 = x) as ->.
    { apply (NoDup_ids_inj (book_orders b)); [apply Hwf|done..|].
      apply same_order_id in Hs. congruence. }
    apply same_order_fields in Hs as (<- & _). done. }
  unfold MatchOrders in Hrun. rewrite Hloop in Hrun. cbn [bind] in Hrun.
  destruct (cancel_front_keeps b1 (bids_ b1) Hwf1)
    as (b2 & Hb2 & Hwf2 & X2 & Hfb2 & Hfa2 & HX2).
  rewrite Hb2 in Hrun. cbn [bind] in Hrun.
  destruct (cancel_front_keeps b2 (asks_ b2) Hwf2)
    as (b3 & Hb3 & Hwf3 & X3 & Hfb3 & Hfa3 & HX3).
  rewrite Hb3 in Hrun. cbn [bind] in Hrun. injection Hrun as <-.
  assert (GetOrderId x ∉ X2) as HnX2.
  { intros Hin. destruct (HX2 _ Hin) as (p & o & q & rest & Hm2 & Hto & Hido).
    apply (Hsame o); [|done|done]. unfold book_orders. apply elem_of_app. left.
    rewrite Hm2, flat_cons. apply elem_of_app. left. left. }
  assert (GetOrderId x ∉ X3) as HnX3.
  { intros Hin. destruct (HX3 _ Hin) as (p & o & q & rest & Hm3 & Hto & Hido).
    apply (Hsame o); [|done|done]. unfold book_orders. apply elem_of_app. right.
    assert (o ∈ flat (asks_ b2)) as Ho.
    { rewrite Hm3, flat_cons. apply elem_of_app. left. left. }
    rewrite Hfa2 in Ho. by apply list_elem_of_filter in Ho as [_ ?]. }
  unfold book_orders. rewrite remaining_of_app, Hfb3, Hfa3, Hfb2, Hfa2.
  rewrite !remaining_of_filter; [lia|intros y _ Hid; congruence..].
Qed.

(** [AddOrder] neither makes nor loses quantity: of every order that
    rested in the book before the call, what the trades of the call filled
    and what remains of it in the book add up to what remained of it
    before. *)
Theorem AddOrder_conserves_quantity b o trades b' x :
  reachable b → valid_order o → AddOrder o b = Ok (trades, b') →
  x ∈ book_orders b →
  filled_bid (GetOrderId x) trades + filled_ask (GetOrderId x) trades +
  remaining_of (GetOrderId x) (book_orders b') =
  GetRemainingQuantity x.
Proof.
  intros Hb Hvalid Hadd Hx. pose proof (reachable_Inv b Hb) as HInv.
  pose proof (inv_wf b HInv) as Hwf.
  destruct (AddOrder_cases o b) as [Hno|(o' & Hfresh & Hconv & _ & _ & Hrun)].
  - rewrite Hno in Hadd. injection Hadd as <- <-.
    change (filled_bid (GetOrderId x) []) with 0.
    change (filled_ask (GetOrderId x) []) with 0.
    rewrite (remaining_of_elem _ _ x); [lia|apply Hwf|done|done].
  - rewrite Hrun in Hadd.
    destruct (convert_market_Some o b o' Hconv) as (Hid & _).
    pose proof (convert_market_valid o b o' Hconv Hvalid) as Hvalid'.
    assert (wf (insert_order o' b)) as Hwf0.
    { apply insert_order_wf; [done|done|by rewrite Hid]. }
    apply (MatchOrders_remaining _ _ _ x Hwf0 Hadd).
    + rewrite book_orders_insert by done. by right.
    + pose proof (inv_no_FillAndKill b HInv) as Hno.
      by eapply Forall_forall in Hno.
Qed.

Lemma AddOrder_conserves_quantity_witness :
  let b := book_after [ReqAdd (new_Order GoodTillCancel 1 Sell 100 5);
                       ReqAdd (new_Order GoodTillCancel 2 Sell 101 4)] in
  let o := new_Order FillAndKill 3 Buy 101 7 in
  let x := new_Order GoodTillCancel 2 Sell 101 4 in
  reachable b ∧
  ∃ trades b',
    AddOrder o b = Ok (trades, b') ∧
    filled_ask 2 trades = 2 ∧ remaining_of 2 (book_orders b') = 2 ∧
    filled_bid 2 trades + filled_ask 2 trades + remaining_of 2 (book_orders b')
    = 4.
Proof.
  intros b o x.
  assert (Hb : reachable b) by (apply reachable_book_after; solve_valid).
  split; [exact Hb|].
  destruct (AddOrder_Inv o b (reachable_Inv b Hb)) as (trades & b' & Hadd & _);
    [solve_valid|].
  exists trades, b'. split; [exact Hadd|].
  assert (Hcons := AddOrder_conserves_quantity b o trades b' x Hb).
  assert (Hb' : Ok (trades, b') = AddOrder o b) by (symmetry; exact Hadd).
  vm_compute in Hb'. injection Hb' as -> ->.
  split; [reflexivity|]. split; [reflexivity|].
  apply Hcons; [solve_valid|reflexivity|].
  right. left.
Defined.

(** * The trades of a call *)

Lemma set_remaining_same o : set_remaining (GetRemainingQuantity o) o = o.
Proof. by destruct o. Qed.

Lemma IsFilled_set_remaining q o : IsFilled (set_remaining q o) = (q =? 0).
Proof. done. Qed.

Lemma match_level_no_bids fuel bp ap asks orders data trades :
  match_level fuel bp ap (mkLevel [] asks orders data trades) =
  Ok (mkLevel [] asks orders data trades).
Proof. by destruct fuel. Qed.

Lemma match_level_no_asks fuel bp ap bids orders data trades :
  match_level fuel bp ap (mkLevel bids [] orders data trades) =
  Ok (mkLevel bids [] orders data trades).
Proof. by destruct fuel, bids. Qed.

(** The inner loop with the incoming buy alone in its queue: it trades
    with the asks of the level in turn, until nothing is left of it or the
    level is used up. *)
Lemma match_level_sweep_Buy fuel p ap id :
  ap ≤ p →
  ∀ aq o orders data trades0 s,
    GetOrderId o = id → 0 ≤ GetRemainingQuantity o →
    Forall (fun r => GetPrice r = ap ∧ 0 ≤ GetRemainingQuantity r) aq →
    match_level fuel p ap (mkLevel [o] aq orders data trades0) = Ok s →
    ∃ tl, lv_trades s = trades0 ++ tl ∧
      ((lv_bids s = [] ∧
        ∀ rest, sweep Buy id p (GetRemainingQuantity o) (aq ++ rest) = tl) ∨
       (∃ q, lv_bids s = [set_remaining q o] ∧ lv_asks s = [] ∧ 0 ≤ q ∧
             ∀ rest, sweep Buy id p (GetRemainingQuantity o) (aq ++ rest) =
                     tl ++ sweep Buy id p q rest)).
Proof.
  intros Hle. induction fuel as [|fuel IH];
    intros aq o orders data trades0 s Hid Hrem Haq Hrun.
  - destruct aq as [|r aq]; [|done]. injection Hrun as <-.
    exists []. split; [by rewrite app_nil_r|]. right.
    exists (GetRemainingQuantity o). rewrite set_remaining_same. by split_and!.
  - destruct aq as [|r aq].
    { injection Hrun as <-.
      exists []. split; [by rewrite app_nil_r|]. right.
      exists (GetRemainingQuantity o). rewrite set_remaining_same. by split_and!. }
    apply Forall_cons in Haq as [[Hpr Hrr] Haq].
    cbn [match_level lv_bids lv_asks lv_orders lv_data lv_trades] in Hrun.
    rewrite Fill_min_l, Fill_min_r in Hrun. cbn [bind] in Hrun.
    rewrite !IsFilled_set_remaining in Hrun.
    cbn [GetOrderId set_remaining] in Hrun.
    set (qty := Z.min (GetRemainingQuantity o) (GetRemainingQuantity r)) in *.
    set (t := mkTrade (TradeInfo.mk (GetOrderId o) ap qty)
                      (TradeInfo.mk (GetOrderId r) ap qty)) in *.
    assert (∀ rest, sweep Buy id p (GetRemainingQuantity o) ((r :: aq) ++ rest) =
                    t :: (if GetRemainingQuantity o - qty =? 0 then []
                          else sweep Buy id p (GetRemainingQuantity o - qty)
                                 (aq ++ rest))) as Hsweep.
    { intros rest. cbn [app sweep within_limit]. rewrite Hpr.
      destruct (Z.leb_spec ap p); [|lia]. by rewrite <-Hid. }
    destruct (Z.eqb_spec (GetRemainingQuantity o - qty) 0) as [Hfull|Hpart].
    + rewrite match_level_no_bids in Hrun. injection Hrun as <-.
      exists [t]. split; [done|]. left. split; [done|].
      intros rest. by rewrite Hsweep.
    + assert (GetRemainingQuantity r - qty = 0) as Hr0 by lia.
      rewrite Hr0 in Hrun. cbn [Z.eqb] in Hrun.
      eapply IH in Hrun as (tl & Htl & Hcase); [|done|simpl; lia|done].
      exists (t :: tl). split; [by rewrite Htl, <-app_assoc|].
      cbn [GetRemainingQuantity set_remaining] in Hcase.
      destruct Hcase as [[Hb Hsw]|(q & Hb & Ha & Hq & Hsw)].
      * left. split; [done|]. intros rest. by rewrite Hsweep, Hsw.
      * right. exists q. rewrite set_remaining_twice in Hb.
        split_and!; [done..|]. intros rest. by rewrite Hsweep, Hsw.
Qed.

Lemma sweep_beyond s id limit qty r rest :
  within_limit s limit (GetPrice r) = false →
  sweep s id limit qty (r :: rest) = [].
Proof. intros Hw. cbn [sweep]. by rewrite Hw. Qed.

Lemma loop_exit_apart bids asks orders data :
  (∀ kb ka, kb ∈ bids.*1 → ka ∈ asks.*1 → kb < ka) →
  loop_exit (mkBook bids asks orders data).
Proof. intros Hun. by apply uncrossed_loop_exit. Qed.

(** The outer loop with the incoming buy alone at the best bid: it meets
    the asks level by level. *)
Lemma match_loop_sweep_Buy fuel p id :
  ∀ asks o brest orders data trades0 trades' b',
    GetOrderId o = id → 0 ≤ GetRemainingQuantity o →
    sorted_keys less asks → side_ok Sell asks →
    Forall (fun r => 0 ≤ GetRemainingQuantity r) (flat asks) →
    sorted_keys greater ((p, [o]) :: brest) →
    (∀ kb ka, kb ∈ brest.*1 → ka ∈ asks.*1 → kb < ka) →
    match_loop fuel (mkBook ((p, [o]) :: brest) asks orders data) trades0
    = Ok (trades', b') →
    trades' = trades0 ++ sweep Buy id p (GetRemainingQuantity o) (flat asks).
Proof.
  induction fuel as [|fuel IH];
    intros asks o brest orders data trades0 trades' b' Hid Hrem Hsa Hoka Hva Hsb
      Hun Hrun; cbn [match_loop bids_ asks_ orders_ data_] in Hrun.
  - destruct asks as [|[ap aq] arest].
    { injection Hrun as <- _. by rewrite app_nil_r. }
    apply side_ok_cons in Hoka as [[Haq Hpa] _].
    destruct aq as [|r aq]; [done|]. destruct (Hpa r) as [_ Hpr]; [left|].
    destruct (Z.ltb_spec p ap); [|done]. injection Hrun as <- _.
    rewrite flat_cons. cbn [app]. rewrite sweep_beyond, app_nil_r; [done|].
    unfold within_limit. lia.
  - destruct asks as [|[ap aq] arest].
    { injection Hrun as <- _. by rewrite app_nil_r. }
    pose proof Hoka as Hoka0.
    apply side_ok_cons in Hoka as [[Haq Hpa] Hoka].
    rewrite flat_cons in Hva |- *. apply Forall_app in Hva as [Hvq Hva].
    destruct (Z.ltb_spec p ap).
    { injection Hrun as <- _. destruct aq as [|r aq]; [done|].
      destruct (Hpa r) as [_ Hpr]; [left|]. cbn [app].
      rewrite sweep_beyond, app_nil_r; [done|]. unfold within_limit. lia. }
    inv_bind Hrun. rename a into s.
    eapply (match_level_sweep_Buy _ p ap id) in Ha as (tl & Htl & Hcase);
      [|lia|done|done|].
    2:{ apply Forall_forall. intros r Hr. split.
        - by destruct (Hpa r Hr).
        - by eapply Forall_forall in Hvq. }
    pose proof Hsa as Hsa0. apply sorted_keys_cons in Hsa as [Hap Hsa].
    assert (∀ q, map_erase ap ((ap, q) :: arest) = arest) as Herase_a.
    { intros q. by apply (map_erase_head less); [constructor|]. }
    assert (∀ kb ka, kb ∈ brest.*1 → ka ∈ arest.*1 → kb < ka) as Hun'.
    { intros kb ka Hkb Hka. apply Hun; [done|]. by right. }
    destruct Hcase as [[Hb Hsw]|(q & Hb & Hla & Hq & Hsw)].
    + rewrite Hb in Hrun. rewrite bool_decide_eq_true_2 in Hrun by done.
      rewrite (map_erase_head greater) in Hrun; [|constructor|exact Hsb].
      rewrite match_loop_exit in Hrun.
      * injection Hrun as <- _. by rewrite Htl, Hsw.
      * apply loop_exit_apart. intros kb ka Hkb Hka. apply Hun; [done|].
        case_bool_decide; [rewrite Herase_a in Hka; by right|done].
    + rewrite Hb, Hla in Hrun.
      rewrite (bool_decide_eq_false_2 ([set_remaining q o] = [])) in Hrun by done.
      rewrite bool_decide_eq_true_2, Herase_a in Hrun by done.
      eapply IH in Hrun; [|done|simpl; lia|done|done|done|exact Hsb|done].
      rewrite Hrun, Htl, Hsw, <-app_assoc. done.
Qed.

(** The same with the incoming sell alone in its queue, against the bids. *)
Lemma match_level_sweep_Sell fuel bp p id :
  p ≤ bp →
  ∀ bq o orders data trades0 s,
    GetOrderId o = id → 0 ≤ GetRemainingQuantity o →
    Forall (fun r => GetPrice r = bp ∧ 0 ≤ GetRemainingQuantity r) bq →
    match_level fuel bp p (mkLevel bq [o] orders data trades0) = Ok s →
    ∃ tl, lv_trades s = trades0 ++ tl ∧
      ((lv_asks s = [] ∧
        ∀ rest, sweep Sell id p (GetRemainingQuantity o) (bq ++ rest) = tl) ∨
       (∃ q, lv_asks s = [set_remaining q o] ∧ lv_bids s = [] ∧ 0 ≤ q ∧
             ∀ rest, sweep Sell id p (GetRemainingQuantity o) (bq ++ rest) =
                     tl ++ sweep Sell id p q rest)).
Proof.
  intros Hle. induction fuel as [|fuel IH];
    intros bq o orders data trades0 s Hid Hrem Hbq Hrun.
  - destruct bq as [|r bq]; [|done]. injection Hrun as <-.
    exists []. split; [by rewrite app_nil_r|]. right.
    exists (GetRemainingQuantity o). rewrite set_remaining_same. by split_and!.
  - destruct bq as [|r bq].
    { injection Hrun as <-.
      exists []. split; [by rewrite app_nil_r|]. right.
      exists (GetRemainingQuantity o). rewrite set_remaining_same. by split_and!. }
    apply Forall_cons in Hbq as [[Hpr Hrr] Hbq].
    cbn [match_level lv_bids lv_asks lv_orders lv_data lv_trades] in Hrun.
    rewrite Fill_min_l, Fill_min_r in Hrun. cbn [bind] in Hrun.
    rewrite !IsFilled_set_remaining in Hrun.
    cbn [GetOrderId set_remaining] in Hrun.
    set (qty := Z.min (GetRemainingQuantity r) (GetRemainingQuantity o)) in *.
    set (t := mkTrade (TradeInfo.mk (GetOrderId r) p qty)
                      (TradeInfo.mk (GetOrderId o) p qty)) in *.
    assert (∀ rest, sweep Sell id p (GetRemainingQuantity o) ((r :: bq) ++ rest) =
                    t :: (if GetRemainingQuantity o - qty =? 0 then []
                          else sweep Sell id p (GetRemainingQuantity o - qty)
                                 (bq ++ rest))) as Hsweep.
    { intros rest. cbn [app sweep within_limit]. rewrite Hpr.
      destruct (Z.leb_spec p bp); [|lia].
      rewrite (Z.min_comm (GetRemainingQuantity o)). by rewrite <-Hid. }
    destruct (Z.eqb_spec (GetRemainingQuantity o - qty) 0) as [Hfull|Hpart].
    + rewrite match_level_no_asks in Hrun. injection Hrun as <-.
      exists [t]. split; [done|]. left. split; [done|].
      intros rest. by rewrite Hsweep.
    + assert (GetRemainingQuantity r - qty = 0) as Hr0 by lia.
      rewrite Hr0 in Hrun. cbn [Z.eqb] in Hrun.
      eapply IH in Hrun as (tl & Htl & Hcase); [|done|simpl; lia|done].
      exists (t :: tl). split; [by rewrite Htl, <-app_assoc|].
      cbn [GetRemainingQuantity set_remaining] in Hcase.
      destruct Hcase as [[Ha Hsw]|(q & Ha & Hb & Hq & Hsw)].
      * left. split; [done|]. intros rest. by rewrite Hsweep, Hsw.
      * right. exists q. rewrite set_remaining_twice in Ha.
        split_and!; [done..|]. intros rest. by rewrite Hsweep, Hsw.
Qed.

Lemma match_loop_sweep_Sell fuel p id :
  ∀ bids o arest orders data trades0 trades' b',
    GetOrderId o = id → 0 ≤ GetRemainingQuantity o →
    sorted_keys greater bids → side_ok Buy bids →
    Forall (fun r => 0 ≤ GetRemainingQuantity r) (flat bids) →
    sorted_keys less ((p, [o]) :: arest) →
    (∀ kb ka, kb ∈ bids.*1 → ka ∈ arest.*1 → kb < ka) →
    match_loop fuel (mkBook bids ((p, [o]) :: arest) orders data) trades0
    = Ok (trades', b') →
    trades' = trades0 ++ sweep Sell id p (GetRemainingQuantity o) (flat bids).
Proof.
  induction fuel as [|fuel IH];
    intros bids o arest orders data trades0 trades' b' Hid Hrem Hsb Hokb Hvb Hsa
      Hun Hrun; cbn [match_loop bids_ asks_ orders_ data_] in Hrun.
  - destruct bids as [|[bp bq] brest].
    { injection Hrun as <- _. by rewrite app_nil_r. }
    apply side_ok_cons in Hokb as [[Hbq Hpb] _].
    destruct bq as [|r bq]; [done|]. destruct (Hpb r) as [_ Hpr]; [left|].
    destruct (Z.ltb_spec bp p); [|done]. injection Hrun as <- _.
    rewrite flat_cons. cbn [app]. rewrite sweep_beyond, app_nil_r; [done|].
    unfold within_limit. lia.
  - destruct bids as [|[bp bq] brest].
    { injection Hrun as <- _. by rewrite app_nil_r. }
    apply side_ok_cons in Hokb as [[Hbq Hpb] Hokb].
    rewrite flat_cons in Hvb |- *. apply Forall_app in Hvb as [Hvq Hvb].
    destruct (Z.ltb_spec bp p).
    { injection Hrun as <- _. destruct bq as [|r bq]; [done|].
      destruct (Hpb r) as [_ Hpr]; [left|]. cbn [app].
      rewrite sweep_beyond, app_nil_r; [done|]. unfold within_limit. lia. }
    inv_bind Hrun. rename a into s.
    eapply (match_level_sweep_Sell _ bp p id) in Ha as (tl & Htl & Hcase);
      [|lia|done|done|].
    2:{ apply Forall_forall. intros r Hr. split.
        - by destruct (Hpb r Hr).
        - by eapply Forall_forall in Hvq. }
    pose proof Hsb as Hsb0. apply sorted_keys_cons in Hsb as [Hbp Hsb].
    assert (∀ q, map_erase bp ((bp, q) :: brest) = brest) as Herase_b.
    { intros q. by apply (map_erase_head greater); [constructor|]. }
    assert (∀ q : list Order, map_erase p ((p, q) :: arest) = arest) as Herase_a.
    { intros q. apply (map_erase_head less); [constructor|exact Hsa]. }
    assert (∀ kb ka, kb ∈ brest.*1 → ka ∈ arest.*1 → kb < ka) as Hun'.
    { intros kb ka Hkb Hka. apply Hun; [by right|done]. }
    destruct Hcase as [[Ha Hsw]|(q & Ha & Hlb & Hq & Hsw)].
    + rewrite Ha in Hrun.
      rewrite (bool_decide_eq_true_2 (@nil Order = [])) in Hrun by done.
      rewrite Herase_a in Hrun.
      rewrite match_loop_exit in Hrun.
      * injection Hrun as <- _. by rewrite Htl, Hsw.
      * apply loop_exit_apart. intros kb ka Hkb Hka. apply Hun; [|done].
        case_bool_decide; [rewrite Herase_b in Hkb; by right|done].
    + rewrite Ha, Hlb in Hrun.
      rewrite (bool_decide_eq_false_2 ([set_remaining q o] = [])) in Hrun by done.
      rewrite bool_decide_eq_true_2, Herase_b in Hrun by done.
      eapply IH in Hrun; [|done|simpl; lia|done|done|done|exact Hsa|done].
      rewrite Hrun, Htl, Hsw, <-app_assoc. done.
Qed.

Lemma sweep_none s id limit qty b :
  wf b → CanMatch s limit b = false →
  sweep s id limit qty (flat (opposite s b)) = [].
Proof.
  intros Hwf Hcan. rewrite CanMatch_head in Hcan.
  pose proof (opposite_side_ok s b Hwf) as Hok.
  destruct (opposite s b) as [|[best q] rest]; [done|].
  apply side_ok_cons in Hok as [[Hq Hp] _]. destruct q as [|r q]; [done|].
  rewrite flat_cons. cbn [app]. apply sweep_beyond.
  destruct (Hp r) as [_ ->]; [left|done].
Qed.

Lemma AddOrder_to_MatchOrders b o o' trades b' :
  orders_ b !! GetOrderId o = None → convert_market o b = Some o' →
  (GetOrderType o' = FillOrKill →
   CanFullyFill (GetSide o') (GetPrice o') (GetInitialQuantity o') b = true) →
  AddOrder o b = Ok (trades, b') →
  (trades = [] ∧ b' = b ∧ CanMatch (GetSide o') (GetPrice o') b = false) ∨
  MatchOrders (insert_order o' b) = Ok (trades, b').
Proof.
  intros Hfresh Hconv Hfok Hadd. unfold AddOrder in Hadd.
  rewrite bool_decide_eq_false_2 in Hadd by (rewrite Hfresh; by intros [? ?]).
  rewrite Hconv in Hadd.
  destruct (bool_decide (GetOrderType o' = FillAndKill)
            && negb (CanMatch (GetSide o') (GetPrice o') b)) eqn:Hfak.
  - injection Hadd as <- <-. apply andb_prop in Hfak as [_ Hcan].
    apply negb_true_iff in Hcan. by left.
  - destruct (bool_decide (GetOrderType o' = FillOrKill)
              && negb (CanFullyFill (GetSide o') (GetPrice o')
                         (GetInitialQuantity o') b)) eqn:Hfok'; [|by right].
    apply andb_prop in Hfok' as [Hty Hcan].
    apply bool_decide_eq_true in Hty. by rewrite (Hfok Hty) in Hcan.
Qed.

Lemma MatchOrders_trades b trades b' :
  MatchOrders b = Ok (trades, b') →
  ∃ b1, match_loop (match_loop_bound b) b [] = Ok (trades, b1).
Proof.
  unfold MatchOrders. intros Hrun. inv_bind Hrun. destruct a as [trades1 b1].
  inv_bind Hrun. inv_bind Hrun. injection Hrun as <- _. by exists b1.
Qed.

(** The trades of the loop on a book into which an order has just been
    inserted are the walk of that order over the other side. *)
Lemma insert_order_sweep b o fuel trades b1 :
  Inv b → valid_order o → orders_ b !! GetOrderId o = None →
  match_loop fuel (insert_order o b) [] = Ok (trades, b1) →
  trades = sweep (GetSide o) (GetOrderId o) (GetPrice o)
             (GetRemainingQuantity o) (flat (opposite (GetSide o) b)).
Proof.
  intros HInv Hvalid Hfresh Hrun. pose proof (inv_wf b HInv) as Hwf.
  pose proof (inv_uncrossed b HInv) as Hun.
  destruct (CanMatch (GetSide o) (GetPrice o) b) eqn:Hcan.
  2:{ rewrite match_loop_exit in Hrun.
      - injection Hrun as <- _. by rewrite sweep_none.
      - by apply uncrossed_loop_exit, insert_order_uncrossed. }
  pose proof (wf_quantities b Hwf) as Hq. unfold book_orders in Hq.
  apply Forall_app in Hq as [Hqb Hqa].
  assert (∀ l, Forall valid_order l →
               Forall (fun r => 0 ≤ GetRemainingQuantity r) l) as Hnonneg.
  { intros l Hl. eapply Forall_impl; [exact Hl|]. by intros r [[? _] _]. }
  destruct Hvalid as [[Hrem _] _].
  unfold insert_order in Hrun. destruct (GetSide o); cbn [opposite].
  - rewrite (push_back_front greater comparator_greater) in Hrun
      by (intros k Hk; by eapply CanMatch_Buy_front).
    eapply match_loop_sweep_Buy in Hrun; [done|done|done|apply Hwf|apply Hwf| | |].
    + by apply Hnonneg.
    + apply sorted_keys_cons. split; [|apply Hwf].
      apply Forall_forall. intros k Hk. by eapply CanMatch_Buy_front.
    + exact Hun.
  - rewrite (push_back_front less comparator_less) in Hrun
      by (intros k Hk; by eapply CanMatch_Sell_front).
    eapply match_loop_sweep_Sell in Hrun; [done|done|done|apply Hwf|apply Hwf| | |].
    + by apply Hnonneg.
    + apply sorted_keys_cons. split; [|apply Hwf].
      apply Forall_forall. intros k Hk. by eapply CanMatch_Sell_front.
    + exact Hun.
Qed.

(** The trades that [AddOrder] returns are, in their order, the walk of
    the order over the other side of the book as it was before the call:
    best price first, and at each price the order that has waited longest
    first; each trade takes the smaller of what is left of the incoming
    order and of what the resting order offers, at the price of the sell
    order of the two; the walk ends with the first resting order beyond the
    limit, or when nothing is left of the incoming order. *)
Theorem AddOrder_trades_are_the_sweep b o o' trades b' :
  reachable b → valid_order o → orders_ b !! GetOrderId o = None →
  convert_market o b = Some o' →
  (GetOrderType o' = FillOrKill →
   CanFullyFill (GetSide o') (GetPrice o') (GetInitialQuantity o') b = true) →
  AddOrder o b = Ok (trades, b') →
  trades = sweep (GetSide o) (GetOrderId o) (GetPrice o')
             (GetRemainingQuantity o) (flat (opposite (GetSide o) b)).
Proof.
  intros Hb Hvalid Hfresh Hconv Hfok Hadd.
  pose proof (reachable_Inv b Hb) as HInv.
  destruct (convert_market_Some o b o' Hconv) as (Hid & Hside & _ & Hrem & _ & _).
  pose proof (convert_market_valid o b o' Hconv Hvalid) as Hvalid'.
  rewrite <-Hid, <-Hside, <-Hrem.
  destruct (AddOrder_to_MatchOrders b o o' trades b' Hfresh Hconv Hfok Hadd)
    as [(-> & _ & Hcan)|Hrun].
  - symmetry. apply sweep_none; [apply HInv|done].
  - apply MatchOrders_trades in Hrun as [b1 Hloop].
    eapply (insert_order_sweep b o'); [done|done|by rewrite Hid|exact Hloop].
Qed.

Lemma AddOrder_trades_are_the_sweep_witness :
  let b := book_after [ReqAdd (new_Order GoodTillCancel 1 Sell 100 5);
                       ReqAdd (new_Order GoodTillCancel 2 Sell 101 4);
                       ReqAdd (new_Order GoodTillCancel 5 Sell 100 2);
                       ReqAdd (new_Order GoodTillCancel 3 Sell 103 9)] in
  let o := new_Order GoodTillCancel 4 Buy 101 12 in
  reachable b ∧
  ∃ trades b',
    AddOrder o b = Ok (trades, b') ∧
    trades = [mkTrade (TradeInfo.mk 4 100 5) (TradeInfo.mk 1 100 5);
              mkTrade (TradeInfo.mk 4 100 2) (TradeInfo.mk 5 100 2);
              mkTrade (TradeInfo.mk 4 101 4) (TradeInfo.mk 2 101 4)].
Proof.
  intros b o.
  assert (Hb : reachable b) by (apply reachable_book_after; solve_valid).
  split; [exact Hb|].
  destruct (AddOrder_Inv o b (reachable_Inv b Hb)) as (trades & b' & Hadd & _);
    [solve_valid|].
  exists trades, b'. split; [exact Hadd|].
  apply (AddOrder_trades_are_the_sweep b o o trades b' Hb);
    [solve_valid|reflexivity|reflexivity|discriminate|exact Hadd].
Defined.
